(** * Verification of faucet's configuration parser

    A shallow embedding of [faucet/config_parser.py]: the top-level
    dispatcher [dp_parser], the version-2 pipeline [_config_parser_v2] and
    [_dp_parser_v2] with its four closures ([_get_vlan_by_identifier],
    [_dp_add_vlan], [_dp_parse_port], [_dp_add_ports]), the aggregation API
    [get_config_for_api], and [watcher_parser] with [_watcher_parser_v2].

    Python objects that are mutated in place and shared by reference (VLAN
    instances, the per-port configuration mappings) live in stores and are
    named by their address; dictionaries are association lists in insertion
    order; exceptions are results; the mutable state of one resolution run is
    threaded by a state-and-exception monad in which the state survives a
    raised exception, as it does in Python. *)

From Stdlib Require Import ZArith String Ascii DecimalString.
From Stdlib Require DecimalPos.
From stdpp Require Import base option list gmap sets strings.

Local Open Scope Z_scope.

(** ** Python values and the builtins the parser calls *)

Module Py.

(** Hashable scalars: what a YAML document uses as mapping keys and as
    identifiers.  Floating-point scalars are not modelled. *)
Inductive atom :=
| ANone
| ABool (b : bool)
| AInt (z : Z)
| AStr (s : string).

(** Values of a loaded configuration document. *)
#[local] Unset Elimination Schemes.
Inductive pyval :=
| VAtom (a : atom)
| VList (l : list pyval)
| VDict (d : list (atom * pyval)).
#[local] Set Elimination Schemes.

(** A Python [dict]: association list in insertion order, at most one entry
    per key (up to [==]). *)
Abbreviation dict V := (list (atom * V)).

(** Python's [==] on hashable scalars; [True == 1] and [False == 0]. *)
Definition atom_eqb (a b : atom) : bool :=
  match a, b with
  | ANone, ANone => true
  | ABool x, ABool y => Bool.eqb x y
  | ABool x, AInt z => Z.b2z x =? z
  | AInt z, ABool x => z =? Z.b2z x
  | AInt x, AInt y => x =? y
  | AStr s, AStr t => String.eqb s t
  | _, _ => false
  end.

(** [str(x)] on hashable scalars. *)
Definition atom_str (a : atom) : string :=
  match a with
  | ANone => "None"
  | ABool true => "True"
  | ABool false => "False"
  | AInt z => NilZero.string_of_int (Z.to_int z)
  | AStr s => s
  end.

(** [x == s] where [s] is a [str]: only a [str] equals a [str]. *)
Definition atom_eq_str (a : atom) (s : string) : bool :=
  match a with
  | AStr t => String.eqb t s
  | _ => false
  end.

(** Truth value of an object, as [not x], [x or y] and [if x] take it. *)
Definition truthy (v : pyval) : bool :=
  match v with
  | VAtom ANone => false
  | VAtom (ABool b) => b
  | VAtom (AInt z) => negb (z =? 0)
  | VAtom (AStr s) => negb (String.eqb s "")
  | VList l => match l with [] => false | _ => true end
  | VDict d => match d with [] => false | _ => true end
  end.

(** *** Dictionaries *)

Section Dict.
Context {V : Type}.

(** [d.get(k)] / [d[k]]: the first (and, in a well-formed dict, only)
    entry whose key equals [k]. *)
Fixpoint dict_get (k : atom) (d : dict V) : option V :=
  match d with
  | [] => None
  | (k', v) :: d' => if atom_eqb k k' then Some v else dict_get k d'
  end.

(** [k in d] *)
Definition dict_mem (k : atom) (d : dict V) : bool :=
  match dict_get k d with Some _ => true | None => false end.

(** [d[k] = v]: an existing key keeps its position, a new key goes last. *)
Fixpoint dict_set (k : atom) (v : V) (d : dict V) : dict V :=
  match d with
  | [] => [(k, v)]
  | (k', v') :: d' =>
      if atom_eqb k k' then (k', v) :: d' else (k', v') :: dict_set k v d'
  end.

(** [d.setdefault(k, v)] as a state change (the returned value is
    [dict_get k] of the result). *)
Definition dict_setdefault (k : atom) (v : V) (d : dict V) : dict V :=
  if dict_mem k d then d else d ++ [(k, v)].

(** [del d[k]] for a key that is present; no change otherwise (the parser
    only deletes behind an [in] test). *)
Fixpoint dict_del (k : atom) (d : dict V) : dict V :=
  match d with
  | [] => []
  | (k', v') :: d' => if atom_eqb k k' then d' else (k', v') :: dict_del k d'
  end.

(** [list(d.values())] and [list(d.items())] *)
Definition dict_values (d : dict V) : list V := d.*2.
Definition dict_items (d : dict V) : list (atom * V) := d.
End Dict.

(** *** Characters and integer literals

    Strings are sequences of 8-bit characters; the digits and the white space
    of [int] and of the regular expression class [\d] are the ASCII ones. *)

Definition is_digit (c : ascii) : bool :=
  let n := nat_of_ascii c in (48 <=? n)%nat && (n <=? 57)%nat.

Definition is_space (c : ascii) : bool :=
  let n := nat_of_ascii c in
  ((9 <=? n)%nat && (n <=? 13)%nat) || ((28 <=? n)%nat && (n <=? 32)%nat).

(** Value of a digit in bases up to 36. *)
Definition digit_val (c : ascii) : option Z :=
  let n := nat_of_ascii c in
  if (48 <=? n)%nat && (n <=? 57)%nat then Some (Z.of_nat n - 48)
  else if (97 <=? n)%nat && (n <=? 122)%nat then Some (Z.of_nat n - 87)
  else if (65 <=? n)%nat && (n <=? 90)%nat then Some (Z.of_nat n - 55)
  else None.

(** Digits of a literal, with single underscores between digits.  [us] says
    that an underscore is not allowed next (at the start, or right after
    another underscore). *)
Fixpoint digits_acc (base : Z) (us : bool) (acc : Z) (s : string) : option Z :=
  match s with
  | EmptyString => if us then None else Some acc
  | String c s' =>
      if Ascii.eqb c "_" then
        if us then None else digits_acc base true acc s'
      else
        match digit_val c with
        | Some d => if d <? base then digits_acc base false (acc * base + d) s'
                    else None
        | None => None
        end
  end.

(** A non-empty digit sequence; [lead_us] allows one underscore in front, as
    after a base prefix. *)
Definition parse_digits (base : Z) (lead_us : bool) (s : string) : option Z :=
  match s with
  | EmptyString => None
  | _ => digits_acc base (negb lead_us) 0 s
  end.

Fixpoint lstrip (s : string) : string :=
  match s with
  | String c s' => if is_space c then lstrip s' else s
  | EmptyString => EmptyString
  end.

Fixpoint rstrip (s : string) : string :=
  match s with
  | EmptyString => EmptyString
  | String c s' =>
      match rstrip s' with
      | EmptyString => if is_space c then EmptyString else String c EmptyString
      | r => String c r
      end
  end.

Definition strip (s : string) : string := rstrip (lstrip s).

(** The unsigned part of a base-0 literal: [0x], [0o] and [0b] prefixes in
    either case; otherwise decimal, where a leading zero is only allowed in
    a literal that is zero. *)
Definition unsigned_literal0 (s : string) : option Z :=
  match s with
  | String "0" (String p rest) =>
      if Ascii.eqb p "x" || Ascii.eqb p "X" then parse_digits 16 true rest
      else if Ascii.eqb p "o" || Ascii.eqb p "O" then parse_digits 8 true rest
      else if Ascii.eqb p "b" || Ascii.eqb p "B" then parse_digits 2 true rest
      else match parse_digits 10 false s with
           | Some 0 => Some 0
           | _ => None
           end
  | _ => parse_digits 10 false s
  end.

Definition signed (lit : string -> option Z) (s : string) : option Z :=
  match strip s with
  | String "-" s' => Z.opp <$> lit s'
  | String "+" s' => lit s'
  | s' => lit s'
  end.

(** [int(s, 0)]; [None] stands for [ValueError]. *)
Definition int0 (s : string) : option Z := signed unsigned_literal0 s.

(** [int(s)]; [None] stands for [ValueError]. *)
Definition int10 (s : string) : option Z := signed (parse_digits 10 false) s.

(** *** The regular expressions of the port-range expander *)

(** The longest run of digits at the start of [s], and what follows it. *)
Fixpoint span_digits (s : string) : string * string :=
  match s with
  | String c s' =>
      if is_digit c then let '(d, r) := span_digits s' in (String c d, r)
      else (EmptyString, s)
  | EmptyString => (EmptyString, EmptyString)
  end.

(** One match of [\d+-\d+] anchored at the start of [s].  Both groups are
    greedy; giving back digits of the first group never helps, since the
    character after a shorter first group is a digit and not the dash. *)
Definition match_range (s : string) : option string :=
  match span_digits s with
  | (EmptyString, _) => None
  | (d1, String "-" r) =>
      match span_digits r with
      | (EmptyString, _) => None
      | (d2, _) => Some (d1 +:+ String "-" d2)
      end
  | _ => None
  end.

(** One match of [\d+] anchored at the start of [s]. *)
Definition match_digits (s : string) : option string :=
  match span_digits s with
  | (EmptyString, _) => None
  | (d, _) => Some d
  end.

(** [re.findall] for a pattern given by its anchored matcher: scan from the
    left, and after a match resume behind it.  [skip] counts the characters
    of the current match that are still to be passed over. *)
Fixpoint findall_from (m : string -> option string) (skip : nat) (s : string)
  : list string :=
  match s with
  | EmptyString => []
  | String _ s' =>
      match skip with
      | S k => findall_from m k s'
      | O =>
          match m s with
          | Some tok => tok :: findall_from m (String.length tok - 1) s'
          | None => findall_from m 0 s'
          end
      end
  end.

Definition findall (m : string -> option string) (s : string) : list string :=
  findall_from m 0 s.

(** [re.sub(pat, '', s)] for a pattern without special characters (here: a
    matched range token, digits and one dash): every occurrence of [pat],
    found from the left and not overlapping, is dropped. *)
Fixpoint remove_all_from (pat : string) (skip : nat) (s : string) : string :=
  match s with
  | EmptyString => EmptyString
  | String c s' =>
      match skip with
      | S k => remove_all_from pat k s'
      | O =>
          if String.prefix pat s
          then remove_all_from pat (String.length pat - 1) s'
          else String c (remove_all_from pat 0 s')
      end
  end.

Definition re_sub_remove (pat s : string) : string :=
  match pat with
  | EmptyString => s
  | _ => remove_all_from pat 0 s
  end.

(** [s.split(sep)] for a one-character separator. *)
Fixpoint split_on (sep : ascii) (s : string) : list string :=
  match s with
  | EmptyString => [EmptyString]
  | String c s' =>
      if Ascii.eqb c sep then EmptyString :: split_on sep s'
      else match split_on sep s' with
           | w :: ws => String c w :: ws
           | [] => [String c EmptyString]
           end
  end.

(** [list(range(a, b))] *)
Definition range (a b : Z) : list Z := seqZ a (b - a).

End Py.

Import Py.

(** ** Exceptions and the monad of one resolution run *)

(** Address of an object in a store. *)
Abbreviation addr := nat.

(** The VLAN class is a collaborator ([faucet.vlan]).
    Modelled from the spec: the VLAN class is not among the sources.  A VLAN
    is identified by its id and the id of the switch that owns it, carries an
    optional routing-speaker marker [bgp_routerid] and the ports attached to
    it, tagged and untagged.  Ports are recorded by their identifier. *)
Record VLAN := {
  vid : atom;
  vlan_dp_id : atom;
  bgp_routerid : pyval;
  tagged : list atom;
  untagged : list atom
}.

(** A VLAN reference held by a port: the identifier written in the
    configuration, or, once resolved, the VLAN object. *)
Inductive native_ref :=
| Ident (v : pyval)
| Obj (a : addr).

Inductive tagged_refs :=
| Idents (v : pyval)
| Objs (l : list addr).

(** The Port class is a collaborator ([faucet.port]).
    Modelled from the spec: the Port class is not among the sources.  A port
    has the identifier it was declared with, an optional native VLAN, its
    tagged VLANs and an optional stacking marker; the other fields of its
    configuration are opaque. *)
Record Port := {
  port_id : atom;
  port_conf : dict pyval;
  native_vlan : native_ref;
  tagged_vlans : tagged_refs;
  stack : pyval
}.

(** The format strings of the parser's assertions, each with the values it
    is formatted with. *)
Inductive message :=
| MsgConfigEmpty                              (* Config file is empty *)
| MsgConfigSyntax                             (* Config file does not have valid syntax *)
| MsgVersion                                  (* Only config version 2 is supported *)
| MsgDpsUndefined                             (* dps are not defined *)
| MsgLoadError (config_path : string)         (* Error found while loading config file: %s *)
| MsgNoDPs (config_path : string)             (* DPs not configured in file: %s *)
| MsgVidInvalid (vlan_ident : atom)           (* VLAN VID value (%s) is invalid *)
| MsgVidRange (vlan_ident : atom) (vid : Z)   (* VLAN %s VID value %d is not in valid range *)
| MsgBgpShared (dps : gset string)            (* DPs %s sharing a BGP speaker VLAN is unsupported *)
| MsgPortNoVlan (port : Port)                 (* %s must have a VLAN or be a stack port *)
| MsgPortRangeInt                             (* port range must be integer *)
| MsgPortRange (start_num end_num : Z)        (* Incorrect port range (%d - %d) *)
| MsgCollaborator (text : string).            (* an assertion of a collaborator class *)

Inductive exn :=
| AssertionError (msg : message)
| InvalidConfigError (msg : message)
| TypeError (what : string)
| ValueError (what : string)
| NoSuchObject (a : addr).   (* an address outside its store; no Python counterpart *)

Inductive result (A : Type) :=
| Ok (a : A)
| Raise (e : exn).
Arguments Ok {A} a.
Arguments Raise {A} e.

(** A computation over a mutable state [S] that returns or raises; the state
    reached is kept in both cases. *)
Definition M (S A : Type) : Type := S -> result A * S.

Definition ret {S A} (a : A) : M S A := fun s => (Ok a, s).

Definition bind {S A B} (m : M S A) (k : A -> M S B) : M S B :=
  fun s => match m s with
           | (Ok a, s') => k a s'
           | (Raise e, s') => (Raise e, s')
           end.

Definition raise {S A} (e : exn) : M S A := fun s => (Raise e, s).
Definition get {S} : M S S := fun s => (Ok s, s).
Definition modify {S} (f : S -> S) : M S unit := fun s => (Ok tt, f s).

Declare Scope py_scope.
Delimit Scope py_scope with py.
Notation "x <- c1 ;; c2" := (bind c1 (fun x => c2))
  (at level 100, c1 at next level, right associativity) : py_scope.
Notation "c1 ;; c2" := (bind c1 (fun _ => c2))
  (at level 100, right associativity) : py_scope.
Local Open Scope py_scope.

(** [assert c, msg] *)
Definition assert_ {S} (c : bool) (msg : message) : M S unit :=
  if c then ret tt else raise (AssertionError msg).

(** A pure computation that may raise, run inside a stateful one. *)
Definition lift_result {S A} (r : result A) : M S A :=
  match r with
  | Ok a => ret a
  | Raise e => raise e
  end.

(** [for x in l: acc = body(acc, x)] *)
Fixpoint foldM {S A B} (body : A -> B -> M S A) (acc : A) (l : list B) : M S A :=
  match l with
  | [] => ret acc
  | x :: l' => acc' <- body acc x ;; foldM body acc' l'
  end.

(** [for x in l: body(x)] *)
Fixpoint forM_ {S B} (l : list B) (body : B -> M S unit) : M S unit :=
  match l with
  | [] => ret tt
  | x :: l' => body x ;; forM_ l' body
  end.

(** Run a computation on a component of a larger state. *)
Definition zoom {S T A} (proj : T -> S) (inj : S -> T -> T) (m : M S A) : M T A :=
  fun t => let '(r, s') := m (proj t) in (r, inj s' t).

(** A value used as a dictionary key or looked up in one must be hashable. *)
Definition hashable {S} (v : pyval) : M S atom :=
  match v with
  | VAtom a => ret a
  | _ => raise (TypeError "unhashable type")
  end.

(** Iteration over a value: the elements of a list, the keys of a mapping,
    the characters of a string. *)
Fixpoint chars (s : string) : list pyval :=
  match s with
  | EmptyString => []
  | String c s' => VAtom (AStr (String c EmptyString)) :: chars s'
  end.

Definition iter_list (v : pyval) : option (list pyval) :=
  match v with
  | VList l => Some l
  | VDict d => Some (VAtom <$> d.*1)
  | VAtom (AStr s) => Some (chars s)
  | VAtom _ => None
  end.

Definition iter {S} (v : pyval) : M S (list pyval) :=
  match iter_list v with
  | Some l => ret l
  | None => raise (TypeError "object is not iterable")
  end.

(** ** The collaborator classes, as far as the parser uses them *)

Abbreviation conf := (dict pyval).

(** [conf.get(key)], [None] when the key is missing. *)
Definition conf_get (key : string) (c : conf) : pyval :=
  default (VAtom ANone) (dict_get (AStr key) c).

(** Modelled from the spec: the VLAN constructor [VLAN(_id, dp_id, conf)] is
    not among the sources.  The id is the configured [vid], and the
    identifier the VLAN is declared under when none is configured; a new VLAN
    has no ports. *)
Definition VLAN_new (_id dp_id : atom) (c : conf) : VLAN :=
  {| vid := match conf_get "vid" c with
            | VAtom ANone => _id
            | VAtom a => a
            | _ => _id
            end;
     vlan_dp_id := dp_id;
     bgp_routerid := conf_get "bgp_routerid" c;
     tagged := [];
     untagged := [] |}.

Definition VLAN_add_tagged (p : atom) (v : VLAN) : VLAN :=
  {| vid := vid v; vlan_dp_id := vlan_dp_id v; bgp_routerid := bgp_routerid v;
     tagged := tagged v ++ [p]; untagged := untagged v |}.

Definition VLAN_add_untagged (p : atom) (v : VLAN) : VLAN :=
  {| vid := vid v; vlan_dp_id := vlan_dp_id v; bgp_routerid := bgp_routerid v;
     tagged := tagged v; untagged := untagged v ++ [p] |}.

(** [vlan.get_ports()]: the attached ports. *)
Definition VLAN_get_ports (v : VLAN) : list atom := tagged v ++ untagged v.

(** Modelled from the spec: the Port constructor [Port(_id, conf)] is not
    among the sources.  The references are the values of [native_vlan] and
    [tagged_vlans]; a port configured without tagged VLANs has none. *)
Definition Port_new (_id : atom) (c : conf) : Port :=
  {| port_id := _id;
     port_conf := c;
     native_vlan := Ident (conf_get "native_vlan" c);
     tagged_vlans := Idents (match conf_get "tagged_vlans" c with
                             | VAtom ANone => VList []
                             | v => v
                             end);
     stack := conf_get "stack" c |}.

Definition Port_set_native_vlan (a : addr) (p : Port) : Port :=
  {| port_id := port_id p; port_conf := port_conf p; native_vlan := Obj a;
     tagged_vlans := tagged_vlans p; stack := stack p |}.

Definition Port_set_tagged_vlans (l : list addr) (p : Port) : Port :=
  {| port_id := port_id p; port_conf := port_conf p; native_vlan := native_vlan p;
     tagged_vlans := Objs l; stack := stack p |}.

(** [port.vlans()]: the VLANs the port is in, native first;
    [None] for a port whose tagged VLANs are still identifiers. *)
Definition Port_vlans (p : Port) : option (list addr) :=
  match tagged_vlans p with
  | Objs l => Some (match native_vlan p with
                    | Obj a => a :: l
                    | Ident _ => l
                    end)
  | Idents _ => None
  end.

(** ACLs, routers and meters are opaque values built from an identifier and
    a raw configuration. *)
Record ACL := { acl_id : atom; acl_conf : conf }.
Record Router := { router_id : atom; router_conf : conf }.
Record Meter := { meter_id : atom; meter_conf : conf }.

(** The configuration of one switch: its own fields, and the two sections
    the parser takes out of it. *)
Record DpConf := {
  dp_fields : conf;
  interfaces : option (dict conf);                (* 'interfaces' *)
  interface_ranges : option (list (string * conf)) (* 'interface-ranges' *)
}.

(** Modelled from the spec: the DP class is not among the sources.  A switch
    has a name and a switch id, and collects ports, VLANs, ACLs, routers and
    meters in the order they are added. *)
Record DP := {
  dp_ident : atom;
  dp_name : string;
  dp_id : atom;
  dp_ports : list Port;
  dp_vlans : list addr;
  dp_acls : list (atom * ACL);
  dp_routers : list (atom * Router);
  dp_meters : dict Meter
}.

Definition DP_new (identifier : atom) (c : DpConf) : DP :=
  {| dp_ident := identifier;
     dp_name := match conf_get "name" (dp_fields c) with
                | VAtom (AStr s) => s
                | _ => atom_str identifier
                end;
     dp_id := match conf_get "dp_id" (dp_fields c) with
              | VAtom ANone => identifier
              | VAtom a => a
              | _ => identifier
              end;
     dp_ports := []; dp_vlans := []; dp_acls := []; dp_routers := [];
     dp_meters := [] |}.

Definition DP_add_port (p : Port) (dp : DP) : DP :=
  {| dp_ident := dp_ident dp; dp_name := dp_name dp; dp_id := dp_id dp;
     dp_ports := dp_ports dp ++ [p]; dp_vlans := dp_vlans dp;
     dp_acls := dp_acls dp; dp_routers := dp_routers dp;
     dp_meters := dp_meters dp |}.

Definition DP_add_vlan (a : addr) (dp : DP) : DP :=
  {| dp_ident := dp_ident dp; dp_name := dp_name dp; dp_id := dp_id dp;
     dp_ports := dp_ports dp; dp_vlans := dp_vlans dp ++ [a];
     dp_acls := dp_acls dp; dp_routers := dp_routers dp;
     dp_meters := dp_meters dp |}.

Definition DP_add_acl (i : atom) (x : ACL) (dp : DP) : DP :=
  {| dp_ident := dp_ident dp; dp_name := dp_name dp; dp_id := dp_id dp;
     dp_ports := dp_ports dp; dp_vlans := dp_vlans dp;
     dp_acls := dp_acls dp ++ [(i, x)]; dp_routers := dp_routers dp;
     dp_meters := dp_meters dp |}.

Definition DP_add_router (i : atom) (x : Router) (dp : DP) : DP :=
  {| dp_ident := dp_ident dp; dp_name := dp_name dp; dp_id := dp_id dp;
     dp_ports := dp_ports dp; dp_vlans := dp_vlans dp;
     dp_acls := dp_acls dp; dp_routers := dp_routers dp ++ [(i, x)];
     dp_meters := dp_meters dp |}.

Definition DP_set_meter (i : atom) (x : Meter) (dp : DP) : DP :=
  {| dp_ident := dp_ident dp; dp_name := dp_name dp; dp_id := dp_id dp;
     dp_ports := dp_ports dp; dp_vlans := dp_vlans dp;
     dp_acls := dp_acls dp; dp_routers := dp_routers dp;
     dp_meters := dict_set i x (dp_meters dp) |}.

(** The top-level sections of a version-2 document, [V2_TOP_CONFS]. *)
Record TopConfs := {
  tc_acls : dict conf;
  tc_dps : dict DpConf;
  tc_meters : dict conf;
  tc_routers : dict conf;
  tc_vlans : dict conf
}.

(** ** The port-range expander (lines 117-147 of [_dp_add_ports]) *)

(** State of the loop over the [start-end] tokens of one range
    specification: the port numbers found, and what is left of the
    specification. *)
Record RangeScan := {
  port_nums : gset Z;
  port_range : string
}.

(** [start_num, end_num = [int(num) for num in range_.split('-')]]; [None]
    when a part is no integer or there are not two parts. *)
Definition token_bounds (range_ : string) : option (Z * Z) :=
  match int10 <$> split_on "-" range_ with
  | [Some start_num; Some end_num] => Some (start_num, end_num)
  | _ => None
  end.

(** Body of the loop over [re.findall(r'(\d+-\d+)', port_range)]. *)
Definition range_token (range_ : string) : M RangeScan unit :=
  se <- match token_bounds range_ with
        | Some se => ret se
        | None => raise (AssertionError MsgPortRangeInt)
        end ;;
  assert_ (fst se <? snd se) (MsgPortRange (fst se) (snd se)) ;;
  modify (fun st =>
    {| port_nums := port_nums st ∪ list_to_set (range (fst se) (snd se + 1));
       port_range := re_sub_remove range_ (port_range st) |}).

(** The port numbers one range specification expands to. *)
Definition expand_port_range (spec : string) : result (gset Z) :=
  match forM_ (findall match_range spec) range_token
              {| port_nums := ∅; port_range := spec |} with
  | (Ok _, st) =>
      match mapM int10 (findall match_digits (port_range st)) with
      | Some other_nums => Ok (port_nums st ∪ list_to_set other_nums)
      | None => Raise (ValueError "invalid literal for int()")
      end
  | (Raise e, _) => Raise e
  end.

(** The mappings of one switch's ports while ranges are merged in: the
    port-configuration objects, by address, and [port_num_to_port_conf],
    whose entries refer to them. *)
Record PortConfs := {
  confs : list conf;
  port_num_to_port_conf : dict (atom * addr)
}.

Definition conf_at (a : addr) : M PortConfs conf :=
  fun st => match confs st !! a with
            | Some c => (Ok c, st)
            | None => (Raise (NoSuchObject a), st)
            end.

Definition update_conf (a : addr) (f : conf -> conf) : M PortConfs unit :=
  modify (fun st => {| confs := alter f a (confs st);
                       port_num_to_port_conf := port_num_to_port_conf st |}).

Definition set_entry (port_num : atom) (e : atom * addr) : M PortConfs unit :=
  modify (fun st => {| confs := confs st;
                       port_num_to_port_conf :=
                         dict_set port_num e (port_num_to_port_conf st) |}).

(** Body of the loop over the individually declared ports; [a] is the
    address of [port_conf]. *)
Definition individual_port (x : addr * (atom * conf)) : M PortConfs unit :=
  let '(a, (port_ident, port_conf)) := x in
  port_num <- (if dict_mem (AStr "number") port_conf
               then hashable (conf_get "number" port_conf)
               else ret port_ident) ;;
  set_entry port_num (port_ident, a).

(** The loop over the individually declared ports (lines 118-123); the
    configuration of the [i]-th one is at address [i]. *)
Definition individual_ports (ports_conf : dict conf) : M PortConfs unit :=
  forM_ (zip (seq 0 (length ports_conf)) ports_conf) individual_port.

(** Every configuration mapping of the two sections is an object of its
    own; the individual ones come first in the store. *)
Definition initial_port_confs (ports_conf : dict conf)
    (port_ranges_conf : list (string * conf)) : PortConfs :=
  {| confs := ports_conf.*2 ++ port_ranges_conf.*2;
     port_num_to_port_conf := [] |}.

Section Expander.
(** The order in which a [for] loop visits a [set] of integers. *)
Variable set_iter : gset Z -> list Z.

(** Body of the loop over the port numbers of one range; [r] is the
    address of the range's configuration. *)
Definition range_port (r : addr) (port_num : Z) : M PortConfs unit :=
  st <- get ;;
  match dict_get (AInt port_num) (port_num_to_port_conf st) with
  | Some (_, a) =>
      port_conf <- conf_at r ;;
      forM_ (dict_items port_conf) (fun av =>
        update_conf a (dict_setdefault (fst av) (snd av)))
  | None => set_entry (AInt port_num) (AInt port_num, r)
  end.

(** Body of the loop over the range specifications. *)
Definition port_range_conf (x : addr * (string * conf)) : M PortConfs unit :=
  let '(r, (spec, _)) := x in
  port_conf <- conf_at r ;;
  (if dict_mem (AStr "number") port_conf
   then update_conf r (dict_del (AStr "number"))
   else ret tt) ;;
  nums <- lift_result (expand_port_range spec) ;;
  forM_ (set_iter nums) (range_port r).

(** The loop over the range specifications (lines 124-147); the
    configuration of the [j]-th one is at address [n + j]. *)
Definition port_ranges (n : nat) (port_ranges_conf : list (string * conf))
    : M PortConfs unit :=
  forM_ (zip (seq n (length port_ranges_conf)) port_ranges_conf)
        port_range_conf.

(** Lines 117-147. *)
Definition expand_ports (ports_conf : dict conf)
    (port_ranges_conf : list (string * conf)) : result PortConfs :=
  match (individual_ports ports_conf ;;
         port_ranges (length ports_conf) port_ranges_conf)
          (initial_port_confs ports_conf port_ranges_conf) with
  | (Ok _, st) => Ok st
  | (Raise e, _) => Raise e
  end.
End Expander.

(** ** The resolution run: [_dp_parser_v2] and its closures *)

Section Resolution.
(** State private to the collaborator classes (what the two finalization
    operations compute and keep inside the switches). *)
Variable E : Type.

(** [faucet.valve_of.MIN_VID] and [MAX_VID]. *)
Variables MIN_VID MAX_VID : Z.

(** The order in which a [for] loop visits a [set] of integers. *)
Variable set_iter : gset Z -> list Z.

(** The state of one run: the VLAN objects, by address; [vid_dp], the
    names of the switches that attach a VLAN of each id; the collaborators'
    private state. *)
Record World := {
  heap : list VLAN;
  vid_dp : dict (gset string);
  ext : E
}.

(** [dp.sanity_check()], [dp.finalize_config(dps)] and
    [dp.resolve_stack_topology(dps)]: opaque operations of the DP class. *)
Variable sanity_check : DP -> M World unit.
Variable finalize_config : DP -> list DP -> M World unit.
Variable resolve_stack_topology : DP -> list DP -> M World unit.

Definition set_heap (h : list VLAN) (w : World) : World :=
  {| heap := h; vid_dp := vid_dp w; ext := ext w |}.

Definition set_vid_dp (d : dict (gset string)) (w : World) : World :=
  {| heap := heap w; vid_dp := d; ext := ext w |}.

(** Read the VLAN object at an address. *)
Definition deref (a : addr) : M World VLAN :=
  fun w => match heap w !! a with
           | Some v => (Ok v, w)
           | None => (Raise (NoSuchObject a), w)
           end.

(** Construct a VLAN object: it gets the next free address. *)
Definition new_vlan (v : VLAN) : M World addr :=
  fun w => (Ok (length (heap w)), set_heap (heap w ++ [v]) w).

(** Mutate the VLAN object at an address in place. *)
Definition update_vlan (a : addr) (f : VLAN -> VLAN) : M World unit :=
  modify (fun w => set_heap (alter f a (heap w)) w).

(** [vlan_ident == str(vlan.vid)] for the VLAN object at [a]. *)
Definition vid_matches (h : list VLAN) (vlan_ident : atom) (a : addr) : bool :=
  match h !! a with
  | Some vlan => atom_eq_str vlan_ident (atom_str (vid vlan))
  | None => false
  end.

(** Lines 70-84.  Returns the VLAN object and the switch-local mapping
    [vlans] as the call leaves it. *)
Definition _get_vlan_by_identifier (dp_id : atom) (vlan_ident : pyval)
    (vlans : dict addr) : M World (addr * dict addr) :=
  k <- hashable vlan_ident ;;
  match dict_get k vlans with
  | Some a => ret (a, vlans)
  | None =>
      w <- get ;;
      match List.find (vid_matches (heap w) k) (dict_values vlans) with
      | Some a => ret (a, vlans)
      | None =>
          match int0 (atom_str k) with
          | None => raise (AssertionError (MsgVidInvalid k))
          | Some vid =>
              assert_ ((MIN_VID <=? vid) && (vid <=? MAX_VID))
                      (MsgVidRange k vid) ;;
              a <- new_vlan (VLAN_new (AInt vid) dp_id []) ;;
              let vlans' := dict_setdefault k a vlans in
              ret (default a (dict_get k vlans'), vlans')
          end
      end
  end.

(** [vid_dp[vid]] of a [defaultdict(set)]. *)
Definition vid_dp_get (vid : atom) (d : dict (gset string)) : gset string :=
  default ∅ (dict_get vid d).

(** Lines 86-94. *)
Definition _dp_add_vlan (dp : DP) (vlan : addr) : M World DP :=
  if bool_decide (vlan ∈ dp_vlans dp) then ret dp
  else
    let dp := DP_add_vlan vlan dp in
    v <- deref vlan ;;
    modify (fun w =>
      set_vid_dp (dict_set (vid v)
                    (vid_dp_get (vid v) (vid_dp w) ∪ {[dp_name dp]})
                    (vid_dp w)) w) ;;
    w <- get ;;
    let names := vid_dp_get (vid v) (vid_dp w) in
    (if (1 <? size names)%nat
     then assert_ (negb (truthy (bgp_routerid v))) (MsgBgpShared names)
     else ret tt) ;;
    ret dp.

(** The list comprehension of lines 104-105: resolve each tagged
    reference in turn. *)
Definition resolve_tagged (dp_id : atom) (acc : list addr * dict addr)
    (v_identifier : pyval) : M World (list addr * dict addr) :=
  r <- _get_vlan_by_identifier dp_id v_identifier (snd acc) ;;
  ret (fst acc ++ [fst r], snd r).

(** Lines 99-103: the native VLAN of a port. *)
Definition resolve_native (dp_id : atom) (port : Port) (vlans : dict addr)
    : M World (Port * dict addr) :=
  match native_vlan port with
  | Ident (VAtom ANone) => ret (port, vlans)
  | Ident v_identifier =>
      r <- _get_vlan_by_identifier dp_id v_identifier vlans ;;
      update_vlan (fst r) (VLAN_add_untagged (port_id port)) ;;
      ret (Port_set_native_vlan (fst r) port, snd r)
  | Obj _ => ret (port, vlans)
  end.

(** Lines 104-108: the tagged VLANs of a port. *)
Definition resolve_tagged_vlans (dp_id : atom) (port : Port) (vlans : dict addr)
    : M World (Port * dict addr) :=
  idents <- match tagged_vlans port with
            | Idents v => iter v
            | Objs _ => ret []
            end ;;
  tv <- foldM (resolve_tagged dp_id) ([], vlans) idents ;;
  let port := Port_set_tagged_vlans (fst tv) port in
  forM_ (fst tv) (fun vlan => update_vlan vlan (VLAN_add_tagged (port_id port))) ;;
  ret (port, snd tv).

(** [port.vlans() or port.stack] *)
Definition has_vlan_or_stack (port : Port) : bool :=
  match Port_vlans port with
  | Some (_ :: _) => true
  | _ => truthy (stack port)
  end.

(** Lines 96-110.  Returns the port and the mapping [vlans] as the call
    leaves it. *)
Definition _dp_parse_port (dp_id p_identifier : atom) (port_conf : conf)
    (vlans : dict addr) : M World (Port * dict addr) :=
  let port := Port_new p_identifier port_conf in
  pv <- resolve_native dp_id port vlans ;;
  pv <- resolve_tagged_vlans dp_id (fst pv) (snd pv) ;;
  assert_ (has_vlan_or_stack (fst pv)) (MsgPortNoVlan (fst pv)) ;;
  ret pv.

(** A port that declares no native VLAN, no tagged VLANs and no stacking
    marker. *)
Definition declares_nothing (port : Port) : bool :=
  match native_vlan port, tagged_vlans port with
  | Ident (VAtom ANone), Idents v =>
      match iter_list v with
      | Some [] => negb (truthy (stack port))
      | _ => false
      end
  | _, _ => false
  end.

(** Body of the loop of lines 148-150. *)
Definition add_port (pcs : PortConfs) (dp_id : atom) (acc : DP * dict addr)
    (e : atom * addr) : M World (DP * dict addr) :=
  port_conf <- match confs pcs !! snd e with
               | Some c => ret c
               | None => raise (NoSuchObject (snd e))
               end ;;
  pv <- _dp_parse_port dp_id (fst e) port_conf (snd acc) ;;
  ret (DP_add_port (fst pv) (fst acc), snd pv).

(** Body of the loop of lines 151-153. *)
Definition add_used_vlan (dp : DP) (vlan : addr) : M World DP :=
  v <- deref vlan ;;
  match VLAN_get_ports v with
  | [] => ret dp
  | _ => _dp_add_vlan dp vlan
  end.

(** Lines 112-153. *)
Definition _dp_add_ports (dp : DP) (dp_conf : DpConf) (dp_id : atom)
    (vlans : dict addr) : M World DP :=
  let ports_conf := default [] (interfaces dp_conf) in
  let port_ranges_conf := default [] (interface_ranges dp_conf) in
  pcs <- lift_result (expand_ports set_iter ports_conf port_ranges_conf) ;;
  dv <- foldM (add_port pcs dp_id) (dp, vlans)
              (dict_values (port_num_to_port_conf pcs)) ;;
  foldM add_used_vlan (fst dv) (dict_values (snd dv)).

(** Lines 160-162: a fresh VLAN object per top-level declaration. *)
Definition declare_vlan (dp_id : atom) (vlans : dict addr)
    (x : atom * conf) : M World (dict addr) :=
  a <- new_vlan (VLAN_new (fst x) dp_id (snd x)) ;;
  ret (dict_set (fst x) a vlans).

(** Body of the loop of lines 155-174: assemble one switch. *)
Definition assemble_dp (acls_conf meters_conf routers_conf vlans_conf : dict conf)
    (dps : list DP) (x : atom * DpConf) : M World (list DP) :=
  let identifier := fst x in
  let dp_conf := snd x in
  let dp := DP_new identifier dp_conf in
  sanity_check dp ;;
  let dp_id := dp_id dp in
  vlans <- foldM (declare_vlan dp_id) [] (dict_items vlans_conf) ;;
  let acls := (fun ic => (fst ic, {| acl_id := fst ic; acl_conf := snd ic |}))
                <$> dict_items acls_conf in
  let dp := foldl (fun dp ic =>
               DP_add_router (fst ic) {| router_id := fst ic; router_conf := snd ic |} dp)
               dp (dict_items routers_conf) in
  let dp := foldl (fun dp ic =>
               DP_set_meter (fst ic) {| meter_id := fst ic; meter_conf := snd ic |} dp)
               dp (dict_items meters_conf) in
  dp <- _dp_add_ports dp dp_conf dp_id vlans ;;
  let dp := foldl (fun dp ia => DP_add_acl (fst ia) (snd ia) dp) dp acls in
  ret (dps ++ [dp]).

(** The calls made on the collaborators by the two final passes. *)
Inductive call :=
| FinalizeConfig (dp : DP)
| ResolveStackTopology (dp : DP).

(** A run together with the record of those calls. *)
Record Run := {
  world : World;
  calls : list call
}.

Definition in_world {A} (m : M World A) : M Run A :=
  zoom world (fun w r => {| world := w; calls := calls r |}) m.

Definition log (c : call) : M Run unit :=
  modify (fun r => {| world := world r; calls := calls r ++ [c] |}).

(** Lines 65-181. *)
Definition _dp_parser_v2 (acls_conf : dict conf) (dps_conf : dict DpConf)
    (meters_conf routers_conf vlans_conf : dict conf) : M Run (list DP) :=
  in_world (modify (set_vid_dp [])) ;;
  dps <- in_world (foldM (assemble_dp acls_conf meters_conf routers_conf vlans_conf)
                         [] (dict_items dps_conf)) ;;
  forM_ dps (fun dp =>
    log (FinalizeConfig dp) ;; in_world (finalize_config dp dps)) ;;
  forM_ dps (fun dp =>
    log (ResolveStackTopology dp) ;; in_world (resolve_stack_topology dp dps)) ;;
  ret dps.

(** What [config_parser_util] returns for a configuration source:
    [read_config], [dp_config_path], and [dp_include] with the hashes and
    top-level sections it fills in. *)
Record ConfigFile := {
  read_config : pyval;
  dp_config_path : string;
  dp_include : bool;
  included_hashes : list (string * string);
  included_confs : TopConfs
}.

(** Lines 184-206. *)
Definition _config_parser_v2 (config_file : ConfigFile)
    : M Run (list (string * string) * option (list DP)) :=
  let config_path := dp_config_path config_file in
  let config_hashes := included_hashes config_file in
  let top_confs := included_confs config_file in
  if negb (dp_include config_file) then
    raise (AssertionError (MsgLoadError config_path))
  else match tc_dps top_confs with
       | [] => raise (AssertionError (MsgNoDPs config_path))
       | _ =>
           dps <- _dp_parser_v2 (tc_acls top_confs) (tc_dps top_confs)
                    (tc_meters top_confs) (tc_routers top_confs)
                    (tc_vlans top_confs) ;;
           ret (config_hashes, Some dps)
       end.

(** [try: ... except AssertionError as err: raise InvalidConfigError(err)] *)
Definition except_AssertionError {S A} (m : M S A) : M S A :=
  fun s => match m s with
           | (Raise (AssertionError err), s') => (Raise (InvalidConfigError err), s')
           | r => r
           end.

(** [version == 2] *)
Definition is_version_2 (version : pyval) : bool :=
  match version with
  | VAtom a => atom_eqb a (AInt 2)
  | _ => false
  end.

(** Lines 46-63. *)
Definition dp_parser (config_file : ConfigFile)
    : M Run (list (string * string) * list DP) :=
  let conf := read_config config_file in
  except_AssertionError (
    assert_ (match conf with VAtom ANone => false | _ => true end)
            MsgConfigEmpty ;;
    d <- match conf with
         | VDict d => ret d
         | _ => raise (AssertionError MsgConfigSyntax)
         end ;;
    let version := default (VAtom (AInt 2)) (dict_get (AStr "version") d) in
    assert_ (is_version_2 version) MsgVersion ;;
    r <- _config_parser_v2 config_file ;;
    match snd r with
    | Some dps => ret (fst r, dps)
    | None => raise (AssertionError MsgDpsUndefined)
    end).

(** The declared schema version of a document: the value under its
    [version] key. *)
Definition declared_version (cf : ConfigFile) : option pyval :=
  match read_config cf with
  | VDict d => dict_get (AStr "version") d
  | _ => None
  end.

(** A document with its [version] key set. *)
Definition with_version (v : pyval) (cf : ConfigFile) : ConfigFile :=
  {| read_config := match read_config cf with
                    | VDict d => VDict (dict_set (AStr "version") v d)
                    | x => x
                    end;
     dp_config_path := dp_config_path cf;
     dp_include := dp_include cf;
     included_hashes := included_hashes cf;
     included_confs := included_confs cf |}.

(** What [dp_parser] does once the version is accepted (lines 57-63). *)
Definition after_version_check (cf : ConfigFile)
    : M Run (list (string * string) * list DP) :=
  except_AssertionError (
    r <- _config_parser_v2 cf ;;
    match snd r with
    | Some dps => ret (fst r, dps)
    | None => raise (AssertionError MsgDpsUndefined)
    end).
End Resolution.

Arguments heap {E} _.
Arguments vid_dp {E} _.
Arguments ext {E} _.
Arguments world {E} _.
Arguments calls {E} _.

(** ** A closed instance

    Collaborators that accept every switch and keep no state, the VLAN-id
    range of [faucet.valve_of] (1 to 4095), and sets visited in the order of
    [elements]. *)

Module Closed.
Definition E := unit.
Definition MIN_VID : Z := 1.
Definition MAX_VID : Z := 4095.
Definition set_iter : gset Z -> list Z := elements.
Definition sanity_check (_ : DP) : M (World E) unit := ret tt.
Definition finalize_config (_ : DP) (_ : list DP) : M (World E) unit := ret tt.
Definition resolve_stack_topology (_ : DP) (_ : list DP) : M (World E) unit :=
  ret tt.

Definition world0 : World E := {| heap := []; vid_dp := []; ext := tt |}.
Definition run0 : Run E := {| world := world0; calls := [] |}.

Definition get_vlan := _get_vlan_by_identifier E MIN_VID MAX_VID.
Definition parse_port := _dp_parse_port E MIN_VID MAX_VID.
Definition dp_parser_v2 :=
  _dp_parser_v2 E MIN_VID MAX_VID set_iter sanity_check finalize_config
    resolve_stack_topology.
Definition config_parser :=
  _config_parser_v2 E MIN_VID MAX_VID set_iter sanity_check finalize_config
    resolve_stack_topology.
Definition parser :=
  dp_parser E MIN_VID MAX_VID set_iter sanity_check finalize_config
    resolve_stack_topology.

(** A switch with one port, whose native VLAN is given by name. *)
Definition one_port_switch (vlan : string) : DpConf :=
  {| dp_fields := [];
     interfaces := Some [(AInt 1, [(AStr "native_vlan", VAtom (AStr vlan))])];
     interface_ranges := None |}.

(** Two names for VLAN id 100; only [b] declares a routing speaker. *)
Definition two_names : dict conf :=
  [(AStr "a", [(AStr "vid", VAtom (AInt 100))]);
   (AStr "b", [(AStr "vid", VAtom (AInt 100));
               (AStr "bgp_routerid", VAtom (AStr "1.1.1.1"))])].

Definition document (version : list (atom * pyval)) (dps : dict DpConf)
    : ConfigFile :=
  {| read_config := VDict (version ++ [(AStr "dps", VDict [])]);
     dp_config_path := "faucet.yaml";
     dp_include := true;
     included_hashes := [];
     included_confs := {| tc_acls := []; tc_dps := dps; tc_meters := [];
                          tc_routers := []; tc_vlans := two_names |} |}.

(** Two VLAN objects of id 100 in the store: the first without, the second
    with a routing speaker. *)
Definition plain_and_speaker : World E :=
  {| heap := [VLAN_new (AStr "a") (AInt 1) [(AStr "vid", VAtom (AInt 100))];
              VLAN_new (AStr "b") (AInt 2)
                [(AStr "vid", VAtom (AInt 100));
                 (AStr "bgp_routerid", VAtom (AStr "1.1.1.1"))]];
     vid_dp := [];
     ext := tt |}.

(** Port 5 with field [F] set to 1, under the range "1-9" with [F] set to
    2 and [G] set to 3: port 5 keeps [F] and gains [G]. *)
Definition port_5 : dict conf := [(AInt 5, [(AStr "F", VAtom (AInt 1))])].
Definition range_1_9 : list (string * conf) :=
  [("1-9"%string, [(AStr "F", VAtom (AInt 2)); (AStr "G", VAtom (AInt 3))])].
Definition port_5_declared : PortConfs :=
  Eval vm_compute in
    (individual_ports port_5 (initial_port_confs port_5 range_1_9)).2.
Definition port_5_resolved : PortConfs :=
  Eval vm_compute in
    match expand_ports set_iter port_5 range_1_9 with
    | Ok st => st
    | Raise _ => port_5_declared
    end.
End Closed.

(** ** The aggregation API and the watcher parser

    [get_config_for_api] (lines 209-218) and [watcher_parser] with
    [_watcher_parser_v2] (lines 221-250) look values up in containers they
    have not checked, so they can raise the lookup errors of Python's
    containers besides the exceptions of the parser. *)

Inductive error :=
| Exn (e : exn)                 (* an exception of the parser *)
| KeyError (key : atom)
| IndexError
| AttributeError (name : string).

Inductive outcome (A : Type) :=
| Returns (a : A)
| Raises (e : error).
Arguments Returns {A} a.
Arguments Raises {A} e.

(** [for x in l: acc = body(acc, x)] for a body that returns or raises. *)
Fixpoint fold_outcome {A B} (body : A -> B -> outcome A) (acc : A) (l : list B)
    : outcome A :=
  match l with
  | [] => Returns acc
  | x :: l' =>
      match body acc x with
      | Returns acc' => fold_outcome body acc' l'
      | Raises e => Raises e
      end
  end.

(** One element of the sequence given to [dict.update]: an iterable of
    exactly two items, the first of which is hashable. *)
Definition update_pair (x : pyval) : outcome (atom * pyval) :=
  match iter_list x with
  | Some [k; v] =>
      match k with
      | VAtom a => Returns (a, v)
      | _ => Raises (Exn (TypeError "unhashable type"))
      end
  | Some _ =>
      Raises (Exn (ValueError "dictionary update sequence element has length other than 2"))
  | None =>
      Raises (Exn (TypeError "cannot convert dictionary update sequence element to a sequence"))
  end.

(** [d.update(other)] for a mapping [other]. *)
Definition update_from {V} (other d : dict V) : dict V :=
  foldl (fun d kv => dict_set (fst kv) (snd kv) d) d other.

(** [d.update(other)]: [other] is a mapping, or an iterable of key-value
    pairs. *)
Definition dict_update (other : pyval) (d : conf) : outcome conf :=
  match other with
  | VDict o => Returns (update_from o d)
  | _ =>
      match iter_list other with
      | Some l =>
          fold_outcome (fun d x =>
                          match update_pair x with
                          | Returns kv => Returns (dict_set (fst kv) (snd kv) d)
                          | Raises e => Raises e
                          end) d l
      | None => Raises (Exn (TypeError "object is not iterable"))
      end
  end.

(** The position of index [i] in a sequence of length [n]; a negative index
    counts from the end. *)
Definition position (i : Z) (n : nat) : option nat :=
  if (0 <=? i) && (i <? Z.of_nat n) then Some (Z.to_nat i)
  else if (- Z.of_nat n <=? i) && (i <? 0) then Some (Z.to_nat (Z.of_nat n + i))
  else None.

(** An object used as an index: an [int], or a [bool]. *)
Definition as_index (key : pyval) : option Z :=
  match key with
  | VAtom (AInt i) => Some i
  | VAtom (ABool b) => Some (Z.b2z b)
  | _ => None
  end.

Definition sequence_item (l : list pyval) (key : pyval) (what : string)
    : outcome pyval :=
  match as_index key with
  | Some i =>
      match position i (length l) with
      | Some n =>
          match l !! n with
          | Some x => Returns x
          | None => Raises IndexError
          end
      | None => Raises IndexError
      end
  | None => Raises (Exn (TypeError what))
  end.

(** [v[key]] *)
Definition subscript (v key : pyval) : outcome pyval :=
  match v with
  | VDict d =>
      match key with
      | VAtom k =>
          match dict_get k d with
          | Some x => Returns x
          | None => Raises (KeyError k)
          end
      | _ => Raises (Exn (TypeError "unhashable type"))
      end
  | VList l => sequence_item l key "list indices must be integers or slices"
  | VAtom (AStr s) => sequence_item (chars s) key "string indices must be integers"
  | VAtom _ => Raises (Exn (TypeError "object is not subscriptable"))
  end.

(** [v.pop(key)] for a string [key]: the value, and [v] as the call leaves
    it. *)
Definition pop (v : pyval) (key : string) : outcome (pyval * pyval) :=
  match v with
  | VDict d =>
      match dict_get (AStr key) d with
      | Some x => Returns (x, VDict (dict_del (AStr key) d))
      | None => Raises (KeyError (AStr key))
      end
  | VList _ => Raises (Exn (TypeError "object cannot be interpreted as an integer"))
  | VAtom _ => Raises (AttributeError "pop")
  end.

(** [list(v.items())] *)
Definition items (v : pyval) : outcome (list (atom * pyval)) :=
  match v with
  | VDict d => Returns (dict_items d)
  | _ => Raises (AttributeError "items")
  end.

(** [for x in v], with the elements taken first. *)
Definition iterate (v : pyval) : outcome (list pyval) :=
  match iter_list v with
  | Some l => Returns l
  | None => Raises (Exn (TypeError "object is not iterable"))
  end.

(** *** [get_config_for_api] *)

Definition V2_TOP_CONFS : list string :=
  ["acls"; "dps"; "meters"; "routers"; "vlans"]%string.

Section Api.

(** The valves are collaborators.  Modelled from the spec: a valve exports
    the configuration of its switch as a mapping, [get_config_dict]. *)
Variable Valve : Type.
Variable get_config_dict : Valve -> conf.

(** Lines 216-217, for one valve and one section. *)
Definition merge_section (valve_conf : conf) (config : dict conf) (i : string)
    : outcome (dict conf) :=
  match dict_get (AStr i) valve_conf with
  | Some other =>
      match dict_get (AStr i) config with
      | Some section =>
          match dict_update other section with
          | Returns section' => Returns (dict_set (AStr i) section' config)
          | Raises e => Raises e
          end
      | None => Raises (KeyError (AStr i))
      end
  | None => Returns config
  end.

(** Lines 209-218. *)
Definition get_config_for_api (valves : dict Valve) : outcome (dict conf) :=
  let config := foldl (fun config i => dict_set (AStr i) [] config) []
                      V2_TOP_CONFS in
  fold_outcome (fun config valve =>
                  let valve_conf := get_config_dict valve in
                  fold_outcome (merge_section valve_conf) config V2_TOP_CONFS)
               config (dict_values valves).
End Api.

(** *** [watcher_parser] *)

(** A computation over a mutable state that returns or raises an [error]. *)
Definition W (S A : Type) : Type := S -> outcome A * S.

Definition wret {S A} (a : A) : W S A := fun s => (Returns a, s).

Definition wbind {S A B} (m : W S A) (k : A -> W S B) : W S B :=
  fun s => match m s with
           | (Returns a, s') => k a s'
           | (Raises e, s') => (Raises e, s')
           end.

Declare Scope w_scope.
Delimit Scope w_scope with w.
Notation "x <- c1 ;; c2" := (wbind c1 (fun x => c2))
  (at level 100, c1 at next level, right associativity) : w_scope.
Notation "c1 ;; c2" := (wbind c1 (fun _ => c2))
  (at level 100, right associativity) : w_scope.

Definition lift_outcome {S A} (r : outcome A) : W S A := fun s => (r, s).

Fixpoint wfoldM {S A B} (body : A -> B -> W S A) (acc : A) (l : list B)
    : W S A :=
  match l with
  | [] => wret acc
  | x :: l' => wbind (body acc x) (fun acc' => wfoldM body acc' l')
  end.

(** Modelled from the spec: the WatcherConf class ([faucet.watcher_conf]) is
    not among the sources.  A watcher has the name and the configuration it
    is declared with, names its data sink by the [db] key of its
    configuration, and is bound to the configuration of a sink by [add_db]
    and to a switch by [add_dp]. *)
Record WatcherConf := {
  watcher_name : atom;
  watcher_conf : pyval;
  watcher_db : pyval;
  watcher_dbc : option pyval;
  watcher_dp : option DP
}.

Definition WatcherConf_new (name : atom) (dictionary : pyval) : WatcherConf :=
  {| watcher_name := name;
     watcher_conf := dictionary;
     watcher_db := match dictionary with
                   | VDict d => conf_get "db" d
                   | _ => VAtom ANone
                   end;
     watcher_dbc := None;
     watcher_dp := None |}.

Definition WatcherConf_add_db (db_conf : pyval) (w : WatcherConf) : WatcherConf :=
  {| watcher_name := watcher_name w; watcher_conf := watcher_conf w;
     watcher_db := watcher_db w; watcher_dbc := Some db_conf;
     watcher_dp := watcher_dp w |}.

Definition WatcherConf_add_dp (dp : DP) (w : WatcherConf) : WatcherConf :=
  {| watcher_name := watcher_name w; watcher_conf := watcher_conf w;
     watcher_db := watcher_db w; watcher_dbc := watcher_dbc w;
     watcher_dp := Some dp |}.

Section Watcher.
Variable E : Type.
Variables MIN_VID MAX_VID : Z.
Variable set_iter : gset Z -> list Z.
Variable sanity_check : DP -> M (World E) unit.
Variable finalize_config : DP -> list DP -> M (World E) unit.
Variable resolve_stack_topology : DP -> list DP -> M (World E) unit.

(** What [config_parser_util] returns for the configuration source named by
    a value. *)
Variable load : pyval -> ConfigFile.

Local Open Scope w_scope.

(** The state of a watcher run: that of the parser runs, and the names
    passed to [logger.error]. *)
Record WatcherRun := {
  parser_run : Run E;
  error_log : list atom
}.

Definition in_parser {A} (m : M (Run E) A) : W WatcherRun A :=
  fun s => match m (parser_run s) with
           | (Ok a, r) =>
               (Returns a, {| parser_run := r; error_log := error_log s |})
           | (Raise e, r) =>
               (Raises (Exn e), {| parser_run := r; error_log := error_log s |})
           end.

Definition log_error (dp_name : atom) : W WatcherRun unit :=
  fun s => (Returns tt, {| parser_run := parser_run s;
                           error_log := error_log s ++ [dp_name] |}).

(** Body of the loop of lines 232-236. *)
Definition load_dps (dps : dict DP) (faucet_file : pyval)
    : W WatcherRun (dict DP) :=
  r <- in_parser (dp_parser E MIN_VID MAX_VID set_iter sanity_check
                    finalize_config resolve_stack_topology (load faucet_file)) ;;
  let dp_list := snd r in
  match dp_list with
  | [] => wret dps
  | _ => wret (foldl (fun dps dp => dict_set (AStr (dp_name dp)) dp dps)
                     dps dp_list)
  end.

(** Body of the loop of lines 241-249. *)
Definition watch_dp (name : atom) (dictionary dbs : pyval) (dps : dict DP)
    (result : list WatcherConf) (dp_name : pyval)
    : W WatcherRun (list WatcherConf) :=
  k <- lift_outcome (match dp_name with
                     | VAtom a => Returns a
                     | _ => Raises (Exn (TypeError "unhashable type"))
                     end) ;;
  match dict_get k dps with
  | None => log_error k ;; wret result
  | Some dp =>
      let watcher := WatcherConf_new name dictionary in
      db <- lift_outcome (subscript dbs (watcher_db watcher)) ;;
      let watcher := WatcherConf_add_db db watcher in
      let watcher := WatcherConf_add_dp dp watcher in
      wret (result ++ [watcher])
  end.

(** Body of the loop of lines 240-249. *)
Definition watch (dbs : pyval) (dps : dict DP) (result : list WatcherConf)
    (x : atom * pyval) : W WatcherRun (list WatcherConf) :=
  let name := fst x in
  let dictionary := snd x in
  listed <- lift_outcome (subscript dictionary (VAtom (AStr "dps"))) ;;
  dp_names <- lift_outcome (iterate listed) ;;
  wfoldM (watch_dp name dictionary dbs dps) result dp_names.

(** Lines 226-250. *)
Definition _watcher_parser_v2 (conf : pyval) : W WatcherRun (list WatcherConf) :=
  faucet_configs <- lift_outcome (subscript conf (VAtom (AStr "faucet_configs"))) ;;
  faucet_files <- lift_outcome (iterate faucet_configs) ;;
  dps <- wfoldM load_dps [] faucet_files ;;
  popped <- lift_outcome (pop conf "dbs") ;;
  let dbs := fst popped in
  let conf := snd popped in
  watchers <- lift_outcome (subscript conf (VAtom (AStr "watchers"))) ;;
  watcher_items <- lift_outcome (items watchers) ;;
  wfoldM (watch dbs dps) [] watcher_items.

(** Lines 221-223. *)
Definition watcher_parser (config_file : pyval) : W WatcherRun (list WatcherConf) :=
  let conf := read_config (load config_file) in
  _watcher_parser_v2 conf.
End Watcher.

Arguments parser_run {E} _.
Arguments error_log {E} _.

(** ** A closed instance of the API and the watcher parser

    Valves given by the configuration they export; one readable
    configuration source, [faucet.yaml], which declares the switches [sw1]
    and [sw2]: any other source reads as an empty document. *)

Module ClosedWatcher.
Import Closed.

Definition Valve := conf.
Definition get_config_dict (valve : Valve) : conf := valve.

Definition valve_1 : Valve :=
  [(AStr "dps", VDict [(AStr "sw1", VDict [(AStr "dp_id", VAtom (AInt 1))])]);
   (AStr "vlans", VDict [(AStr "office", VDict [(AStr "vid", VAtom (AInt 100))])])].
Definition valve_2 : Valve :=
  [(AStr "dps", VDict [(AStr "sw2", VDict [(AStr "dp_id", VAtom (AInt 2))])]);
   (AStr "version", VAtom (AInt 2));
   (AStr "vlans", VDict [(AStr "office", VDict [(AStr "vid", VAtom (AInt 200))])])].
Definition valves : dict Valve := [(AInt 1, valve_1); (AInt 2, valve_2)].

Definition load (file : pyval) : ConfigFile :=
  match file with
  | VAtom (AStr "faucet.yaml") =>
      document [] [(AStr "sw1", one_port_switch "b");
                   (AStr "sw2", one_port_switch "a")]
  | _ =>
      {| read_config := VAtom ANone; dp_config_path := "";
         dp_include := false; included_hashes := [];
         included_confs := {| tc_acls := []; tc_dps := []; tc_meters := [];
                              tc_routers := []; tc_vlans := [] |} |}
  end.

Definition watcher_parser_v2 :=
  _watcher_parser_v2 E MIN_VID MAX_VID set_iter sanity_check finalize_config
    resolve_stack_topology load.

(** A watcher on [sw1] and on a switch that is not configured. *)
Definition gauge (faucet_configs : list pyval) : conf :=
  [(AStr "faucet_configs", VList faucet_configs);
   (AStr "watchers",
    VDict [(AStr "port_stats",
            VDict [(AStr "dps", VList [VAtom (AStr "sw1"); VAtom (AStr "sw9")]);
                   (AStr "db", VAtom (AStr "prometheus"))])]);
   (AStr "dbs",
    VDict [(AStr "prometheus", VDict [(AStr "type", VAtom (AStr "prometheus"))])])].

Definition watch0 : WatcherRun E := {| parser_run := run0; error_log := [] |}.
End ClosedWatcher.

(** ** An instance whose collaborators record their invocations

    The state of the collaborators is the sequence of the operations that
    were run on them: [finalize_config] and [resolve_stack_topology] append
    themselves to it, so that what the run did to the collaborators can be
    read off the state it leaves. *)

Module Recording.
Definition E := list call.

Definition record (c : call) : M (World E) unit :=
  modify (fun w => {| heap := heap w; vid_dp := vid_dp w; ext := ext w ++ [c] |}).

Definition sanity_check (_ : DP) : M (World E) unit := ret tt.
Definition finalize_config (dp : DP) (_ : list DP) : M (World E) unit :=
  record (FinalizeConfig dp).
Definition resolve_stack_topology (dp : DP) (_ : list DP) : M (World E) unit :=
  record (ResolveStackTopology dp).

Definition run0 : Run E :=
  {| world := {| heap := []; vid_dp := []; ext := [] |}; calls := [] |}.

Definition dp_parser_v2 :=
  _dp_parser_v2 E Closed.MIN_VID Closed.MAX_VID Closed.set_iter sanity_check
    finalize_config resolve_stack_topology.
End Recording.

(** ** Vocabulary of the statements *)

(** The operation [op] is invoked on the switches of [l], one after the
    other, from the state [s]: every invocation returns, except possibly
    the last one, which may raise; [res] is how the pass ends and [s'] the
    state the invocations leave. *)
Inductive invoked {S} (op : DP -> M S unit)
    : list DP -> S -> result unit -> S -> Prop :=
| invoked_nil s : invoked op [] s (Ok tt) s
| invoked_raise dp s e s' :
    op dp s = (Raise e, s') -> invoked op [dp] s (Raise e) s'
| invoked_cons dp l s s1 res s' :
    op dp s = (Ok tt, s1) -> invoked op l s1 res s' ->
    invoked op (dp :: l) s res s'.


(** An exception other than the port-configuration error. *)
Definition not_port_error (e : exn) : Prop :=
  forall p, e <> AssertionError (MsgPortNoVlan p).

(** A string of digits. *)
Fixpoint all_digits (s : string) : bool :=
  match s with
  | EmptyString => true
  | String c s' => is_digit c && all_digits s'
  end.

(** The [start-end] tokens of a range specification. *)
Definition range_tokens (spec : string) : list string :=
  findall match_range spec.

(** After the first loop: the store is untouched, and every entry of
    [port_num_to_port_conf] is a declared port with its own
    configuration. *)
Definition individual_entries (ports_conf : dict conf) (st0 st : PortConfs)
    : Prop :=
  confs st = confs st0
  /\ forall k port_ident a,
       dict_get k (port_num_to_port_conf st) = Some (port_ident, a) ->
       exists c, ports_conf !! a = Some (port_ident, c).

(** What the second loop keeps true of one individually declared port:
    its entry, and its configuration [c0] as a prefix of the resolved
    one, which only adds keys that [c0] does not have. *)
Definition keeps_individual (port_num port_ident : atom) (a : addr)
    (c0 : conf) (st : PortConfs) : Prop :=
  dict_get port_num (port_num_to_port_conf st) = Some (port_ident, a)
  /\ exists extra,
       confs st !! a = Some (c0 ++ extra)
       /\ forall k v, (k, v) ∈ extra -> dict_get k c0 = None.

(** ** Vocabulary of the further statements *)

(** Every address in [vlans] is that of an object in the store. *)
Definition vlans_valid {E} (vlans : dict addr) (w : World E) : Prop :=
  forall a, a ∈ dict_values vlans -> (a < length (heap w))%nat.

(** An entry of [port_num_to_port_conf] for an individually declared port:
    the port's identifier and the address of its own configuration. *)
Definition declared_entry (ports_conf : dict conf) (e : atom * (atom * addr))
    : Prop :=
  exists c, ports_conf !! e.2.2 = Some (e.2.1, c).

(** An entry made for a number of the expansion of the [j]-th range: the
    number is key and identifier, the configuration is that of the range. *)
Definition range_entry (ports_conf : dict conf)
    (port_ranges_conf : list (string * conf)) (e : atom * (atom * addr))
    : Prop :=
  exists j spec c nums z,
    port_ranges_conf !! j = Some (spec, c)
    /\ expand_port_range spec = Ok nums /\ z ∈ nums
    /\ e = (AInt z, (AInt z, (length ports_conf + j)%nat)).

(** The store has an object for each configuration mapping of the two
    sections, and every entry is accounted for. *)
Definition entries_accounted (ports_conf : dict conf)
    (port_ranges_conf : list (string * conf)) (st : PortConfs) : Prop :=
  length (confs st) = (length ports_conf + length port_ranges_conf)%nat
  /\ forall e, e ∈ port_num_to_port_conf st ->
       declared_entry ports_conf e \/ range_entry ports_conf port_ranges_conf e.

(** The port number [z] has an entry. *)
Definition has_entry (z : Z) (st : PortConfs) : Prop :=
  is_Some (dict_get (AInt z) (port_num_to_port_conf st)).

(** A VLAN object as it may be found later: same id, owner and routing
    marker, and at least the ports it had, in the same order. *)
Definition vlan_grows (v v' : VLAN) : Prop :=
  vid v' = vid v /\ vlan_dp_id v' = vlan_dp_id v
  /\ bgp_routerid v' = bgp_routerid v
  /\ tagged v `prefix_of` tagged v' /\ untagged v `prefix_of` untagged v'.

(** A store as it may be found later: every object is still there, grown. *)
Definition heap_grows (h h' : list VLAN) : Prop :=
  (length h <= length h')%nat
  /\ forall a v, h !! a = Some v -> exists v', h' !! a = Some v' /\ vlan_grows v v'.

(** The port [p] is a tagged, or an untagged, member of the VLAN at [a]. *)
Definition member_tagged (p : atom) (a : addr) (h : list VLAN) : Prop :=
  exists v, h !! a = Some v /\ p ∈ tagged v.

Definition member_untagged (p : atom) (a : addr) (h : list VLAN) : Prop :=
  exists v, h !! a = Some v /\ p ∈ untagged v.

(** A state of the run as it may be found after port assembly: the store
    has grown, [vid_dp] and the collaborators' state are as they were. *)
Definition world_grows {E} (w w' : World E) : Prop :=
  heap_grows (heap w) (heap w') /\ vid_dp w' = vid_dp w /\ ext w' = ext w.

(** The same switch, up to the ports and VLANs attached to it. *)
Definition same_switch (dp dp' : DP) : Prop :=
  dp_ident dp' = dp_ident dp /\ dp_name dp' = dp_name dp /\ dp_id dp' = dp_id dp
  /\ dp_acls dp' = dp_acls dp /\ dp_routers dp' = dp_routers dp
  /\ dp_meters dp' = dp_meters dp.

(** The VLAN object at [a] has a port. *)
Definition has_ports (a : addr) (h : list VLAN) : Prop :=
  exists v, h !! a = Some v /\ VLAN_get_ports v <> [].

(** The switch assembled for a declaration: its identifier, the name and
    the switch id its configuration gives it, and a router, a meter and an
    ACL for every top-level declaration of one. *)
Definition switch_of (acls_conf meters_conf routers_conf : dict conf)
    (x : atom * DpConf) (dp : DP) : Prop :=
  dp_ident dp = x.1
  /\ dp_name dp = dp_name (DP_new x.1 x.2)
  /\ dp_id dp = dp_id (DP_new x.1 x.2)
  /\ (dp_acls dp).*1 = acls_conf.*1
  /\ (dp_routers dp).*1 = routers_conf.*1
  /\ forall k, is_Some (dict_get k (dp_meters dp)) <-> is_Some (dict_get k meters_conf).

(** ** Vocabulary of the statements on the API and the watcher parser *)

(** A mapping with at most one entry per key. *)
Fixpoint dict_wf {V} (d : dict V) : Prop :=
  match d with
  | [] => True
  | kv :: d' => dict_get kv.1 d' = None /\ dict_wf d'
  end.

(** What a valve exports under the key [k] of the section [i]. *)
Definition exports {Valve} (get_config_dict : Valve -> conf) (i : string)
    (k : atom) (valve : Valve) : option pyval :=
  match dict_get (AStr i) (get_config_dict valve) with
  | Some (VDict o) => dict_get k o
  | _ => None
  end.

(** The top-level sections a valve exports are mappings. *)
Definition exports_mappings {Valve} (get_config_dict : Valve -> conf)
    (valve : Valve) : Prop :=
  forall i x, i ∈ V2_TOP_CONFS ->
    dict_get (AStr i) (get_config_dict valve) = Some x ->
    exists o, x = VDict o /\ dict_wf o.

(** The last of the valves [l] that exports the key [k] of the section [i]
    exports [v] there. *)
Definition last_export {Valve} (get_config_dict : Valve -> conf) (i : string)
    (k : atom) (l : list Valve) (v : pyval) : Prop :=
  exists before valve after,
    l = before ++ valve :: after
    /\ exports get_config_dict i k valve = Some v
    /\ Forall (fun valve' => exports get_config_dict i k valve' = None) after.

(** The switches returned for the listed files, parsed one after the other
    from the state [r]. *)
Inductive parsed {S} (parse : pyval -> M S (list (string * string) * list DP))
    : list pyval -> S -> list DP -> S -> Prop :=
| parsed_nil r : parsed parse [] r [] r
| parsed_cons file files r hashes dp_list r1 dps r2 :
    parse file r = (Ok (hashes, dp_list), r1) ->
    parsed parse files r1 dps r2 ->
    parsed parse (file :: files) r (dp_list ++ dps) r2.

(** [dp] is the last switch of its name in [l]. *)
Definition last_named (dp : DP) (l : list DP) : Prop :=
  exists before after,
    l = before ++ dp :: after
    /\ Forall (fun dp' => dp_name dp' <> dp_name dp) after.

(** The switch names a watcher declaration lists under [dps]. *)
Definition listed_names (dictionary : pyval) : list pyval :=
  match subscript dictionary (VAtom (AStr "dps")) with
  | Returns listed => default [] (iter_list listed)
  | Raises _ => []
  end.

(** The watcher made for the declaration [name]: [dictionary], bound to the
    switch [dp] and to the sink configuration [db]. *)
Definition watcher_of (name : atom) (dictionary : pyval) (dp : DP) (db : pyval)
    : WatcherConf :=
  WatcherConf_add_dp dp (WatcherConf_add_db db (WatcherConf_new name dictionary)).

(** Every address in [vlans] is that of an object created when the store
    had at least [n0] objects. *)
Definition vlans_from (n0 : nat) (vlans : dict addr) : Prop :=
  forall a, a ∈ dict_values vlans -> (n0 <= a)%nat.

(** No VLAN object is attached to two switches of [dps]. *)
Definition no_shared_vlan (dps : list DP) : Prop :=
  forall i j dp_i dp_j a,
    i <> j -> dps !! i = Some dp_i -> dps !! j = Some dp_j ->
    a ∈ dp_vlans dp_i -> a ∉ dp_vlans dp_j.

(** * Properties *)

(** ** Dictionaries, loops and exceptions *)

Lemma dict_get_set_same {V} k (v : V) d :
  atom_eqb k k = true -> dict_get k (dict_set k v d) = Some v.
Proof.
  intros Hk. induction d as [|[k' v'] d IH]; simpl.
  - by rewrite Hk.
  - destruct (atom_eqb k k') eqn:Hkk; simpl; rewrite Hkk; [done|exact IH].
Qed.

Lemma atom_eqb_refl k : atom_eqb k k = true.
Proof.
  destruct k as [|b|z|s]; simpl.
  - reflexivity.
  - by destruct b.
  - apply Z.eqb_refl.
  - apply String.eqb_refl.
Qed.

Lemma dict_get_app_None {V} k (d d' : dict V) :
  dict_get k d = None -> dict_get k (d ++ d') = dict_get k d'.
Proof.
  induction d as [|[k' v'] d IH]; simpl; [done|].
  destruct (atom_eqb k k'); [discriminate|exact IH].
Qed.

Lemma dict_get_app_Some {V} k (d d' : dict V) v :
  dict_get k d = Some v -> dict_get k (d ++ d') = Some v.
Proof.
  induction d as [|[k' v'] d IH]; simpl; [done|].
  destruct (atom_eqb k k'); [done|exact IH].
Qed.

Lemma dict_set_absent {V} k (e : V) d :
  dict_get k d = None -> dict_set k e d = d ++ [(k, e)].
Proof.
  induction d as [|[k' v'] d IH]; simpl; [done|].
  destruct (atom_eqb k k'); [done|]. intros H. by rewrite IH.
Qed.

Lemma dict_get_set_inv {V} k k' (e x : V) d :
  dict_get k (dict_set k' e d) = Some x -> x = e \/ dict_get k d = Some x.
Proof.
  induction d as [|[k0 v0] d IH]; simpl.
  - destruct (atom_eqb k k'); [intros [= <-]; by left|done].
  - destruct (atom_eqb k' k0); simpl; destruct (atom_eqb k k0); auto.
    intros [= <-]. by left.
Qed.

Lemma zip_seq_lookup {A} (l : list A) : forall start i x,
  (i, x) ∈ zip (seq start (length l)) l ->
  (start <= i)%nat /\ l !! (i - start)%nat = Some x.
Proof.
  induction l as [|y l IH]; intros start i x; simpl.
  - by intros ?%elem_of_nil.
  - intros [[= -> ->]|Hin]%elem_of_cons.
    + split; [lia|]. by rewrite Nat.sub_diag.
    + apply IH in Hin as [Hle Hl]. split; [lia|].
      by replace (i - start)%nat with (S (i - S start)) by lia.
Qed.

(** A property of the state that every iteration of a loop keeps is kept
    by the loop, whether it completes or raises. *)
Lemma forM_invariant {S B} (I : S -> Prop) (body : B -> M S unit) l :
  (forall x s res s', x ∈ l -> I s -> body x s = (res, s') -> I s') ->
  forall s res s', I s -> forM_ l body s = (res, s') -> I s'.
Proof.
  induction l as [|x l IH]; intros Hbody s res s' Hs; simpl.
  - by intros [= _ <-].
  - unfold bind. destruct (body x s) as [[[]|e] s1] eqn:Hx.
    + apply IH.
      * intros y t res' t' Hy. apply Hbody. by right.
      * eapply Hbody; [left|done|done].
    + intros [= _ <-]. eapply Hbody; [left|done|done].
Qed.

Lemma except_AssertionError_not_assertion {S A} (m : M S A) s msg :
  (except_AssertionError m s).1 <> Raise (AssertionError msg).
Proof.
  unfold except_AssertionError.
  destruct (m s) as [[a|e] s']; simpl; [discriminate|].
  destruct e; simpl; discriminate.
Qed.

(** ** The top-level dispatcher *)

Section Dispatcher.
Context {E : Type}.
Variables MIN_VID MAX_VID : Z.
Variable set_iter : gset Z -> list Z.
Variable sanity_check : DP -> M (World E) unit.
Variable finalize_config : DP -> list DP -> M (World E) unit.
Variable resolve_stack_topology : DP -> list DP -> M (World E) unit.

Local Abbreviation config_parser :=
  (_config_parser_v2 E MIN_VID MAX_VID set_iter sanity_check
     finalize_config resolve_stack_topology).
Local Abbreviation parser :=
  (dp_parser E MIN_VID MAX_VID set_iter sanity_check
     finalize_config resolve_stack_topology).
Local Abbreviation after_check :=
  (after_version_check E MIN_VID MAX_VID set_iter sanity_check
     finalize_config resolve_stack_topology).

Lemma dp_parser_dict (cf : ConfigFile) d r :
  read_config cf = VDict d ->
  parser cf r =
    match dict_get (AStr "version") d with
    | Some v => if is_version_2 v then after_check cf r
                else (Raise (InvalidConfigError MsgVersion), r)
    | None => after_check cf r
    end.
Proof.
  intros Hd. unfold dp_parser, after_version_check, except_AssertionError.
  rewrite Hd. unfold bind at 1. simpl.
  unfold bind at 1. simpl.
  destruct (dict_get (AStr "version") d) as [v|]; simpl.
  - destruct (is_version_2 v); simpl; reflexivity.
  - reflexivity.
Qed.

Lemma config_parser_no_dps (cf : ConfigFile) r :
  tc_dps (included_confs cf) = [] ->
  config_parser cf r =
    (Raise (AssertionError
              (if dp_include cf then MsgNoDPs (dp_config_path cf)
               else MsgLoadError (dp_config_path cf))), r).
Proof.
  intros H0. unfold _config_parser_v2. rewrite H0.
  destruct (dp_include cf); reflexivity.
Qed.

Lemma after_check_converts (cf : ConfigFile) r r' msg :
  config_parser cf r = (Raise (AssertionError msg), r') ->
  after_check cf r = (Raise (InvalidConfigError msg), r').
Proof.
  intros Hrun. unfold after_version_check, except_AssertionError, bind.
  rewrite Hrun. reflexivity.
Qed.

(** C1: a document whose declared version is not 2 makes [dp_parser] raise
    [InvalidConfigError] with the message of the version assertion; a
    document that declares no switches makes it raise [InvalidConfigError]
    with the message of the assertion that failed (the one on the switches
    when the document is a version-2 mapping that loaded); no switch list
    is returned in either case.  Every [AssertionError] of the pipeline
    leaves [dp_parser] as an [InvalidConfigError] with the same message,
    and [dp_parser] never raises an [AssertionError] itself. *)
Theorem dp_parser_invalid_config (cf : ConfigFile) (r : Run E) :
  (forall v, declared_version cf = Some v -> is_version_2 v = false ->
     parser cf r = (Raise (InvalidConfigError MsgVersion), r))
  /\ (tc_dps (included_confs cf) = [] ->
      (exists msg, parser cf r = (Raise (InvalidConfigError msg), r))
      /\ (forall d, read_config cf = VDict d ->
            default true (is_version_2 <$> dict_get (AStr "version") d) = true ->
            dp_include cf = true ->
            parser cf r =
              (Raise (InvalidConfigError (MsgNoDPs (dp_config_path cf))), r)))
  /\ (forall msg, (parser cf r).1 <> Raise (AssertionError msg))
  /\ (forall d msg r',
        read_config cf = VDict d ->
        default true (is_version_2 <$> dict_get (AStr "version") d) = true ->
        config_parser cf r = (Raise (AssertionError msg), r') ->
        parser cf r = (Raise (InvalidConfigError msg), r')).
Proof.
  split; [|split; [|split]].
  - intros v Hv Hne. unfold declared_version in Hv.
    destruct (read_config cf) as [a|l|d] eqn:Hd; try discriminate.
    rewrite (dp_parser_dict cf d r Hd), Hv, Hne. reflexivity.
  - intros H0.
    pose proof (after_check_converts cf r r _ (config_parser_no_dps cf r H0))
      as Hafter.
    split.
    + destruct (read_config cf) as [a|l|d] eqn:Hd.
      * unfold dp_parser, except_AssertionError. rewrite Hd.
        destruct a; simpl; eauto.
      * unfold dp_parser, except_AssertionError. rewrite Hd. simpl. eauto.
      * rewrite (dp_parser_dict cf d r Hd).
        destruct (dict_get (AStr "version") d) as [v|]; [|eauto].
        destruct (is_version_2 v); eauto.
    + intros d Hd Hv Hinc. rewrite (dp_parser_dict cf d r Hd).
      rewrite Hinc in Hafter.
      destruct (dict_get (AStr "version") d) as [v|]; simpl in Hv;
        [rewrite Hv|]; exact Hafter.
  - intros msg. unfold dp_parser. apply except_AssertionError_not_assertion.
  - intros d msg r' Hd Hv Hrun. rewrite (dp_parser_dict cf d r Hd).
    pose proof (after_check_converts cf r r' msg Hrun) as Hafter.
    destruct (dict_get (AStr "version") d) as [v|]; simpl in Hv;
      [rewrite Hv|]; exact Hafter.
Qed.

(** C9: a mapping without a [version] key passes the version check:
    [dp_parser] goes on to the version-2 pipeline, exactly as it does for
    the same mapping with [version: 2] written out, and returns what the
    pipeline returns. *)
Theorem dp_parser_missing_version (cf : ConfigFile) d (r : Run E) :
  read_config cf = VDict d ->
  dict_get (AStr "version") d = None ->
  parser cf r = after_check cf r
  /\ parser cf r = parser (with_version (VAtom (AInt 2)) cf) r
  /\ (forall hashes dps r',
        config_parser cf r = (Ok (hashes, Some dps), r') ->
        parser cf r = (Ok (hashes, dps), r')).
Proof.
  intros Hd Hv.
  assert (H1 : parser cf r = after_check cf r).
  { by rewrite (dp_parser_dict cf d r Hd), Hv. }
  split; [exact H1|split].
  - rewrite H1.
    rewrite (dp_parser_dict (with_version (VAtom (AInt 2)) cf)
               (dict_set (AStr "version") (VAtom (AInt 2)) d) r).
    + rewrite dict_get_set_same by reflexivity. reflexivity.
    + unfold with_version. simpl. by rewrite Hd.
  - intros hashes dps r' Hrun. rewrite H1.
    unfold after_version_check, except_AssertionError, bind.
    rewrite Hrun. reflexivity.
Qed.
End Dispatcher.

(** ** The identifier resolver *)

Section Resolver.
Context {E : Type}.
Variables MIN_VID MAX_VID : Z.

Local Abbreviation get_vlan := (_get_vlan_by_identifier E MIN_VID MAX_VID).

Lemma find_vid_matches_None (h : list VLAN) k (l : list addr) :
  (forall a v, a ∈ l -> h !! a = Some v ->
               atom_eq_str k (atom_str (vid v)) = false) ->
  List.find (vid_matches h k) l = None.
Proof.
  induction l as [|a l IH]; intros Hno; simpl; [done|].
  assert (Ha : vid_matches h k a = false).
  { unfold vid_matches. destruct (h !! a) as [v|] eqn:Hv; [|done].
    apply (Hno a v); [left|done]. }
  rewrite Ha. apply IH. intros a' v' Hin. apply Hno. by right.
Qed.

(** A reference found among the keys of [vlans] resolves to the object
    stored there; nothing is created. *)
Lemma get_vlan_by_name dp_id k (vlans : dict addr) a (w : World E) :
  dict_get k vlans = Some a ->
  get_vlan dp_id (VAtom k) vlans w = (Ok (a, vlans), w).
Proof.
  intros Hk. unfold _get_vlan_by_identifier, bind, hashable, ret. simpl.
  by rewrite Hk.
Qed.

(** A reference that is no key and no id, and is a literal in range:
    one object is created and registered under the reference. *)
Lemma get_vlan_fresh dp_id k n (vlans : dict addr) (w : World E) :
  dict_get k vlans = None ->
  (forall a v, a ∈ dict_values vlans -> heap w !! a = Some v ->
               atom_eq_str k (atom_str (vid v)) = false) ->
  int0 (atom_str k) = Some n ->
  MIN_VID <= n <= MAX_VID ->
  get_vlan dp_id (VAtom k) vlans w =
    (Ok (length (heap w), vlans ++ [(k, length (heap w))]),
     set_heap E (heap w ++ [VLAN_new (AInt n) dp_id []]) w).
Proof.
  intros Hk Hid Hint [Hlo Hhi].
  unfold _get_vlan_by_identifier, bind, hashable, ret, get. simpl.
  rewrite Hk, (find_vid_matches_None _ _ _ Hid), Hint.
  unfold assert_.
  assert (Hr : (MIN_VID <=? n) && (n <=? MAX_VID) = true).
  { apply andb_true_intro. split; by apply Z.leb_le. }
  rewrite Hr. unfold ret, new_vlan, dict_setdefault, dict_mem.
  rewrite Hk, (dict_get_app_None _ _ _ Hk). simpl.
  by rewrite atom_eqb_refl.
Qed.

(** C3: on a switch with no VLAN named "100" and no VLAN of id 100 (ids
    are compared by their string form), resolving "100" creates exactly
    one VLAN object, of id 100, and registers it under "100"; resolving
    "100" again returns the same object, and creates nothing. *)
Theorem resolve_100_twice dp_id (vlans : dict addr) (w : World E) :
  MIN_VID <= 100 <= MAX_VID ->
  dict_get (AStr "100") vlans = None ->
  (forall a v, a ∈ dict_values vlans -> heap w !! a = Some v ->
               atom_str (vid v) <> "100"%string) ->
  let a := length (heap w) in
  let vlans' := vlans ++ [(AStr "100", a)] in
  let w' := set_heap E (heap w ++ [VLAN_new (AInt 100) dp_id []]) w in
  get_vlan dp_id (VAtom (AStr "100")) vlans w = (Ok (a, vlans'), w')
  /\ vid <$> heap w' !! a = Some (AInt 100)
  /\ length (heap w') = S (length (heap w))
  /\ get_vlan dp_id (VAtom (AStr "100")) vlans' w' = (Ok (a, vlans'), w').
Proof.
  intros Hrange Hname Hid a vlans' w'. repeat split.
  - apply get_vlan_fresh; [done| |done|done].
    intros a0 v Hin Hv. cbn [atom_eq_str]. apply String.eqb_neq.
    intros Heq. by apply (Hid a0 v Hin Hv).
  - subst w' a. simpl. rewrite lookup_app_r by lia.
    by rewrite Nat.sub_diag.
  - subst w'. simpl. rewrite length_app. simpl. lia.
  - apply get_vlan_by_name. subst vlans'.
    rewrite (dict_get_app_None _ _ _ Hname). reflexivity.
Qed.

(** C6, as amended: a reference that matches no configured name and no
    id of a VLAN of this switch fails with the range error when it is an
    integer literal outside [MIN_VID, MAX_VID], and with the
    invalid-reference error when it is no integer literal; nothing is
    created in either case. *)
Theorem unmatched_reference_errors dp_id k (vlans : dict addr) (w : World E) :
  dict_get k vlans = None ->
  (forall a v, a ∈ dict_values vlans -> heap w !! a = Some v ->
               atom_eq_str k (atom_str (vid v)) = false) ->
  (forall n, int0 (atom_str k) = Some n -> ~ (MIN_VID <= n <= MAX_VID) ->
     get_vlan dp_id (VAtom k) vlans w =
       (Raise (AssertionError (MsgVidRange k n)), w))
  /\ (int0 (atom_str k) = None ->
      get_vlan dp_id (VAtom k) vlans w =
        (Raise (AssertionError (MsgVidInvalid k)), w)).
Proof.
  intros Hk Hid. split.
  - intros n Hint Hout.
    unfold _get_vlan_by_identifier, bind, hashable, ret, get. simpl.
    rewrite Hk, (find_vid_matches_None _ _ _ Hid), Hint.
    assert (Hr : (MIN_VID <=? n) && (n <=? MAX_VID) = false).
    { apply andb_false_iff.
      destruct (Z.leb_spec MIN_VID n); [|by left].
      destruct (Z.leb_spec n MAX_VID); [|by right]. lia. }
    by rewrite Hr.
  - intros Hint.
    unfold _get_vlan_by_identifier, bind, hashable, ret, get. simpl.
    by rewrite Hk, (find_vid_matches_None _ _ _ Hid), Hint.
Qed.

(** C10: "100" and "0x64" are different references for the same id; on a
    switch that knows neither, resolving one after the other creates two
    VLAN objects of id 100 and leaves two entries for that id in the
    switch's VLAN mapping. *)
Theorem two_objects_for_one_id dp_id (vlans : dict addr) (w : World E) :
  MIN_VID <= 100 <= MAX_VID ->
  dict_get (AStr "100") vlans = None ->
  dict_get (AStr "0x64") vlans = None ->
  (forall a v, a ∈ dict_values vlans -> heap w !! a = Some v ->
     atom_str (vid v) <> "100"%string /\ atom_str (vid v) <> "0x64"%string) ->
  exists s1 s2 a1 a2 vlans1 vlans2 w1 w2 v1 v2,
    s1 <> s2
    /\ int0 s1 = Some 100 /\ int0 s2 = Some 100
    /\ get_vlan dp_id (VAtom (AStr s1)) vlans w = (Ok (a1, vlans1), w1)
    /\ get_vlan dp_id (VAtom (AStr s2)) vlans1 w1 = (Ok (a2, vlans2), w2)
    /\ a1 <> a2
    /\ heap w2 !! a1 = Some v1 /\ heap w2 !! a2 = Some v2
    /\ vid v1 = AInt 100 /\ vid v2 = AInt 100
    /\ vlans2 = vlans ++ [(AStr s1, a1); (AStr s2, a2)].
Proof.
  intros Hrange H100 H64 Hid.
  set (a1 := length (heap w)).
  set (v := VLAN_new (AInt 100) dp_id []).
  set (w1 := set_heap E (heap w ++ [v]) w).
  set (w2 := set_heap E (heap w1 ++ [v]) w1).
  exists "100"%string, "0x64"%string, a1, (S a1),
    (vlans ++ [(AStr "100", a1)]),
    (vlans ++ [(AStr "100", a1); (AStr "0x64", S a1)]), w1, w2, v, v.
  assert (Hlen : length (heap w1) = S a1).
  { subst w1 a1. simpl. rewrite length_app. simpl. lia. }
  split; [discriminate|]. split; [reflexivity|]. split; [reflexivity|].
  split.
  { apply get_vlan_fresh; [done| |reflexivity|done].
    intros a0 v0 Hin Hv. cbn [atom_eq_str]. apply String.eqb_neq.
    intros Heq. by apply (proj1 (Hid a0 v0 Hin Hv)). }
  split.
  { rewrite <- Hlen.
    replace (vlans ++ [(AStr "100", a1); (AStr "0x64", length (heap w1))])
      with ((vlans ++ [(AStr "100", a1)]) ++ [(AStr "0x64", length (heap w1))])
      by (by rewrite <- app_assoc).
    apply get_vlan_fresh; [| |reflexivity|done].
    - rewrite (dict_get_app_None _ _ _ H64). reflexivity.
    - intros a0 v0 Hin Hv. cbn [atom_eq_str]. apply String.eqb_neq.
      intros Heq.
      unfold dict_values in Hin. rewrite fmap_app in Hin.
      apply elem_of_app in Hin as [Hin|Hin].
      + subst w1. simpl in Hv.
        destruct (decide (a0 < length (heap w))%nat) as [Hlt|Hge].
        * rewrite lookup_app_l in Hv by done.
          by apply (proj2 (Hid a0 v0 Hin Hv)).
        * pose proof (lookup_lt_Some _ _ _ Hv) as Hlt.
          rewrite length_app in Hlt. simpl in Hlt.
          assert (a0 = length (heap w)) by lia. subst a0.
          rewrite lookup_app_r, Nat.sub_diag in Hv by lia.
          simpl in Hv. injection Hv as <-. discriminate Heq.
      + simpl in Hin. apply list_elem_of_singleton in Hin. subst a0.
        subst w1 a1. simpl in Hv.
        rewrite lookup_app_r, Nat.sub_diag in Hv by lia.
        simpl in Hv. injection Hv as <-. discriminate Heq. }
  split; [lia|].
  split.
  { subst w2 w1 a1. cbn [heap set_heap].
    rewrite lookup_app_l by (rewrite length_app; simpl; lia).
    by rewrite lookup_app_r, Nat.sub_diag by lia. }
  split.
  { subst w2 w1 a1. cbn [heap set_heap].
    rewrite lookup_app_r by (rewrite length_app; simpl; lia).
    rewrite length_app. cbn [length].
    by replace (S (length (heap w)) - (length (heap w) + 1))%nat with 0%nat
      by lia. }
  done.
Qed.
End Resolver.

(** ** The port assembler *)

Section PortAssembler.
Context {E : Type}.
Variables MIN_VID MAX_VID : Z.

Local Abbreviation get_vlan := (_get_vlan_by_identifier E MIN_VID MAX_VID).
Local Abbreviation parse_port := (_dp_parse_port E MIN_VID MAX_VID).

Lemma raise_not_port_error {A} e p :
  not_port_error e -> @Raise A e <> Raise (AssertionError (MsgPortNoVlan p)).
Proof. intros He [= ->]. by apply (He p). Qed.

Lemma get_vlan_errors dp_id v vlans (w w' : World E) e :
  get_vlan dp_id v vlans w = (Raise e, w') -> not_port_error e.
Proof.
  unfold _get_vlan_by_identifier, bind, hashable, get, ret, raise, assert_.
  destruct v as [k|l|d]; simpl; try (intros [= <- _] p; discriminate).
  destruct (dict_get k vlans); [discriminate|].
  destruct (find _ _); [discriminate|].
  destruct (int0 _) as [n|]; [|intros [= <- _] p; discriminate].
  destruct ((MIN_VID <=? n) && (n <=? MAX_VID)); simpl; [discriminate|].
  intros [= <- _] p; discriminate.
Qed.

Lemma resolve_tagged_all dp_id idents : forall acc (w w' : World E) res,
  foldM (resolve_tagged E MIN_VID MAX_VID dp_id) acc idents w = (res, w') ->
  match res with
  | Ok tv => length (fst tv) = (length (fst acc) + length idents)%nat
  | Raise e => not_port_error e
  end.
Proof.
  induction idents as [|v idents IH]; intros acc w w' res; simpl.
  - intros [= <- _]. simpl. lia.
  - unfold bind at 1. unfold resolve_tagged at 1. unfold bind at 1.
    destruct (get_vlan dp_id v (snd acc) w) as [[r|e] w1] eqn:Hget.
    + unfold ret at 1. intros Hrest. apply IH in Hrest.
      destruct res as [tv|e]; [|done].
      rewrite Hrest. simpl. rewrite length_app. simpl. lia.
    + intros [= <- _]. by eapply get_vlan_errors.
Qed.

Lemma update_all_ok (f : VLAN -> VLAN) l : forall w : World E,
  exists w', forM_ l (fun vlan => update_vlan E vlan f) w = (Ok tt, w').
Proof.
  induction l as [|a l IH]; intros w; simpl.
  - by eexists.
  - unfold bind, update_vlan, modify. apply IH.
Qed.

Lemma update_all_nil (f : VLAN -> VLAN) (w : World E) :
  forM_ [] (fun vlan => update_vlan E vlan f) w = (Ok tt, w).
Proof. reflexivity. Qed.

(** C4: a port whose configuration gives it no native VLAN, no tagged
    VLANs and no stacking marker fails assembly with the
    port-configuration error, whose message is formatted with that port;
    a port that declares any of the three never fails with that error. *)
Theorem port_needs_vlan_or_stack dp_id p_identifier port_conf vlans (w : World E) :
  let port := Port_new p_identifier port_conf in
  (declares_nothing port = true ->
     parse_port dp_id p_identifier port_conf vlans w =
       (Raise (AssertionError (MsgPortNoVlan (Port_set_tagged_vlans [] port))), w)
     /\ port_id (Port_set_tagged_vlans [] port) = p_identifier)
  /\ (declares_nothing port = false ->
      forall p, (parse_port dp_id p_identifier port_conf vlans w).1
                <> Raise (AssertionError (MsgPortNoVlan p))).
Proof.
  intros port. split.
  - intros Hnone. split; [|reflexivity].
    unfold declares_nothing in Hnone.
    unfold _dp_parse_port. fold port.
    unfold bind at 1. unfold resolve_native.
    destruct (native_vlan port) as [[[| | |]| |]|] eqn:Hn; try discriminate.
    unfold ret at 1. cbn [fst snd].
    unfold bind at 1. unfold resolve_tagged_vlans. unfold bind at 1.
    destruct (tagged_vlans port) as [v|] eqn:Ht; [|discriminate].
    unfold iter.
    destruct (iter_list v) as [[|]|]; try discriminate.
    unfold ret at 1. cbn [foldM fst snd forM_].
    unfold bind, ret, assert_, has_vlan_or_stack, Port_vlans.
    rewrite update_all_nil.
    cbn [fst snd tagged_vlans native_vlan stack Port_set_tagged_vlans].
    rewrite Hn. apply negb_true_iff in Hnone. rewrite Hnone. reflexivity.
  - intros Hdecl p.
    unfold _dp_parse_port. fold port.
    unfold bind at 1. unfold resolve_native.
    assert (Hstack : forall a, stack (Port_set_native_vlan a port) = stack port)
      by reflexivity.
    assert (Hnat : exists v, native_vlan port = Ident v) by (by eexists).
    assert (Htag : exists v, tagged_vlans port = Idents v) by (by eexists).
    destruct Hnat as [nv Hnv]. destruct Htag as [tv Htv].
    unfold declares_nothing in Hdecl. rewrite Hnv, Htv in Hdecl.
    rewrite Hnv.
    (* the port and state after the native VLAN *)
    assert (Hafter : forall port1 vlans1 (w1 : World E),
               tagged_vlans port1 = Idents tv ->
               stack port1 = stack port ->
               ((exists a, native_vlan port1 = Obj a)
                \/ (native_vlan port1 = Ident (VAtom ANone)
                    /\ match iter_list tv with
                       | Some [] => negb (truthy (stack port))
                       | _ => false
                       end = false)) ->
               (bind (resolve_tagged_vlans E MIN_VID MAX_VID dp_id port1 vlans1)
                  (fun pv =>
                     bind (assert_ (has_vlan_or_stack (fst pv))
                             (MsgPortNoVlan (fst pv)))
                          (fun _ => ret pv)) w1).1
               <> Raise (AssertionError (MsgPortNoVlan p))).
    { intros port1 vlans1 w1 Ht1 Hs1 Hcase.
      unfold bind at 1. unfold resolve_tagged_vlans. unfold bind at 1.
      rewrite Ht1. unfold iter.
      destruct (iter_list tv) as [idents|] eqn:Hit; [|simpl; discriminate].
      unfold ret at 1. unfold bind at 1.
      destruct (foldM _ _ idents w1) as [[r|e] w2] eqn:Hfold.
      - apply resolve_tagged_all in Hfold. simpl in Hfold.
        unfold bind at 1.
        destruct (update_all_ok
                    (VLAN_add_tagged (port_id (Port_set_tagged_vlans (fst r) port1)))
                    (fst r) w2) as [w3 Hupd].
        rewrite Hupd. unfold ret at 1. cbn [fst snd].
        unfold bind, assert_, has_vlan_or_stack, Port_vlans. simpl.
        destruct Hcase as [[a Ha]|[Ha Hrest]]; rewrite Ha.
        + simpl. discriminate.
        + destruct (fst r) as [|a l] eqn:Hr.
          * destruct idents; [|simpl in Hfold; lia].
            rewrite Hs1. apply negb_false_iff in Hrest. rewrite Hrest.
            simpl. discriminate.
          * simpl. discriminate.
      - simpl. apply resolve_tagged_all in Hfold.
        by apply raise_not_port_error. }
    destruct nv as [[| | |]| |].
    + unfold ret at 1. cbn [fst snd]. apply Hafter; [done|done|].
      right. split; [done|]. exact Hdecl.
    + unfold bind at 1.
      destruct (get_vlan dp_id (VAtom (ABool b)) vlans w) as [[r|e] w1] eqn:Hg.
      * unfold bind at 1, update_vlan at 1, modify at 1, ret at 1.
        cbn [fst snd]. apply Hafter; [done|done|]. left. by eexists.
      * simpl. apply raise_not_port_error. by eapply get_vlan_errors.
    + unfold bind at 1.
      destruct (get_vlan dp_id (VAtom (AInt z)) vlans w) as [[r|e] w1] eqn:Hg.
      * unfold bind at 1, update_vlan at 1, modify at 1, ret at 1.
        cbn [fst snd]. apply Hafter; [done|done|]. left. by eexists.
      * simpl. apply raise_not_port_error. by eapply get_vlan_errors.
    + unfold bind at 1.
      destruct (get_vlan dp_id (VAtom (AStr s)) vlans w) as [[r|e] w1] eqn:Hg.
      * unfold bind at 1, update_vlan at 1, modify at 1, ret at 1.
        cbn [fst snd]. apply Hafter; [done|done|]. left. by eexists.
      * simpl. apply raise_not_port_error. by eapply get_vlan_errors.
    + unfold bind at 1.
      destruct (get_vlan dp_id (VList l) vlans w) as [[r|e] w1] eqn:Hg.
      * unfold bind at 1, update_vlan at 1, modify at 1, ret at 1.
        cbn [fst snd]. apply Hafter; [done|done|]. left. by eexists.
      * simpl. apply raise_not_port_error. by eapply get_vlan_errors.
    + unfold bind at 1.
      destruct (get_vlan dp_id (VDict d) vlans w) as [[r|e] w1] eqn:Hg.
      * unfold bind at 1, update_vlan at 1, modify at 1, ret at 1.
        cbn [fst snd]. apply Hafter; [done|done|]. left. by eexists.
      * simpl. apply raise_not_port_error. by eapply get_vlan_errors.
Qed.
End PortAssembler.

(** ** VLANs shared between switches *)

Section SharedVlans.
Context {E : Type}.

Lemma vid_dp_get_set k names (d : dict (gset string)) :
  vid_dp_get k (dict_set k names d) = names.
Proof.
  unfold vid_dp_get. by rewrite dict_get_set_same by apply atom_eqb_refl.
Qed.



End SharedVlans.

(** ** The cross-switch finalizer *)

Section Finalizer.
Context {E : Type}.
Variables MIN_VID MAX_VID : Z.
Variable set_iter : gset Z -> list Z.
Variable sanity_check : DP -> M (World E) unit.
Variable finalize_config : DP -> list DP -> M (World E) unit.
Variable resolve_stack_topology : DP -> list DP -> M (World E) unit.

Local Abbreviation parser_v2 :=
  (_dp_parser_v2 E MIN_VID MAX_VID set_iter sanity_check
     finalize_config resolve_stack_topology).
Local Abbreviation assemble :=
  (assemble_dp E MIN_VID MAX_VID set_iter sanity_check).

(** One pass: the operation is invoked on a prefix of the list, in order,
    each invocation in the state the previous one left, and on the whole
    list when the pass completes; the calls recorded are those
    invocations. *)
Lemma pass_calls (op : DP -> list DP -> M (World E) unit) (mk : DP -> call)
    (dps : list DP) (l : list DP) : forall (r r' : Run E) res,
  forM_ l (fun dp => log E (mk dp) ;; in_world E (op dp dps)) r = (res, r') ->
  exists visited, visited `prefix_of` l
    /\ invoked (fun dp => op dp dps) visited (world r) res (world r')
    /\ calls r' = calls r ++ (mk <$> visited)
    /\ (res = Ok tt -> visited = l).
Proof.
  induction l as [|dp l IH]; intros r r' res; simpl.
  - intros [= <- <-]. exists []. split; [done|]. split; [constructor|].
    by rewrite app_nil_r.
  - unfold bind at 1. unfold bind at 1. unfold log at 1, modify at 1.
    unfold in_world at 1, zoom at 1. cbn [world calls].
    destruct (op dp dps (world r)) as [[[]|e] w1] eqn:Hop.
    + intros Hrest. apply IH in Hrest as (visited & Hpre & Hinv & Hcalls & Hall).
      cbn [world calls] in *.
      exists (dp :: visited). split; [by apply prefix_cons|].
      split; [by econstructor|]. split.
      * rewrite Hcalls. by rewrite <- app_assoc.
      * intros ->. by rewrite Hall.
    + intros [= <- <-]. exists [dp]. split; [apply prefix_cons, prefix_nil|].
      cbn [world calls]. split; [by constructor|]. split; [done|discriminate].
Qed.

(** The two passes of a run that ends in [res] and [r']. *)
Lemma passes_of_run acls_conf dps_conf meters_conf routers_conf vlans_conf
    (r r' : Run E) res :
  parser_v2 acls_conf dps_conf meters_conf routers_conf vlans_conf r = (res, r') ->
  let asm := foldM (assemble acls_conf meters_conf routers_conf vlans_conf) []
               (dict_items dps_conf) (set_vid_dp E [] (world r)) in
  match asm.1 with
  | Raise e => res = Raise e /\ world r' = asm.2 /\ calls r' = calls r
  | Ok dps =>
      exists finalized resolved res1 res2 w,
        finalized `prefix_of` dps /\ resolved `prefix_of` dps
        /\ invoked (fun dp => finalize_config dp dps) finalized asm.2 res1 w
        /\ invoked (fun dp => resolve_stack_topology dp dps) resolved w res2
             (world r')
        /\ calls r' = calls r ++ (FinalizeConfig <$> finalized)
                              ++ (ResolveStackTopology <$> resolved)
        /\ (resolved <> [] -> finalized = dps /\ res1 = Ok tt)
        /\ (forall e, res1 = Raise e -> resolved = [] /\ res = Raise e)
        /\ (forall e, res2 = Raise e -> res = Raise e)
        /\ (forall v, res = Ok v ->
              v = dps /\ finalized = dps /\ resolved = dps
              /\ res1 = Ok tt /\ res2 = Ok tt)
  end.
Proof.
  unfold _dp_parser_v2.
  unfold bind at 1. unfold in_world at 1, zoom at 1, modify at 1.
  unfold bind at 1. unfold in_world at 1, zoom at 1. cbn [world calls].
  cbv zeta.
  destruct (foldM _ [] (dict_items dps_conf) (set_vid_dp E [] (world r)))
    as [[dps|e] w1]; cbn [fst snd].
  - unfold bind at 1.
    destruct (forM_ dps (fun dp => log E (FinalizeConfig dp) ;;
                          in_world E (finalize_config dp dps)) _)
      as [res1 r1] eqn:Hfin.
    apply pass_calls in Hfin as (fin & Hpre1 & Hinv1 & Hcalls1 & Hall1).
    cbn [world calls] in Hinv1, Hcalls1.
    destruct res1 as [[]|e1].
    + unfold bind at 1.
      destruct (forM_ dps (fun dp => log E (ResolveStackTopology dp) ;;
                            in_world E (resolve_stack_topology dp dps)) r1)
        as [res2 r2] eqn:Hres.
      apply pass_calls in Hres as (stk & Hpre2 & Hinv2 & Hcalls2 & Hall2).
      rewrite (Hall1 eq_refl) in *.
      destruct res2 as [[]|e2].
      * unfold ret. intros [= <- <-].
        exists dps, stk, (Ok tt), (Ok tt), (world r1).
        rewrite Hcalls2, Hcalls1, <- app_assoc. rewrite (Hall2 eq_refl) in *.
        do 6 (split; [done|]). split; [by intros e [=]|].
        split; [by intros e [=]|]. by intros v [= <-].
      * intros [= <- <-].
        exists dps, stk, (Ok tt), (Raise e2), (world r1).
        rewrite Hcalls2, Hcalls1, <- app_assoc.
        do 6 (split; [done|]). split; [by intros e [=]|].
        split; [by intros e [= <-]|]. by intros v [=].
    + intros [= <- <-].
      exists fin, [], (Raise e1), (Ok tt), (world r1).
      rewrite Hcalls1, app_nil_r.
      split; [done|]. split; [apply prefix_nil|]. split; [done|].
      split; [constructor|]. split; [done|]. split; [done|].
      split; [by intros e [= <-]|]. split; [by intros e [=]|]. by intros v [=].
  - intros [= <- <-]. done.
Qed.

(** C8: in every run of [_dp_parser_v2] that assembles its switches,
    [finalize_config] is invoked on a prefix of the assembled switches, one
    after the other from the state the assembly left, and then
    [resolve_stack_topology] on a prefix of them, from the state the
    finalizations left: the state of the run is the one these invocations
    leave, and the calls recorded are these invocations.
    [resolve_stack_topology] is invoked on a switch only after
    [finalize_config] has been invoked, and has returned, on every
    assembled switch; an operation that raises ends the run with its
    exception; a run that returns has invoked both operations on every
    switch, and returns the assembled switches.  A run that fails to
    assemble invokes neither operation. *)
Theorem passes_in_order acls_conf dps_conf meters_conf routers_conf vlans_conf
    (r : Run E) :
  let out := parser_v2 acls_conf dps_conf meters_conf routers_conf vlans_conf r in
  let asm := foldM (assemble acls_conf meters_conf routers_conf vlans_conf) []
               (dict_items dps_conf) (set_vid_dp E [] (world r)) in
  match asm.1 with
  | Raise e => out.1 = Raise e /\ world out.2 = asm.2 /\ calls out.2 = calls r
  | Ok dps =>
      exists finalized resolved res1 res2 w,
        finalized `prefix_of` dps /\ resolved `prefix_of` dps
        /\ invoked (fun dp => finalize_config dp dps) finalized asm.2 res1 w
        /\ invoked (fun dp => resolve_stack_topology dp dps) resolved w res2
             (world out.2)
        /\ calls out.2 = calls r ++ (FinalizeConfig <$> finalized)
                                 ++ (ResolveStackTopology <$> resolved)
        /\ (resolved <> [] -> finalized = dps /\ res1 = Ok tt)
        /\ (forall e, res1 = Raise e -> resolved = [] /\ out.1 = Raise e)
        /\ (forall e, res2 = Raise e -> out.1 = Raise e)
        /\ (forall v, out.1 = Ok v ->
              v = dps /\ finalized = dps /\ resolved = dps
              /\ res1 = Ok tt /\ res2 = Ok tt)
  end.
Proof.
  intros out. apply passes_of_run. subst out. by destruct (parser_v2 _ _ _ _ _ r).
Qed.

(** What a pass leaves when the operation records its invocation. *)
Lemma invoked_recorded (mk : DP -> call) l :
  forall (s s' : World Recording.E) res,
  invoked (fun dp => Recording.record (mk dp)) l s res s' ->
  res = Ok tt /\ ext s' = ext s ++ (mk <$> l).
Proof.
  intros s s' res Hinv.
  induction Hinv as [s|dp s e s' Hop|dp l s s1 res s' Hop _ [-> IH]].
  - by rewrite app_nil_r.
  - discriminate.
  - injection Hop as <-. split; [done|]. rewrite IH. cbn [ext].
    by rewrite <- app_assoc.
Qed.
End Finalizer.

(** ** The port-range expander *)

Section PortRanges.

Lemma digit_char c :
  is_digit c = true ->
  Ascii.eqb c "_" = false /\ Ascii.eqb c "-" = false /\ is_space c = false
  /\ exists d, digit_val c = Some d /\ 0 <= d < 10.
Proof.
  destruct c as [[] [] [] [] [] [] [] []]; try discriminate; intros _;
    (repeat split; try reflexivity; eexists;
     (split; [vm_compute; reflexivity|vm_compute; split; [discriminate|reflexivity]])).
Qed.

Lemma span_digits_spec s :
  let '(d, r) := span_digits s in
  all_digits d = true /\ s = (d +:+ r)%string
  /\ match r with String c _ => is_digit c = false | EmptyString => True end.
Proof.
  induction s as [|c s IH]; simpl; [done|].
  destruct (is_digit c) eqn:Hc.
  - destruct (span_digits s) as [d r]. destruct IH as (Hd & -> & Hr).
    simpl. by rewrite Hc, Hd.
  - simpl. by rewrite Hc.
Qed.

Lemma all_digits_app d1 d2 :
  all_digits (d1 +:+ d2) = all_digits d1 && all_digits d2.
Proof.
  induction d1 as [|c d1 IH]; simpl; [done|].
  by rewrite IH, andb_assoc.
Qed.

(** A token matched by [\d+-\d+]: digits, a dash, digits. *)
Lemma match_range_shape s tok :
  match_range s = Some tok ->
  exists c1 d1 c2 d2,
    tok = (String c1 d1 +:+ String "-" (String c2 d2))%string
    /\ all_digits (String c1 d1) = true /\ all_digits (String c2 d2) = true.
Proof.
  unfold match_range. pose proof (span_digits_spec s) as Hs.
  destruct (span_digits s) as [d1 r]. destruct Hs as (Hd1 & _ & _).
  destruct d1 as [|c1 d1]; [discriminate|].
  destruct r as [|c r]; [discriminate|].
  destruct (Ascii.eqb_spec c "-") as [->|Hne].
  - pose proof (span_digits_spec r) as Hr.
    destruct (span_digits r) as [d2 r2]. destruct Hr as (Hd2 & _ & _).
    destruct d2 as [|c2 d2].
    + discriminate.
    + intros [= <-]. by exists c1, d1, c2, d2.
  - intros H. exfalso.
    destruct c as [[] [] [] [] [] [] [] []]; try discriminate H.
    by apply Hne.
Qed.

Lemma findall_from_matched m tok : forall s skip,
  tok ∈ findall_from m skip s -> exists s', m s' = Some tok.
Proof.
  induction s as [|c s IH]; intros skip; simpl.
  - by intros ?%elem_of_nil.
  - destruct skip as [|k]; [|by apply IH].
    destruct (m (String c s)) as [tok'|] eqn:Hm; [|by apply IH].
    intros [->|Hin]%elem_of_cons; [by eexists|by eapply IH].
Qed.

Lemma split_on_digits d :
  all_digits d = true -> split_on "-" d = [d].
Proof.
  induction d as [|c d IH]; simpl; [done|].
  intros [Hc Hd]%andb_true_iff.
  destruct (digit_char c Hc) as (_ & -> & _). by rewrite (IH Hd).
Qed.

Lemma split_on_token d1 d2 :
  all_digits d1 = true -> all_digits d2 = true ->
  split_on "-" (d1 +:+ String "-" d2) = [d1; d2].
Proof.
  intros H1 H2. induction d1 as [|c d1 IH]; simpl.
  - by rewrite (split_on_digits d2 H2).
  - apply andb_true_iff in H1 as [Hc Hd].
    destruct (digit_char c Hc) as (_ & -> & _). by rewrite (IH Hd).
Qed.

Lemma digits_acc_digits d : forall us acc,
  all_digits d = true -> d <> EmptyString ->
  exists n, digits_acc 10 us acc d = Some n.
Proof.
  induction d as [|c d IH]; intros us acc Hd Hne; [done|].
  simpl in *. apply andb_true_iff in Hd as [Hc Hd].
  destruct (digit_char c Hc) as (-> & _ & _ & dv & -> & Hdv).
  assert (Hlt : (dv <? 10) = true) by (apply Z.ltb_lt; lia).
  rewrite Hlt. destruct d as [|c' d']; [by eexists|].
  by apply IH.
Qed.

Lemma rstrip_digits d : all_digits d = true -> rstrip d = d.
Proof.
  induction d as [|c d IH]; simpl; [done|].
  intros [Hc Hd]%andb_true_iff. rewrite (IH Hd).
  destruct (digit_char c Hc) as (_ & _ & -> & _). by destruct d.
Qed.

(** [int] of a non-empty string of digits is defined. *)
Lemma int10_digits c d :
  all_digits (String c d) = true -> exists n, int10 (String c d) = Some n.
Proof.
  intros Hd. unfold int10, signed, strip.
  assert (Hl : lstrip (String c d) = String c d).
  { simpl in *. apply andb_true_iff in Hd as [Hc _].
    by destruct (digit_char c Hc) as (_ & _ & -> & _). }
  rewrite Hl, (rstrip_digits _ Hd).
  destruct (digits_acc_digits (String c d) true 0 Hd) as [n Hn]; [done|].
  exists n. unfold parse_digits.
  simpl in Hd. apply andb_true_iff in Hd as [Hc _].
  destruct c as [[] [] [] [] [] [] [] []]; try discriminate Hc; exact Hn.
Qed.

(** Every token of a range specification has two integer bounds: the
    assertion of line 134 never fails. *)
Lemma range_tokens_bounds spec tok :
  tok ∈ range_tokens spec -> exists a b, token_bounds tok = Some (a, b).
Proof.
  intros Hin. apply findall_from_matched in Hin as [s' Hm].
  apply match_range_shape in Hm as (c1 & d1 & c2 & d2 & -> & H1 & H2).
  unfold token_bounds. rewrite (split_on_token _ _ H1 H2).
  destruct (int10_digits c1 d1 H1) as [a Ha].
  destruct (int10_digits c2 d2 H2) as [b Hb].
  exists a, b. simpl fmap. by rewrite Ha, Hb.
Qed.

Lemma range_tokens_reversed toks : forall st,
  (forall tok, tok ∈ toks -> exists a b, token_bounds tok = Some (a, b)) ->
  (exists tok a b, tok ∈ toks /\ token_bounds tok = Some (a, b) /\ b <= a) ->
  exists a b st', b <= a
    /\ forM_ toks range_token st = (Raise (AssertionError (MsgPortRange a b)), st').
Proof.
  induction toks as [|tok toks IH]; intros st Hall (bad & a & b & Hin & Hb & Hrev).
  - by apply elem_of_nil in Hin.
  - destruct (Hall tok) as (a0 & b0 & Hb0); [left|].
    simpl. unfold bind at 1. unfold range_token at 1. unfold bind at 1.
    rewrite Hb0. unfold ret at 1. unfold bind at 1. cbn [fst snd]. unfold assert_.
    destruct (Z.ltb_spec a0 b0) as [Hlt|Hge].
    + unfold ret at 1, modify at 1.
      apply IH.
      * intros tok' Hin'. apply Hall. by right.
      * apply elem_of_cons in Hin as [->|Hin].
        -- rewrite Hb0 in Hb. injection Hb as -> ->. lia.
        -- by exists bad, a, b.
    + unfold raise. by exists a0, b0, st.
Qed.

(** C5: the specification "1-3,5,7-9" expands to the port numbers
    {1,2,3,5,7,8,9}; a specification with a [start-end] token whose start
    is not less than its end fails with the range-ordering error (for the
    first such token), as "6-1" does. *)
Theorem port_range_expansion :
  expand_port_range "1-3,5,7-9" = Ok ({[1; 2; 3; 5; 7; 8; 9]} : gset Z)
  /\ expand_port_range "6-1" = Raise (AssertionError (MsgPortRange 6 1))
  /\ (forall spec tok start_num end_num,
        tok ∈ range_tokens spec ->
        token_bounds tok = Some (start_num, end_num) ->
        end_num <= start_num ->
        exists a b, b <= a
          /\ expand_port_range spec = Raise (AssertionError (MsgPortRange a b))).
Proof.
  split; [by vm_compute|]. split; [by vm_compute|].
  intros spec tok a b Hin Hb Hrev.
  destruct (range_tokens_reversed (range_tokens spec)
              {| port_nums := ∅; port_range := spec |}) as (a' & b' & st' & Hle & Hrun).
  - intros tok' Hin'. by apply (range_tokens_bounds spec).
  - by exists tok, a, b.
  - exists a', b'. split; [done|].
    unfold expand_port_range. fold (range_tokens spec). by rewrite Hrun.
Qed.
End PortRanges.

(** ** Individual ports and ranges *)

Section Merging.
Variable set_iter : gset Z -> list Z.

(** *** The individual ports *)

Lemma individual_ports_entries ports_conf st0 res st :
  port_num_to_port_conf st0 = [] ->
  individual_ports ports_conf st0 = (res, st) ->
  individual_entries ports_conf st0 st.
Proof.
  intros Hempty. unfold individual_ports.
  apply (forM_invariant (individual_entries ports_conf st0)).
  - intros [i [port_ident port_conf]] s res' s' Hin [Hconfs Hent].
    apply zip_seq_lookup in Hin as [_ Hl]. rewrite Nat.sub_0_r in Hl.
    unfold individual_port, bind.
    assert (Hset : forall port_num,
               individual_entries ports_conf st0
                 {| confs := confs s;
                    port_num_to_port_conf :=
                      dict_set port_num (port_ident, i) (port_num_to_port_conf s) |}).
    { intros port_num. split; [done|]. cbn [port_num_to_port_conf].
      intros k id a [[= -> ->]|Hold]%dict_get_set_inv; [by eexists|].
      by eapply Hent. }
    destruct (dict_mem (AStr "number") port_conf).
    + unfold hashable. destruct (conf_get "number" port_conf) as [k| |].
      * unfold ret, set_entry, modify. intros [= _ <-]. apply Hset.
      * unfold raise. by intros [= _ <-].
      * unfold raise. by intros [= _ <-].
    + unfold ret, set_entry, modify. intros [= _ <-]. apply Hset.
  - split; [done|]. rewrite Hempty. discriminate.
Qed.

(** *** The ranges *)

Lemma keeps_setdefault port_num port_ident a c0 st a' k v :
  keeps_individual port_num port_ident a c0 st ->
  keeps_individual port_num port_ident a c0
    {| confs := alter (dict_setdefault k v) a' (confs st);
       port_num_to_port_conf := port_num_to_port_conf st |}.
Proof.
  intros [Hent (extra & Hc & Hextra)]. split; [done|]. cbn [confs].
  destruct (decide (a' = a)) as [->|Hne].
  - rewrite list_lookup_alter_eq, Hc.
    cbn [fmap option_fmap option_map].
    unfold dict_setdefault, dict_mem.
    destruct (dict_get k (c0 ++ extra)) eqn:Hk; [by exists extra|].
    exists (extra ++ [(k, v)]). split; [by rewrite app_assoc|].
    intros k' v' [Hin|Hin]%elem_of_app; [by eapply Hextra|].
    apply list_elem_of_singleton in Hin as [= -> ->].
    destruct (dict_get k c0) eqn:Hk0; [|done].
    by rewrite (dict_get_app_Some _ _ _ _ Hk0) in Hk.
  - rewrite list_lookup_alter_ne by done. by exists extra.
Qed.

Lemma keeps_del port_num port_ident a c0 st r k :
  r <> a ->
  keeps_individual port_num port_ident a c0 st ->
  keeps_individual port_num port_ident a c0
    {| confs := alter (dict_del k) r (confs st);
       port_num_to_port_conf := port_num_to_port_conf st |}.
Proof.
  intros Hne [Hent (extra & Hc & Hextra)]. split; [done|]. cbn [confs].
  rewrite list_lookup_alter_ne by done. by exists extra.
Qed.

Lemma keeps_new_entry port_num port_ident a c0 st k e :
  dict_get k (port_num_to_port_conf st) = None ->
  keeps_individual port_num port_ident a c0 st ->
  keeps_individual port_num port_ident a c0
    {| confs := confs st;
       port_num_to_port_conf := dict_set k e (port_num_to_port_conf st) |}.
Proof.
  intros Hnew [Hent Hc]. split; [|done]. cbn [port_num_to_port_conf].
  rewrite (dict_set_absent _ _ _ Hnew). by apply dict_get_app_Some.
Qed.

Lemma range_port_keeps port_num port_ident a c0 r n st res st' :
  keeps_individual port_num port_ident a c0 st ->
  range_port r n st = (res, st') ->
  keeps_individual port_num port_ident a c0 st'.
Proof.
  intros Hkeep. unfold range_port, bind, get.
  destruct (dict_get (AInt n) (port_num_to_port_conf st)) as [[id a']|] eqn:Hn.
  - unfold conf_at. destruct (confs st !! r) as [c|]; [|by intros [= _ <-]].
    apply (forM_invariant (keeps_individual port_num port_ident a c0));
      [|done].
    intros [k v] s res' s' _ Hs. unfold update_conf, modify.
    intros [= _ <-]. by apply keeps_setdefault.
  - unfold set_entry, modify. intros [= _ <-]. by apply keeps_new_entry.
Qed.

Lemma port_range_conf_keeps port_num port_ident a c0 r spec c st res st' :
  r <> a ->
  keeps_individual port_num port_ident a c0 st ->
  port_range_conf set_iter (r, (spec, c)) st = (res, st') ->
  keeps_individual port_num port_ident a c0 st'.
Proof.
  intros Hne Hkeep. unfold port_range_conf. unfold bind at 1.
  unfold conf_at. destruct (confs st !! r) as [rc|]; [|by intros [= _ <-]].
  unfold bind at 1.
  assert (Hdel : exists st1,
             keeps_individual port_num port_ident a c0 st1
             /\ (if dict_mem (AStr "number") rc
                 then update_conf r (dict_del (AStr "number"))
                 else ret ()) st = (Ok (), st1)).
  { destruct (dict_mem (AStr "number") rc).
    - eexists. split; [|reflexivity]. by apply keeps_del.
    - by exists st. }
  destruct Hdel as (st1 & Hkeep1 & ->).
  unfold bind at 1. unfold lift_result.
  destruct (expand_port_range spec) as [nums|e].
  - unfold ret at 1.
    apply (forM_invariant (keeps_individual port_num port_ident a c0));
      [|done].
    intros n s res' s' _ Hs. by apply range_port_keeps.
  - unfold raise. by intros [= _ <-].
Qed.

Lemma port_ranges_keeps port_num port_ident a c0 n ranges st res st' :
  (a < n)%nat ->
  keeps_individual port_num port_ident a c0 st ->
  port_ranges set_iter n ranges st = (res, st') ->
  keeps_individual port_num port_ident a c0 st'.
Proof.
  intros Ha. unfold port_ranges.
  apply (forM_invariant (keeps_individual port_num port_ident a c0)).
  intros [r [spec c]] s res' s' Hin Hs.
  apply zip_seq_lookup in Hin as [Hle _].
  apply port_range_conf_keeps; [lia|done].
Qed.

(** C7: a port number with an individually declared configuration keeps
    it through the merging of the ranges: the entry of the port still
    refers to the same configuration object, which holds every field of
    the individual configuration with its individual value; what the
    ranges added to it are fields the individual configuration does not
    have. *)
Theorem individual_port_wins ports_conf port_ranges_conf st1 st
    port_num port_ident a :
  individual_ports ports_conf
    (initial_port_confs ports_conf port_ranges_conf) = (Ok (), st1) ->
  dict_get port_num (port_num_to_port_conf st1) = Some (port_ident, a) ->
  expand_ports set_iter ports_conf port_ranges_conf = Ok st ->
  exists c0 resolved extra,
    ports_conf !! a = Some (port_ident, c0)
    /\ dict_get port_num (port_num_to_port_conf st) = Some (port_ident, a)
    /\ confs st !! a = Some resolved
    /\ resolved = c0 ++ extra
    /\ (forall field value,
          dict_get field c0 = Some value ->
          dict_get field resolved = Some value)
    /\ (forall field value,
          (field, value) ∈ extra -> dict_get field c0 = None).
Proof.
  intros Hind Hentry Hexp.
  pose proof (individual_ports_entries ports_conf
                (initial_port_confs ports_conf port_ranges_conf) _ _
                eq_refl Hind) as [Hconfs Hent].
  destruct (Hent _ _ _ Hentry) as [c0 Hc0].
  assert (Ha : (a < length ports_conf)%nat) by by eapply lookup_lt_Some.
  assert (Hkeep1 : keeps_individual port_num port_ident a c0 st1).
  { split; [done|]. exists []. rewrite app_nil_r. split.
    - rewrite Hconfs. unfold initial_port_confs. cbn [confs].
      rewrite lookup_app_l by (by rewrite length_fmap).
      by rewrite list_lookup_fmap, Hc0.
    - by intros k v ?%elem_of_nil. }
  unfold expand_ports, bind in Hexp. rewrite Hind in Hexp.
  destruct (port_ranges set_iter (length ports_conf) port_ranges_conf st1)
    as [[[]|e] st2] eqn:Hranges; [|discriminate].
  injection Hexp as ->.
  destruct (port_ranges_keeps _ _ _ _ _ _ _ _ _ Ha Hkeep1 Hranges)
    as [Hent2 (extra & Hc & Hextra)].
  exists c0, (c0 ++ extra), extra.
  do 4 (split; [done|]). split; [|done].
  intros field value Hf. by apply dict_get_app_Some.
Qed.
End Merging.

(** ** The theorems on closed inputs *)

Section ClosedRuns.
Import Closed.

Local Abbreviation sw1_a_sw2_b :=
  [(AStr "sw1", one_port_switch "a"); (AStr "sw2", one_port_switch "b")].
Local Abbreviation sw1_b_sw2_a :=
  [(AStr "sw1", one_port_switch "b"); (AStr "sw2", one_port_switch "a")].

(** The builtins on the literals used below. *)
Example int0_literals :
  int0 "100" = Some 100 /\ int0 "0x64" = Some 100 /\ int0 "5000" = Some 5000
  /\ int0 " -0b1_01 " = Some (-5) /\ int0 "010" = None /\ int0 "1__0" = None
  /\ int0 "office" = None.
Proof. repeat split; reflexivity. Qed.

Example str_of_int :
  atom_str (AInt 100) = "100"%string /\ atom_str (AInt (-7)) = "-7"%string.
Proof. split; reflexivity. Qed.

Example range_tokens_example :
  range_tokens "1-3,5,7-9" = ["1-3"; "7-9"]%string
  /\ re_sub_remove "7-9" (re_sub_remove "1-3" "1-3,5,7-9") = ",5,"%string.
Proof. split; reflexivity. Qed.

(** A version-1 document is rejected with the version message. *)
Lemma dp_parser_invalid_config_witness :
  let cf := document [(AStr "version", VAtom (AInt 1))] sw1_b_sw2_a in
  declared_version cf = Some (VAtom (AInt 1))
  /\ parser cf run0 = (Raise (InvalidConfigError MsgVersion), run0).
Proof.
  intros cf. split; [reflexivity|].
  apply (proj1 (dp_parser_invalid_config MIN_VID MAX_VID set_iter sanity_check
                  finalize_config resolve_stack_topology cf run0)
           (VAtom (AInt 1))); reflexivity.
Defined.

(** A document without a version is parsed like one of version 2. *)
Lemma dp_parser_missing_version_witness :
  let cf := document [] sw1_b_sw2_a in
  dict_get (AStr "version") [(AStr "dps", VDict [])] = None
  /\ parser cf run0 = parser (with_version (VAtom (AInt 2)) cf) run0.
Proof.
  intros cf. split; [reflexivity|].
  apply (proj1 (proj2 (dp_parser_missing_version MIN_VID MAX_VID set_iter
                         sanity_check finalize_config resolve_stack_topology
                         cf [(AStr "dps", VDict [])] run0 eq_refl eq_refl))).
Defined.

(** On a fresh switch, "100" is resolved to one new object, twice. *)
Lemma resolve_100_twice_witness :
  MIN_VID <= 100 <= MAX_VID
  /\ get_vlan (AInt 1) (VAtom (AStr "100")) [] world0 =
       (Ok (0%nat, [(AStr "100", 0%nat)]),
        set_heap E [VLAN_new (AInt 100) (AInt 1) []] world0)
  /\ get_vlan (AInt 1) (VAtom (AStr "100")) [(AStr "100", 0%nat)]
       (set_heap E [VLAN_new (AInt 100) (AInt 1) []] world0) =
       (Ok (0%nat, [(AStr "100", 0%nat)]),
        set_heap E [VLAN_new (AInt 100) (AInt 1) []] world0).
Proof.
  assert (Hr : MIN_VID <= 100 <= MAX_VID) by (unfold MIN_VID, MAX_VID; lia).
  split; [exact Hr|].
  destruct (resolve_100_twice MIN_VID MAX_VID (AInt 1) [] world0 Hr eq_refl)
    as (H1 & _ & _ & H2).
  - intros a v Hin. by apply elem_of_nil in Hin.
  - split; [exact H1|exact H2].
Defined.

(** On a fresh switch, "4096" is out of range and "office" is no
    reference at all. *)
Lemma unmatched_reference_errors_witness :
  get_vlan (AInt 1) (VAtom (AStr "4096")) [] world0 =
    (Raise (AssertionError (MsgVidRange (AStr "4096") 4096)), world0)
  /\ get_vlan (AInt 1) (VAtom (AStr "office")) [] world0 =
       (Raise (AssertionError (MsgVidInvalid (AStr "office"))), world0).
Proof.
  split.
  - apply (proj1 (unmatched_reference_errors MIN_VID MAX_VID (AInt 1)
                    (AStr "4096") [] world0 eq_refl
                    (fun a v Hin => False_ind _ (proj1 (elem_of_nil a) Hin))));
      [reflexivity|unfold MIN_VID, MAX_VID; lia].
  - apply (proj2 (unmatched_reference_errors MIN_VID MAX_VID (AInt 1)
                    (AStr "office") [] world0 eq_refl
                    (fun a v Hin => False_ind _ (proj1 (elem_of_nil a) Hin))));
      reflexivity.
Defined.

(** C6 as stated fails: a VLAN declared under the name "5000" makes the
    reference "5000", an integer literal outside 1..4095, resolve to that
    VLAN. *)
Lemma out_of_range_reference_resolves_by_name :
  int0 "5000" = Some 5000
  /\ ~ (MIN_VID <= 5000 <= MAX_VID)
  /\ ((vlans <- foldM (declare_vlan E (AInt 1)) [] [(AStr "5000", [])] ;;
       get_vlan (AInt 1) (VAtom (AStr "5000")) vlans) world0).1
     = Ok (0%nat, [(AStr "5000", 0%nat)]).
Proof.
  split; [reflexivity|]. split; [unfold MIN_VID, MAX_VID; lia|reflexivity].
Qed.

(** On a fresh switch, "100" and "0x64" give two objects of id 100. *)
Lemma two_objects_for_one_id_witness :
  exists s1 s2 a1 a2 vlans1 vlans2 w1 w2 v1 v2,
    s1 <> s2
    /\ int0 s1 = Some 100 /\ int0 s2 = Some 100
    /\ get_vlan (AInt 1) (VAtom (AStr s1)) [] world0 = (Ok (a1, vlans1), w1)
    /\ get_vlan (AInt 1) (VAtom (AStr s2)) vlans1 w1 = (Ok (a2, vlans2), w2)
    /\ a1 <> a2
    /\ heap w2 !! a1 = Some v1 /\ heap w2 !! a2 = Some v2
    /\ vid v1 = AInt 100 /\ vid v2 = AInt 100
    /\ vlans2 = [] ++ [(AStr s1, a1); (AStr s2, a2)].
Proof.
  apply (two_objects_for_one_id MIN_VID MAX_VID (AInt 1) [] world0).
  - unfold MIN_VID, MAX_VID; lia.
  - reflexivity.
  - reflexivity.
  - intros a v Hin. by apply elem_of_nil in Hin.
Defined.

(** A port with an empty configuration is rejected; its message is
    formatted with the port. *)
Lemma port_needs_vlan_or_stack_witness :
  declares_nothing (Port_new (AInt 3) []) = true
  /\ parse_port (AInt 1) (AInt 3) [] [] world0 =
       (Raise (AssertionError
                 (MsgPortNoVlan (Port_set_tagged_vlans [] (Port_new (AInt 3) [])))),
        world0).
Proof.
  split; [reflexivity|].
  apply (proj1 (port_needs_vlan_or_stack MIN_VID MAX_VID (AInt 1) (AInt 3)
                  [] [] world0)).
  reflexivity.
Defined.



(** Two switches and collaborators that record what is run on them: both
    switches are finalized, then both are resolved, as the collaborators
    saw it and as the run recorded it. *)
Lemma passes_in_order_witness :
  exists sw1 sw2,
    (Recording.dp_parser_v2 [] sw1_b_sw2_a [] [] two_names Recording.run0).1
      = Ok [sw1; sw2]
    /\ ext (world (Recording.dp_parser_v2 [] sw1_b_sw2_a [] [] two_names
                     Recording.run0).2) =
         [FinalizeConfig sw1; FinalizeConfig sw2;
          ResolveStackTopology sw1; ResolveStackTopology sw2]
    /\ calls (Recording.dp_parser_v2 [] sw1_b_sw2_a [] [] two_names
                Recording.run0).2 =
         [FinalizeConfig sw1; FinalizeConfig sw2;
          ResolveStackTopology sw1; ResolveStackTopology sw2].
Proof.
  pose proof (passes_in_order MIN_VID MAX_VID set_iter Recording.sanity_check
                Recording.finalize_config Recording.resolve_stack_topology
                [] sw1_b_sw2_a [] [] two_names Recording.run0) as H.
  cbv zeta in H.
  destruct (foldM _ [] (dict_items sw1_b_sw2_a)
              (set_vid_dp Recording.E [] (world Recording.run0)))
    as [[dps|e] w1] eqn:Hasm; vm_compute in Hasm; [|discriminate].
  injection Hasm as <- <-. cbn [fst snd] in H.
  destruct H as (fin & stk & res1 & res2 & w & _ & _ & Hfin & Hstk & Hcalls
                 & _ & _ & _ & Hok).
  destruct (Hok _ eq_refl) as (_ & -> & -> & _ & _).
  apply invoked_recorded in Hfin as [_ Hfin].
  apply invoked_recorded in Hstk as [_ Hstk].
  eexists _, _. split; [reflexivity|]. split; [|exact Hcalls].
  unfold Recording.dp_parser_v2. rewrite Hstk, Hfin. reflexivity.
Defined.

(** A reversed token behind a good one. *)
Lemma port_range_expansion_witness :
  "6-1"%string ∈ range_tokens "1-3,6-1"
  /\ token_bounds "6-1" = Some (6, 1)
  /\ exists a b, b <= a
       /\ expand_port_range "1-3,6-1" = Raise (AssertionError (MsgPortRange a b)).
Proof.
  assert (Hin : "6-1"%string ∈ range_tokens "1-3,6-1").
  { apply list_elem_of_further, list_elem_of_here. }
  split; [exact Hin|]. split; [reflexivity|].
  apply (proj2 (proj2 port_range_expansion) "1-3,6-1"%string "6-1"%string 6 1 Hin);
    [reflexivity|lia].
Defined.

(** Port 5 keeps its [F] and gains the [G] of the range "1-9". *)
Lemma individual_port_wins_witness :
  confs port_5_resolved !! 0%nat =
    Some [(AStr "F", VAtom (AInt 1)); (AStr "G", VAtom (AInt 3))]
  /\ exists c0 resolved extra,
    port_5 !! 0%nat = Some (AInt 5, c0)
    /\ dict_get (AInt 5) (port_num_to_port_conf port_5_resolved)
       = Some (AInt 5, 0%nat)
    /\ confs port_5_resolved !! 0%nat = Some resolved
    /\ resolved = c0 ++ extra
    /\ (forall field value,
          dict_get field c0 = Some value ->
          dict_get field resolved = Some value)
    /\ (forall field value,
          (field, value) ∈ extra -> dict_get field c0 = None).
Proof.
  split; [reflexivity|].
  apply (individual_port_wins set_iter port_5 range_1_9 port_5_declared
           port_5_resolved (AInt 5) (AInt 5) 0%nat).
  - by vm_compute.
  - reflexivity.
  - by vm_compute.
Defined.
End ClosedRuns.

(** * Further properties *)

(** ** The identifier resolver, continued *)

Section ResolverFrame.
Context {E : Type}.
Variables MIN_VID MAX_VID : Z.

Local Abbreviation get_vlan := (_get_vlan_by_identifier E MIN_VID MAX_VID).

Lemma dict_get_elem_of {V} k (d : dict V) v :
  dict_get k d = Some v -> v ∈ dict_values d.
Proof.
  induction d as [|[k' v'] d IH]; simpl; [done|].
  destruct (atom_eqb k k').
  - intros [= ->]. left.
  - intros H. right. by apply IH.
Qed.

Lemma find_elem_of {A} (f : A -> bool) l x :
  List.find f l = Some x -> x ∈ l /\ f x = true.
Proof.
  induction l as [|y l IH]; simpl; [done|].
  destruct (f y) eqn:Hy.
  - intros [= ->]. split; [left|done].
  - intros H. destruct (IH H). split; [by right|done].
Qed.

(** What one call of the resolver can do: fail and change nothing; return
    an object already in [vlans] and change nothing; or create one VLAN
    object, of the id the reference is a literal for, behind all existing
    objects and register it behind all existing entries. *)
Lemma get_vlan_outcome dp_id v vlans (w w' : World E) res :
  get_vlan dp_id v vlans w = (res, w') ->
  match res with
  | Raise _ => w' = w
  | Ok (a, vlans') =>
      a ∈ dict_values vlans'
      /\ ((w' = w /\ vlans' = vlans)
          \/ exists k n,
               v = VAtom k /\ dict_get k vlans = None
               /\ int0 (atom_str k) = Some n /\ MIN_VID <= n <= MAX_VID
               /\ a = length (heap w)
               /\ w' = set_heap E (heap w ++ [VLAN_new (AInt n) dp_id []]) w
               /\ vlans' = vlans ++ [(k, a)])
  end.
Proof.
  unfold _get_vlan_by_identifier, bind, hashable, get, ret, raise, assert_.
  destruct v as [k|l|d]; simpl; try (by intros [= <- <-]).
  destruct (dict_get k vlans) as [a|] eqn:Hk.
  { intros [= <- <-]. split; [by eapply dict_get_elem_of|by left]. }
  destruct (find _ _) as [a|] eqn:Hfind.
  { intros [= <- <-]. apply find_elem_of in Hfind as [Hin _].
    split; [done|by left]. }
  destruct (int0 _) as [n|] eqn:Hint; [|by intros [= <- <-]].
  destruct ((MIN_VID <=? n) && (n <=? MAX_VID)) eqn:Hr; simpl;
    [|by intros [= <- <-]].
  unfold new_vlan, dict_setdefault, dict_mem. rewrite Hk.
  rewrite (dict_get_app_None _ _ _ Hk). simpl. rewrite atom_eqb_refl. simpl.
  intros [= <- <-]. split.
  - unfold dict_values. rewrite fmap_app. apply elem_of_app. right. left.
  - right. exists k, n. apply andb_true_iff in Hr as [?%Z.leb_le ?%Z.leb_le].
    by repeat split.
Qed.

(** X1: whatever a successful resolution returned, resolving the same
    reference again on the same switch returns the same VLAN object and
    changes nothing: no second object, no second entry. *)
Theorem resolve_again dp_id v vlans vlans' a (w w' : World E) :
  get_vlan dp_id v vlans w = (Ok (a, vlans'), w') ->
  get_vlan dp_id v vlans' w' = (Ok (a, vlans'), w').
Proof.
  intros Hrun. pose proof (get_vlan_outcome _ _ _ _ _ _ Hrun) as [_ Hcase].
  destruct Hcase as [[-> ->]|(k & n & -> & Hk & _ & _ & -> & -> & ->)].
  - exact Hrun.
  - apply get_vlan_by_name. rewrite (dict_get_app_None _ _ _ Hk).
    simpl. by rewrite atom_eqb_refl.
Qed.

(** X2: a reference that is no configured name but is the string form of
    the id of VLANs of this switch resolves to the first of them, in the
    order of the switch's VLAN mapping, and nothing is created: a VLAN
    declared as "office" with id 100 is what "100" means. *)
Theorem resolve_by_id dp_id s (before after : dict addr) name a vlan (w : World E) :
  dict_get (AStr s) (before ++ (name, a) :: after) = None ->
  (forall a0 v0, a0 ∈ dict_values before -> heap w !! a0 = Some v0 ->
                 atom_str (vid v0) <> s) ->
  heap w !! a = Some vlan ->
  atom_str (vid vlan) = s ->
  get_vlan dp_id (VAtom (AStr s)) (before ++ (name, a) :: after) w =
    (Ok (a, before ++ (name, a) :: after), w).
Proof.
  intros Hname Hbefore Ha Hs.
  unfold _get_vlan_by_identifier, bind, hashable, get, ret. simpl.
  rewrite Hname.
  assert (Hfind : List.find (vid_matches (heap w) (AStr s))
                    (dict_values (before ++ (name, a) :: after)) = Some a).
  { clear Hname. induction before as [|[k0 a0] before IH]; simpl.
    - unfold vid_matches. rewrite Ha. cbn [atom_eq_str].
      by rewrite Hs, String.eqb_refl.
    - assert (H0 : vid_matches (heap w) (AStr s) a0 = false).
      { unfold vid_matches. destruct (heap w !! a0) as [v0|] eqn:Hv0; [|done].
        cbn [atom_eq_str]. apply String.eqb_neq. intros Heq.
        apply (Hbefore a0 v0); [left|done|done]. }
      rewrite H0. apply IH. intros a1 v1 Hin. apply Hbefore. by right. }
  by rewrite Hfind.
Qed.

Lemma get_vlan_frame dp_id v vlans (w w' : World E) res :
  get_vlan dp_id v vlans w = (res, w') ->
  heap w `prefix_of` heap w'
  /\ (length (heap w') <= S (length (heap w)))%nat
  /\ vid_dp w' = vid_dp w /\ ext w' = ext w
  /\ match res with
     | Raise _ => w' = w
     | Ok (a, vlans') =>
         vlans `prefix_of` vlans'
         /\ a ∈ dict_values vlans'
         /\ (vlans_valid vlans w -> vlans_valid vlans' w')
     end.
Proof.
  intros Hrun. pose proof (get_vlan_outcome _ _ _ _ _ _ Hrun) as Hout.
  destruct res as [[a vlans']|e].
  - destruct Hout as [Hin [[-> ->]|(k & n & -> & Hk & _ & _ & -> & -> & ->)]].
    + do 4 (split; [done || lia|]). done.
    + cbn [heap set_heap vid_dp ext]. split; [by apply prefix_app_r|].
      split; [rewrite length_app; simpl; lia|].
      do 2 (split; [done|]). split; [by apply prefix_app_r|]. split; [done|].
      intros Hvalid a0. unfold dict_values. cbn [heap set_heap].
      rewrite fmap_app, length_app.
      intros [Hin0|Hin0]%elem_of_app.
      * apply Hvalid in Hin0. lia.
      * apply list_elem_of_singleton in Hin0. simpl in Hin0. subst a0.
        simpl. lia.
  - subst w'. do 4 (split; [done || lia|]). done.
Qed.

(** X3: the resolver never modifies or removes a VLAN object or an entry
    of the switch's VLAN mapping, never touches [vid_dp], and creates at
    most one object; a failed resolution leaves the state as it was; a
    returned object is an object of the switch's mapping, and an object of
    the store when the mapping only held such objects. *)
Theorem resolution_frame dp_id v vlans (w w' : World E) res :
  get_vlan dp_id v vlans w = (res, w') ->
  heap w `prefix_of` heap w'
  /\ (length (heap w') <= S (length (heap w)))%nat
  /\ vid_dp w' = vid_dp w /\ ext w' = ext w
  /\ match res with
     | Raise _ => w' = w
     | Ok (a, vlans') =>
         vlans `prefix_of` vlans'
         /\ a ∈ dict_values vlans'
         /\ (vlans_valid vlans w -> vlans_valid vlans' w')
     end.
Proof. exact (get_vlan_frame dp_id v vlans w w' res). Qed.
End ResolverFrame.

(** ** VLANs shared between switches, continued *)

Section SharedVlansOutcome.
Context {E : Type}.

Lemma size_with_name (recorded : gset string) (name : string) :
  (1 <? size (recorded ∪ {[name]}))%nat = true
  <-> exists other, other ∈ recorded /\ other <> name.
Proof.
  rewrite Nat.ltb_lt. split.
  - intros Hsize.
    destruct (set_choose_or_empty (recorded ∖ {[name]})) as [[other Hin]|Hnone].
    + exists other. set_solver.
    + assert (Heq : recorded ∪ {[name]} = {[name]}).
      { apply leibniz_equiv. intros x.
        rewrite elem_of_union, elem_of_singleton.
        split; [intros [Hx|Hx]; [|done]|by right].
        destruct (decide (x = name)) as [|Hne]; [done|].
        exfalso. apply (not_elem_of_empty (C:=gset string) x).
        apply Hnone. apply elem_of_difference. split; [done|].
        by rewrite elem_of_singleton. }
      rewrite Heq, size_singleton in Hsize. lia.
  - intros (other & Hin & Hne).
    assert (Hsub : ({[other; name]} : gset string) ⊆ recorded ∪ {[name]}).
    { apply union_subseteq. split; [|apply union_subseteq_r].
      by apply singleton_subseteq_l, elem_of_union_l. }
    apply subseteq_size in Hsub.
    rewrite size_union, !size_singleton in Hsub by set_solver. lia.
Qed.

(** X4: attaching a VLAN that the switch does not have yet records the
    switch's name for the VLAN's id, and fails exactly when the VLAN
    declares [bgp_routerid] and a switch of another name is recorded for
    that id.  The check goes by switch name and by the VLAN being attached
    only: a switch that attaches several VLAN objects of one id, or two
    switches of the same name, never fail it. *)
Theorem add_vlan_outcome dp a v (w : World E) :
  a ∉ dp_vlans dp ->
  heap w !! a = Some v ->
  let recorded := vid_dp_get (vid v) (vid_dp w) in
  let names := recorded ∪ {[dp_name dp]} in
  let w' := set_vid_dp E (dict_set (vid v) names (vid_dp w)) w in
  ((truthy (bgp_routerid v) = true
    /\ exists other, other ∈ recorded /\ other <> dp_name dp) ->
   _dp_add_vlan E dp a w = (Raise (AssertionError (MsgBgpShared names)), w'))
  /\ ((truthy (bgp_routerid v) = false \/ recorded ⊆ {[dp_name dp]}) ->
      _dp_add_vlan E dp a w = (Ok (DP_add_vlan a dp), w')
      /\ vid_dp_get (vid v) (vid_dp w') = names).
Proof.
  intros Hnew Hv recorded names w'.
  assert (Hrun : _dp_add_vlan E dp a w =
            (if (1 <? size names)%nat
             then if truthy (bgp_routerid v)
                  then Raise (AssertionError (MsgBgpShared names))
                  else Ok (DP_add_vlan a dp)
             else Ok (DP_add_vlan a dp), w')).
  { unfold _dp_add_vlan. rewrite bool_decide_eq_false_2 by done.
    unfold bind, deref, modify, get, ret. rewrite Hv. cbn [vid_dp set_vid_dp].
    rewrite vid_dp_get_set. fold recorded. cbn [dp_name DP_add_vlan].
    fold names. fold w'.
    destruct (1 <? size names)%nat; [|done].
    by destruct (truthy (bgp_routerid v)). }
  split.
  - intros [Ht Hother]. apply size_with_name in Hother.
    fold names in Hother. by rewrite Hrun, Hother, Ht.
  - intros Hcase. split; [|subst w'; cbn [vid_dp set_vid_dp]; apply vid_dp_get_set].
    rewrite Hrun. destruct Hcase as [Ht|Hsub].
    + rewrite Ht. by destruct (1 <? size names)%nat.
    + destruct (1 <? size names)%nat eqn:Hsize; [|done].
      apply size_with_name in Hsize as (other & Hin & Hne). set_solver.
Qed.

(** An attached VLAN is not attached again, and nothing is recorded. *)
Lemma add_vlan_again dp a (w : World E) :
  a ∈ dp_vlans dp -> _dp_add_vlan E dp a w = (Ok dp, w).
Proof.
  intros Hin. unfold _dp_add_vlan. by rewrite bool_decide_eq_true_2.
Qed.
End SharedVlansOutcome.

(** ** The port-range expander, continued *)

Section PortRangeOutcome.

Lemma match_digits_shape s d :
  match_digits s = Some d -> exists c d', d = String c d' /\ all_digits d = true.
Proof.
  unfold match_digits. pose proof (span_digits_spec s) as Hs.
  destruct (span_digits s) as [d0 r]. destruct Hs as (Hd & _ & _).
  destruct d0 as [|c d']; [discriminate|]. intros [= <-]. by exists c, d'.
Qed.

Lemma digit_runs_ints l :
  (forall d, d ∈ l -> exists s, match_digits s = Some d) ->
  exists ints, mapM int10 l = Some ints.
Proof.
  induction l as [|d l IH]; intros Hl; [by exists []|].
  destruct (Hl d) as [s Hs]; [left|].
  apply match_digits_shape in Hs as (c & d' & -> & Hd).
  destruct (int10_digits c d' Hd) as [n Hn].
  destruct IH as [ints Hints]; [intros d0 Hin; apply Hl; by right|].
  exists (n :: ints). cbn [mapM]. rewrite Hn. cbn. by rewrite Hints.
Qed.

(** The loop over the tokens: it stops at the first token that is not in
    order, with that token's bounds; otherwise it has collected the numbers
    of every token. *)
Lemma range_tokens_loop toks : forall st res st',
  (forall tok, tok ∈ toks -> exists a b, token_bounds tok = Some (a, b)) ->
  forM_ toks range_token st = (res, st') ->
  port_nums st ⊆ port_nums st'
  /\ match res with
     | Ok _ =>
         forall tok a b n, tok ∈ toks -> token_bounds tok = Some (a, b) ->
                           a < b /\ (a <= n <= b -> n ∈ port_nums st')
     | Raise e =>
         exists tok a b, tok ∈ toks /\ token_bounds tok = Some (a, b)
                         /\ b <= a /\ e = AssertionError (MsgPortRange a b)
     end.
Proof.
  induction toks as [|tok toks IH]; intros st res st' Hall; simpl.
  - intros [= <- <-]. split; [done|]. intros tok a b n Hin.
    by apply elem_of_nil in Hin.
  - destruct (Hall tok) as (a0 & b0 & Hb0); [left|].
    unfold bind at 1. unfold range_token at 1. unfold bind at 1.
    rewrite Hb0. unfold ret at 1. unfold bind at 1. cbn [fst snd].
    unfold assert_.
    destruct (Z.ltb_spec a0 b0) as [Hlt|Hge].
    + unfold ret at 1, modify at 1. intros Hrest.
      apply IH in Hrest as [Hsub Hres];
        [|intros tok' Hin'; apply Hall; by right].
      cbn [port_nums] in Hsub.
      split; [etrans; [apply union_subseteq_l|exact Hsub]|].
      destruct res as [[]|e].
      * intros tok' a b n [->|Hin]%elem_of_cons Hb.
        -- rewrite Hb0 in Hb. injection Hb as <- <-. split; [done|].
           intros Hn. apply Hsub. apply elem_of_union_r.
           apply elem_of_list_to_set. unfold range. apply elem_of_seqZ. lia.
        -- exact (Hres tok' a b n Hin Hb).
      * destruct Hres as (tok' & a & b & Hin & Hrest).
        exists tok', a, b. split; [by right|done].
    + unfold raise. intros [= <- <-]. split; [done|].
      exists tok, a0, b0. split; [left|done].
Qed.

(** X5: the expansion of a range specification returns a set exactly when
    every one of its [start-end] tokens has its start below its end;
    otherwise it raises the range-ordering assertion with the bounds of
    such a token.  It raises nothing else: the "port range must be integer"
    assertion of line 134 cannot fail on a token the regular expression
    matched. *)
Theorem expand_port_range_outcome spec :
  match expand_port_range spec with
  | Ok _ =>
      forall tok a b, tok ∈ range_tokens spec ->
                      token_bounds tok = Some (a, b) -> a < b
  | Raise e =>
      exists tok a b, tok ∈ range_tokens spec /\ token_bounds tok = Some (a, b)
                      /\ b <= a /\ e = AssertionError (MsgPortRange a b)
  end.
Proof.
  unfold expand_port_range. fold (range_tokens spec).
  destruct (forM_ (range_tokens spec) range_token
              {| port_nums := ∅; port_range := spec |}) as [[[]|e] st] eqn:Hloop;
    apply range_tokens_loop in Hloop as [_ Hres];
    try (intros tok Hin; by apply (range_tokens_bounds spec)).
  - destruct (digit_runs_ints (findall match_digits (port_range st)))
      as [ints ->].
    + intros d Hin. by apply findall_from_matched in Hin.
    + intros tok a b Hin Hb. by apply (Hres tok a b 0).
  - exact Hres.
Qed.

(** X6: when the expansion succeeds, every number from the start to the
    end of every token, both included, is in the result. *)
Theorem expand_port_range_covers spec nums tok a b n :
  expand_port_range spec = Ok nums ->
  tok ∈ range_tokens spec ->
  token_bounds tok = Some (a, b) ->
  a <= n <= b ->
  n ∈ nums.
Proof.
  unfold expand_port_range. fold (range_tokens spec).
  destruct (forM_ (range_tokens spec) range_token
              {| port_nums := ∅; port_range := spec |}) as [[[]|e] st] eqn:Hloop;
    [|discriminate].
  apply range_tokens_loop in Hloop as [_ Hres];
    [|intros tok' Hin'; by apply (range_tokens_bounds spec)].
  destruct (mapM int10 _) as [ints|]; [|discriminate].
  intros [= <-] Hin Hb Hn. apply elem_of_union_l.
  by apply (Hres tok a b n Hin Hb).
Qed.
End PortRangeOutcome.

(** ** Individual ports and ranges, continued *)

Section Expansion.
Variable set_iter : gset Z -> list Z.

(** A property of element and state that the iteration on the element
    establishes and that every iteration keeps holds of every element after
    a loop that completes. *)
Lemma forM_each {S B} (P : B -> S -> Prop) (body : B -> M S unit) l :
  (forall x y s res s', P x s -> y ∈ l -> body y s = (res, s') -> P x s') ->
  (forall x s s', x ∈ l -> body x s = (Ok (), s') -> P x s') ->
  forall s s', forM_ l body s = (Ok (), s') -> forall x, x ∈ l -> P x s'.
Proof.
  induction l as [|y l IH]; intros Hkeep Hbody s s'; simpl.
  - intros _ x Hx. by apply elem_of_nil in Hx.
  - unfold bind. destruct (body y s) as [[[]|e] s1] eqn:Hy; [|discriminate].
    intros Hrest x [->|Hx]%elem_of_cons.
    + apply (forM_invariant (P y) body l) with (s := s1) (res := Ok ());
        [|by eapply Hbody; [left|]|done].
      intros z t res t' Hz Ht. apply Hkeep; [done|by right].
    + apply (IH (fun x y s res s' HP Hy' => Hkeep x y s res s' HP
                                               (list_elem_of_further _ _ _ Hy'))
                (fun x s s' Hx' => Hbody x s s' (list_elem_of_further _ _ _ Hx'))
                s1 s' Hrest x Hx).
Qed.

Lemma elem_of_dict_set {V} k (e : V) d x :
  x ∈ dict_set k e d -> x.2 = e \/ x ∈ d.
Proof.
  induction d as [|[k0 v0] d IH]; simpl.
  - intros ->%list_elem_of_singleton. by left.
  - destruct (atom_eqb k k0).
    + intros [->|Hin]%elem_of_cons; [by left|right; by right].
    + intros [->|Hin]%elem_of_cons; [right; left|].
      destruct (IH Hin); [by left|right; by right].
Qed.

Lemma zip_seq_elem_of {A} (l : list A) : forall start j x,
  l !! j = Some x -> ((start + j)%nat, x) ∈ zip (seq start (length l)) l.
Proof.
  induction l as [|y l IH]; intros start j x; [done|].
  destruct j as [|j]; simpl.
  - intros [= ->]. rewrite Nat.add_0_r. left.
  - intros Hj. right. replace (start + S j)%nat with (S start + j)%nat by lia.
    by apply IH.
Qed.

(** *** No port is invented *)

Lemma update_conf_accounted ports_conf ranges a f st :
  entries_accounted ports_conf ranges st ->
  entries_accounted ports_conf ranges
    {| confs := alter f a (confs st);
       port_num_to_port_conf := port_num_to_port_conf st |}.
Proof.
  intros [Hlen Hent]. split; [|done]. cbn [confs]. by rewrite length_alter.
Qed.

Lemma individual_ports_accounted ports_conf ranges res st :
  individual_ports ports_conf (initial_port_confs ports_conf ranges) = (res, st) ->
  entries_accounted ports_conf ranges st.
Proof.
  unfold individual_ports.
  apply (forM_invariant (entries_accounted ports_conf ranges)).
  - intros [i [port_ident port_conf]] s res' s' Hin [Hlen Hent].
    apply zip_seq_lookup in Hin as [_ Hl]. rewrite Nat.sub_0_r in Hl.
    unfold individual_port, bind.
    assert (Hset : forall port_num,
               entries_accounted ports_conf ranges
                 {| confs := confs s;
                    port_num_to_port_conf :=
                      dict_set port_num (port_ident, i) (port_num_to_port_conf s) |}).
    { intros port_num. split; [done|]. cbn [port_num_to_port_conf].
      intros e [He|Hold]%elem_of_dict_set; [|by apply Hent].
      left. unfold declared_entry. rewrite He. by eexists. }
    destruct (dict_mem (AStr "number") port_conf).
    + unfold hashable. destruct (conf_get "number" port_conf) as [k| |].
      * unfold ret, set_entry, modify. intros [= _ <-]. apply Hset.
      * unfold raise. by intros [= _ <-].
      * unfold raise. by intros [= _ <-].
    + unfold ret, set_entry, modify. intros [= _ <-]. apply Hset.
  - split.
    + unfold initial_port_confs. cbn [confs].
      by rewrite length_app, !length_fmap.
    + intros e Hin. by apply elem_of_nil in Hin.
Qed.

Lemma port_range_conf_accounted ports_conf ranges r spec c st res st' :
  (forall s n, n ∈ set_iter s -> n ∈ s) ->
  (r, (spec, c)) ∈ zip (seq (length ports_conf) (length ranges)) ranges ->
  entries_accounted ports_conf ranges st ->
  port_range_conf set_iter (r, (spec, c)) st = (res, st') ->
  entries_accounted ports_conf ranges st'.
Proof.
  intros Hiter Hin Hacc. apply zip_seq_lookup in Hin as [Hle Hj].
  unfold port_range_conf. unfold bind at 1.
  unfold conf_at. destruct (confs st !! r) as [rc|]; [|by intros [= _ <-]].
  unfold bind at 1.
  assert (Hdel : exists st1,
             entries_accounted ports_conf ranges st1
             /\ (if dict_mem (AStr "number") rc
                 then update_conf r (dict_del (AStr "number"))
                 else ret ()) st = (Ok (), st1)).
  { destruct (dict_mem (AStr "number") rc).
    - eexists. split; [|reflexivity]. by apply update_conf_accounted.
    - by exists st. }
  destruct Hdel as (st1 & Hacc1 & ->).
  unfold bind at 1. unfold lift_result.
  destruct (expand_port_range spec) as [nums|e] eqn:Hnums;
    [|unfold raise; by intros [= _ <-]].
  unfold ret at 1.
  apply (forM_invariant (entries_accounted ports_conf ranges)); [|done].
  intros z s res' s' Hz Hs. unfold range_port, bind, get.
  destruct (dict_get (AInt z) (port_num_to_port_conf s)) as [[id a]|] eqn:Hkey.
  - unfold conf_at. destruct (confs s !! r) as [c'|]; [|by intros [= _ <-]].
    apply (forM_invariant (entries_accounted ports_conf ranges)); [|done].
    intros [k v] t res'' t' _ Ht. unfold update_conf, modify.
    intros [= _ <-]. by apply update_conf_accounted.
  - unfold set_entry, modify. intros [= _ <-].
    destruct Hs as [Hlen Hent]. split; [done|]. cbn [port_num_to_port_conf].
    rewrite (dict_set_absent _ _ _ Hkey).
    intros e [He|He]%elem_of_app; [by apply Hent|].
    apply list_elem_of_singleton in He as ->.
    right. exists (r - length ports_conf)%nat, spec, c, nums, z.
    split; [done|]. split; [done|]. split; [by apply Hiter|].
    by replace (length ports_conf + (r - length ports_conf))%nat with r by lia.
Qed.

(** X7: the expansion invents no port and loses no configuration object.
    When a loop over a set visits elements of the set only, every entry of
    the resulting [port_num_to_port_conf] is either that of an individually
    declared port, with the port's identifier and its own configuration, or
    that of a number in the expansion of a range, with the number as key
    and identifier and the configuration object of that range (shared by
    all such numbers of the range). *)
Theorem expansion_sound ports_conf port_ranges_conf st :
  (forall s n, n ∈ set_iter s -> n ∈ s) ->
  expand_ports set_iter ports_conf port_ranges_conf = Ok st ->
  length (confs st) = (length ports_conf + length port_ranges_conf)%nat
  /\ forall e, e ∈ port_num_to_port_conf st ->
       declared_entry ports_conf e \/ range_entry ports_conf port_ranges_conf e.
Proof.
  intros Hiter. unfold expand_ports, bind.
  destruct (individual_ports ports_conf _) as [[[]|e] st1] eqn:Hind;
    [|discriminate].
  apply individual_ports_accounted in Hind.
  destruct (port_ranges set_iter _ _ st1) as [[[]|e] st2] eqn:Hranges;
    [|discriminate].
  intros [= <-]. revert Hranges. unfold port_ranges.
  apply (forM_invariant (entries_accounted ports_conf port_ranges_conf));
    [|done].
  intros [r [spec c]] s res s' Hin Hs. by apply port_range_conf_accounted.
Qed.

(** *** Every number of every range is a port *)

Lemma range_port_keeps_entry z r n st res st' :
  has_entry z st -> range_port r n st = (res, st') -> has_entry z st'.
Proof.
  intros Hz. unfold range_port, bind, get.
  destruct (dict_get (AInt n) (port_num_to_port_conf st)) as [[id a]|] eqn:Hn.
  - unfold conf_at. destruct (confs st !! r) as [c|]; [|by intros [= _ <-]].
    apply (forM_invariant (has_entry z)); [|done].
    intros [k v] s res' s' _ Hs. unfold update_conf, modify.
    by intros [= _ <-].
  - unfold set_entry, modify. intros [= _ <-]. unfold has_entry in *.
    cbn [port_num_to_port_conf]. rewrite (dict_set_absent _ _ _ Hn).
    destruct Hz as [e He]. exists e. by apply dict_get_app_Some.
Qed.

Lemma range_port_entry r n st st' :
  range_port r n st = (Ok (), st') -> has_entry n st'.
Proof.
  unfold range_port, bind, get.
  destruct (dict_get (AInt n) (port_num_to_port_conf st)) as [[id a]|] eqn:Hn.
  - unfold conf_at. destruct (confs st !! r) as [c|]; [|discriminate].
    apply (forM_invariant (has_entry n)); [|by eexists].
    intros [k v] s res' s' _ Hs. unfold update_conf, modify.
    by intros [= _ <-].
  - unfold set_entry, modify. intros [= <-]. unfold has_entry.
    cbn [port_num_to_port_conf]. rewrite (dict_set_absent _ _ _ Hn).
    rewrite (dict_get_app_None _ _ _ Hn). simpl. rewrite Z.eqb_refl. by eexists.
Qed.

Lemma port_range_conf_keeps_entry z x st res st' :
  has_entry z st -> port_range_conf set_iter x st = (res, st') -> has_entry z st'.
Proof.
  destruct x as [r [spec c]]. intros Hz.
  unfold port_range_conf. unfold bind at 1.
  unfold conf_at. destruct (confs st !! r) as [rc|]; [|by intros [= _ <-]].
  unfold bind at 1.
  assert (Hdel : exists st1,
             has_entry z st1
             /\ (if dict_mem (AStr "number") rc
                 then update_conf r (dict_del (AStr "number"))
                 else ret ()) st = (Ok (), st1)).
  { destruct (dict_mem (AStr "number") rc);
      (eexists; split; [|reflexivity]; exact Hz). }
  destruct Hdel as (st1 & Hz1 & ->).
  unfold bind at 1. unfold lift_result.
  destruct (expand_port_range spec) as [nums|e];
    [|unfold raise; by intros [= _ <-]].
  unfold ret at 1. apply (forM_invariant (has_entry z)); [|done].
  intros n s res' s' _ Hs. by apply range_port_keeps_entry.
Qed.

Lemma port_range_conf_entries r spec c nums z st st' :
  (forall s n, n ∈ s -> n ∈ set_iter s) ->
  expand_port_range spec = Ok nums -> z ∈ nums ->
  port_range_conf set_iter (r, (spec, c)) st = (Ok (), st') ->
  has_entry z st'.
Proof.
  intros Hiter Hnums Hz. unfold port_range_conf. unfold bind at 1.
  unfold conf_at. destruct (confs st !! r) as [rc|]; [|discriminate].
  unfold bind at 1.
  destruct ((if dict_mem (AStr "number") rc
             then update_conf r (dict_del (AStr "number"))
             else ret ()) st) as [[[]|e] st1]; [|discriminate].
  unfold bind at 1. rewrite Hnums. unfold lift_result, ret at 1.
  intros Hloop.
  apply (forM_each (fun n s => has_entry n s) (range_port r) (set_iter nums)
           (fun x y s res s' HP _ => range_port_keeps_entry x r y s res s' HP)
           (fun x s s' _ => range_port_entry r x s s') st1 st' Hloop).
  by apply Hiter.
Qed.

(** X8: every number of every range becomes a port.  When a loop over a
    set visits every element of the set, after a successful expansion
    [port_num_to_port_conf] has an entry for every number in the expansion
    of every range specification. *)
Theorem expansion_complete ports_conf port_ranges_conf st j spec c nums z :
  (forall s n, n ∈ s -> n ∈ set_iter s) ->
  expand_ports set_iter ports_conf port_ranges_conf = Ok st ->
  port_ranges_conf !! j = Some (spec, c) ->
  expand_port_range spec = Ok nums ->
  z ∈ nums ->
  exists port_ident a,
    dict_get (AInt z) (port_num_to_port_conf st) = Some (port_ident, a).
Proof.
  intros Hiter. unfold expand_ports, bind.
  destruct (individual_ports ports_conf _) as [[[]|e] st1]; [|discriminate].
  destruct (port_ranges set_iter _ _ st1) as [[[]|e] st2] eqn:Hranges;
    [|discriminate].
  intros [= <-] Hj Hnums Hz. unfold port_ranges in Hranges.
  pose proof (forM_each
    (fun (x : addr * (string * conf)) s =>
       forall nums', expand_port_range x.2.1 = Ok nums' ->
                     forall z', z' ∈ nums' -> has_entry z' s)
    (port_range_conf set_iter) _
    (fun x y s res s' HP _ Hy nums' Hn z' Hz' =>
       port_range_conf_keeps_entry z' y s res s' (HP nums' Hn z' Hz') Hy)
    (fun x s s' _ =>
       match x with
       | (r, (spec', c')) => fun Hx nums' Hn z' Hz' =>
           port_range_conf_entries r spec' c' nums' z' s s' Hiter Hn Hz' Hx
       end) st1 st2 Hranges) as Hall.
  destruct (Hall _ (zip_seq_elem_of port_ranges_conf (length ports_conf) j _ Hj)
              nums Hnums z Hz) as [[id a] He].
  by exists id, a.
Qed.
End Expansion.

(** ** The port assembler, continued *)

Section PortMembership.
Context {E : Type}.
Variables MIN_VID MAX_VID : Z.

Local Abbreviation get_vlan := (_get_vlan_by_identifier E MIN_VID MAX_VID).
Local Abbreviation parse_port := (_dp_parse_port E MIN_VID MAX_VID).

Lemma foldM_invariant {S A B} (I : S -> Prop) (body : A -> B -> M S A) l :
  (forall acc x s res s', x ∈ l -> I s -> body acc x s = (res, s') -> I s') ->
  forall acc s res s', I s -> foldM body acc l s = (res, s') -> I s'.
Proof.
  induction l as [|x l IH]; intros Hbody acc s res s' Hs; simpl.
  - by intros [= _ <-].
  - unfold bind. destruct (body acc x s) as [[acc1|e] s1] eqn:Hx.
    + apply IH.
      * intros acc0 y t res' t' Hy. apply Hbody. by right.
      * eapply Hbody; [left|done|done].
    + intros [= _ <-]. eapply Hbody; [left|done|done].
Qed.

Lemma foldM_result {S A B} (J : A -> S -> Prop) (body : A -> B -> M S A) l :
  (forall acc x s acc' s', x ∈ l -> J acc s ->
     body acc x s = (Ok acc', s') -> J acc' s') ->
  forall acc s acc' s', J acc s -> foldM body acc l s = (Ok acc', s') -> J acc' s'.
Proof.
  induction l as [|x l IH]; intros Hbody acc s acc' s' Hs; simpl.
  - by intros [= <- <-].
  - unfold bind. destruct (body acc x s) as [[acc1|e] s1] eqn:Hx; [|done].
    apply IH.
    + intros acc0 y t acc0' t' Hy. apply Hbody. by right.
    + eapply Hbody; [left|done|done].
Qed.

Lemma vlan_grows_refl v : vlan_grows v v.
Proof. by repeat split. Qed.

Lemma vlan_grows_trans v1 v2 v3 :
  vlan_grows v1 v2 -> vlan_grows v2 v3 -> vlan_grows v1 v3.
Proof.
  intros (H1 & H2 & H3 & H4 & H5) (G1 & G2 & G3 & G4 & G5).
  repeat split; try congruence; by etrans.
Qed.

Lemma heap_grows_refl h : heap_grows h h.
Proof.
  split; [done|]. intros a v Hv. exists v. split; [done|apply vlan_grows_refl].
Qed.

Lemma heap_grows_trans h1 h2 h3 :
  heap_grows h1 h2 -> heap_grows h2 h3 -> heap_grows h1 h3.
Proof.
  intros [Hl1 H1] [Hl2 H2]. split; [lia|]. intros a v Hv.
  destruct (H1 a v Hv) as (v2 & Hv2 & Hg2).
  destruct (H2 a v2 Hv2) as (v3 & Hv3 & Hg3).
  exists v3. split; [done|by eapply vlan_grows_trans].
Qed.

Lemma heap_grows_app h new : heap_grows h (h ++ new).
Proof.
  split; [rewrite length_app; lia|].
  intros a v Hv. exists v. split; [|apply vlan_grows_refl].
  by apply lookup_app_l_Some.
Qed.

Lemma heap_grows_alter (f : VLAN -> VLAN) a h :
  (forall v, vlan_grows v (f v)) -> heap_grows h (alter f a h).
Proof.
  intros Hf. split; [by rewrite length_alter|]. intros a0 v Hv.
  destruct (decide (a = a0)) as [->|Hne].
  - exists (f v). split; [|apply Hf]. by rewrite list_lookup_alter_eq, Hv.
  - exists v. split; [|apply vlan_grows_refl].
    by rewrite list_lookup_alter_ne.
Qed.

Lemma add_tagged_grows p v : vlan_grows v (VLAN_add_tagged p v).
Proof. repeat split; try done. by apply prefix_app_r. Qed.

Lemma add_untagged_grows p v : vlan_grows v (VLAN_add_untagged p v).
Proof. repeat split; try done. by apply prefix_app_r. Qed.

Lemma member_tagged_grows p a h h' :
  heap_grows h h' -> member_tagged p a h -> member_tagged p a h'.
Proof.
  intros [_ Hg] (v & Hv & Hp). destruct (Hg a v Hv) as (v' & Hv' & Hgv).
  exists v'. split; [done|]. destruct Hgv as (_ & _ & _ & [k ->] & _).
  apply elem_of_app. by left.
Qed.

Lemma member_untagged_grows p a h h' :
  heap_grows h h' -> member_untagged p a h -> member_untagged p a h'.
Proof.
  intros [_ Hg] (v & Hv & Hp). destruct (Hg a v Hv) as (v' & Hv' & Hgv).
  exists v'. split; [done|]. destruct Hgv as (_ & _ & _ & _ & [k ->]).
  apply elem_of_app. by left.
Qed.

Lemma vlans_valid_grows (vlans : dict addr) (w w' : World E) :
  (length (heap w) <= length (heap w'))%nat ->
  vlans_valid vlans w -> vlans_valid vlans w'.
Proof. intros Hl Hv a Ha. apply Hv in Ha. lia. Qed.

(** The resolver on the store. *)
Lemma get_vlan_grows dp_id v vlans (w w' : World E) res :
  get_vlan dp_id v vlans w = (res, w') ->
  heap_grows (heap w) (heap w') /\ vid_dp w' = vid_dp w /\ ext w' = ext w.
Proof.
  intros Hrun. pose proof (get_vlan_outcome _ _ _ _ _ _ _ _ Hrun) as Hout.
  destruct res as [[a vlans']|e].
  - destruct Hout as [_ [[-> ->]|(k & n & _ & _ & _ & _ & _ & -> & _)]].
    + split; [apply heap_grows_refl|done].
    + split; [apply heap_grows_app|done].
  - subst w'. split; [apply heap_grows_refl|done].
Qed.

Lemma get_vlan_valid dp_id v vlans vlans' a (w w' : World E) :
  vlans_valid vlans w ->
  get_vlan dp_id v vlans w = (Ok (a, vlans'), w') ->
  (a < length (heap w'))%nat /\ vlans_valid vlans' w' /\ vlans `prefix_of` vlans'.
Proof.
  intros Hvalid Hrun.
  destruct (get_vlan_frame _ _ _ _ _ _ _ _ Hrun)
    as (_ & _ & _ & _ & Hpre & Hin & Hv).
  split; [by apply Hv|]. split; [by apply Hv|done].
Qed.

(** The loop that registers a port as tagged member. *)
Lemma tag_all p l : forall w w' : World E,
  forM_ l (fun vlan => update_vlan E vlan (VLAN_add_tagged p)) w = (Ok (), w') ->
  heap_grows (heap w) (heap w') /\ length (heap w') = length (heap w)
  /\ vid_dp w' = vid_dp w /\ ext w' = ext w
  /\ forall a, a ∈ l -> (a < length (heap w))%nat -> member_tagged p a (heap w').
Proof.
  induction l as [|a l IH]; intros w w'; simpl.
  - intros [= <-]. split; [apply heap_grows_refl|]. do 3 (split; [done|]).
    intros a Ha. by apply elem_of_nil in Ha.
  - unfold bind, update_vlan at 1, modify. intros Hrest.
    apply IH in Hrest as (Hg & Hlen & Hvd & Hext & Hmem).
    cbn [heap set_heap vid_dp ext] in *.
    assert (Hstep : heap_grows (heap w) (alter (VLAN_add_tagged p) a (heap w)))
      by apply heap_grows_alter, add_tagged_grows.
    split; [by eapply heap_grows_trans|].
    rewrite length_alter in *. do 3 (split; [done|]).
    intros a0 [->|Hin]%elem_of_cons Hlt; [|by apply Hmem].
    apply (member_tagged_grows p a _ _ Hg).
    destruct (lookup_lt_is_Some_2 (heap w) a Hlt) as [v Hv].
    exists (VLAN_add_tagged p v). split.
    + by rewrite list_lookup_alter_eq, Hv.
    + simpl. apply elem_of_app. right. left.
Qed.

(** The loop that resolves the tagged references. *)
Lemma resolve_tagged_valid dp_id idents : forall acc (w w' : World E) l vlans',
  vlans_valid (snd acc) w ->
  (forall a, a ∈ fst acc -> (a < length (heap w))%nat) ->
  foldM (resolve_tagged E MIN_VID MAX_VID dp_id) acc idents w = (Ok (l, vlans'), w') ->
  vlans_valid vlans' w' /\ (forall a, a ∈ l -> (a < length (heap w'))%nat)
  /\ snd acc `prefix_of` vlans'.
Proof.
  induction idents as [|v idents IH]; intros acc w w' l vlans' Hvalid Hacc; simpl.
  - intros [= -> <-]. by cbn [fst snd] in *.
  - unfold bind at 1. unfold resolve_tagged at 1. unfold bind at 1.
    destruct (get_vlan dp_id v (snd acc) w) as [[[a vlans1]|e] w1] eqn:Hget;
      [|discriminate].
    unfold ret at 1. cbn [fst snd]. intros Hrest.
    pose proof (get_vlan_grows _ _ _ _ _ _ Hget) as ([Hlen _] & _ & _).
    destruct (get_vlan_valid _ _ _ _ _ _ _ Hvalid Hget) as (Ha & Hvalid1 & Hpre1).
    apply IH in Hrest as (Hv' & Hl' & Hpre'); cbn [fst snd].
    + split; [done|]. split; [done|]. by etrans.
    + done.
    + intros a0 [Hin|Hin]%elem_of_app.
      * apply Hacc in Hin. lia.
      * apply list_elem_of_singleton in Hin as ->. done.
Qed.
End PortMembership.

Section PortRegistration.
Context {E : Type}.
Variables MIN_VID MAX_VID : Z.

Local Abbreviation get_vlan := (_get_vlan_by_identifier E MIN_VID MAX_VID).
Local Abbreviation parse_port := (_dp_parse_port E MIN_VID MAX_VID).

Lemma world_grows_refl (w : World E) : world_grows w w.
Proof. split; [apply heap_grows_refl|done]. Qed.

Lemma world_grows_trans (w1 w2 w3 : World E) :
  world_grows w1 w2 -> world_grows w2 w3 -> world_grows w1 w3.
Proof.
  intros (H1 & H2 & H3) (G1 & G2 & G3).
  split; [by eapply heap_grows_trans|]. split; congruence.
Qed.

Lemma update_vlan_grows a (f : VLAN -> VLAN) (w : World E) :
  (forall v, vlan_grows v (f v)) ->
  world_grows w (set_heap E (alter f a (heap w)) w).
Proof. intros Hf. split; [by apply heap_grows_alter|done]. Qed.

(** Lines 99-103 on the store and on the port. *)
Lemma resolve_native_spec dp_id port vlans (w w' : World E) res :
  resolve_native E MIN_VID MAX_VID dp_id port vlans w = (res, w') ->
  world_grows w w'
  /\ forall port' vlans', res = Ok (port', vlans') ->
       port_id port' = port_id port /\ port_conf port' = port_conf port
       /\ tagged_vlans port' = tagged_vlans port /\ stack port' = stack port
       /\ (vlans_valid vlans w ->
           vlans_valid vlans' w' /\ vlans `prefix_of` vlans'
           /\ match native_vlan port with
              | Ident (VAtom ANone) => native_vlan port' = Ident (VAtom ANone)
              | Ident _ =>
                  exists a, native_vlan port' = Obj a
                            /\ member_untagged (port_id port) a (heap w')
              | Obj a => native_vlan port' = Obj a
              end).
Proof.
  unfold resolve_native.
  assert (Hsame : (ret (port, vlans) : M (World E) _) w = (res, w') ->
            w' = w
            /\ forall port' vlans', res = Ok (port', vlans') ->
                 port' = port /\ vlans' = vlans).
  { intros [= <- <-]. split; [done|].
    by intros port' vlans' [= <- <-]. }
  assert (Hresolve : forall v,
    (r <- get_vlan dp_id v vlans;;
     update_vlan E r.1 (VLAN_add_untagged (port_id port));;
     ret (Port_set_native_vlan r.1 port, r.2)) w = (res, w') ->
    world_grows w w'
    /\ forall port' vlans', res = Ok (port', vlans') ->
         port_id port' = port_id port /\ port_conf port' = port_conf port
         /\ tagged_vlans port' = tagged_vlans port /\ stack port' = stack port
         /\ (vlans_valid vlans w ->
             vlans_valid vlans' w' /\ vlans `prefix_of` vlans'
             /\ exists a, native_vlan port' = Obj a
                          /\ member_untagged (port_id port) a (heap w'))).
  { intros v. unfold bind at 1.
    destruct (get_vlan dp_id v vlans w) as [[[a vlans1]|e] w1] eqn:Hget.
    - unfold bind, update_vlan, modify, ret. cbn [fst snd].
      intros [= <- <-].
      pose proof (get_vlan_grows _ _ _ _ _ _ _ _ Hget) as Hg.
      split.
      { eapply world_grows_trans; [exact Hg|].
        apply update_vlan_grows, add_untagged_grows. }
      intros port' vlans' [= <- <-]. do 4 (split; [done|]).
      intros Hvalid.
      destruct (get_vlan_valid _ _ _ _ _ _ _ _ _ Hvalid Hget)
        as (Ha & Hvalid1 & Hpre).
      split.
      { intros a0 Ha0. cbn [heap set_heap]. rewrite length_alter.
        by apply Hvalid1. }
      split; [done|]. exists a. split; [done|]. cbn [heap set_heap].
      destruct (lookup_lt_is_Some_2 (heap w1) a Ha) as [v1 Hv1].
      exists (VLAN_add_untagged (port_id port) v1). split.
      + by rewrite list_lookup_alter_eq, Hv1.
      + simpl. apply elem_of_app. right. left.
    - intros [= <- <-].
      pose proof (get_vlan_grows _ _ _ _ _ _ _ _ Hget) as Hg.
      split; [done|]. by intros port' vlans' [=]. }
  destruct (native_vlan port) as [[[| | |]| |]|] eqn:Hn;
    try (intros Hrun; destruct (Hresolve _ Hrun) as [Hg Hok];
         split; [exact Hg|exact Hok]).
  - intros Hrun. destruct (Hsame Hrun) as [-> Hok].
    split; [apply world_grows_refl|].
    intros port' vlans' Hres. destruct (Hok _ _ Hres) as [-> ->].
    do 4 (split; [done|]). intros Hvalid. by rewrite Hn.
  - intros Hrun. destruct (Hsame Hrun) as [-> Hok].
    split; [apply world_grows_refl|].
    intros port' vlans' Hres. destruct (Hok _ _ Hres) as [-> ->].
    do 4 (split; [done|]). intros Hvalid. by rewrite Hn.
Qed.

(** Lines 104-108 on the store and on the port. *)
Lemma resolve_tagged_vlans_spec dp_id port vlans (w w' : World E) res :
  resolve_tagged_vlans E MIN_VID MAX_VID dp_id port vlans w = (res, w') ->
  world_grows w w'
  /\ forall port' vlans', res = Ok (port', vlans') ->
       port_id port' = port_id port /\ port_conf port' = port_conf port
       /\ native_vlan port' = native_vlan port /\ stack port' = stack port
       /\ exists l, tagged_vlans port' = Objs l
          /\ (vlans_valid vlans w ->
              vlans_valid vlans' w' /\ vlans `prefix_of` vlans'
              /\ forall a, a ∈ l -> member_tagged (port_id port) a (heap w')).
Proof.
  unfold resolve_tagged_vlans. unfold bind at 1.
  destruct ((match tagged_vlans port with
             | Idents v => iter v
             | Objs _ => ret []
             end) w) as [[idents|e] w0] eqn:Hiter.
  2:{ assert (w0 = w) as ->.
      { destruct (tagged_vlans port) as [v|]; [|discriminate].
        unfold iter in Hiter. destruct (iter_list v); [discriminate|].
        by injection Hiter as _ <-. }
      intros [= <- <-]. split; [apply world_grows_refl|].
      by intros port' vlans' [=]. }
  assert (w0 = w) as ->.
  { destruct (tagged_vlans port) as [v|]; [|by injection Hiter as _ <-].
    unfold iter in Hiter. destruct (iter_list v); [|discriminate].
    by injection Hiter as _ <-. }
  clear Hiter. unfold bind at 1.
  destruct (foldM _ ([], vlans) idents w) as [[[l vlans1]|e] w1] eqn:Hfold.
  - assert (Hg1 : world_grows w w1).
    { revert Hfold. apply (foldM_invariant (world_grows w)).
      - intros acc v s res' s' _ Hs. unfold resolve_tagged, bind.
        destruct (get_vlan dp_id v acc.2 s) as [[r|e] s1] eqn:Hget;
          intros [= _ <-]; (eapply world_grows_trans; [exact Hs|]);
          exact (get_vlan_grows _ _ _ _ _ _ _ _ Hget).
      - apply world_grows_refl. }
    unfold bind at 1. cbn [fst snd].
    destruct (forM_ l _ w1) as [[[]|e] w2] eqn:Htag.
    + destruct (tag_all _ _ _ _ Htag) as (Hg2 & Hlen2 & Hvd2 & Hext2 & Hmem).
      unfold ret. intros [= <- <-].
      assert (Hg : world_grows w w2).
      { eapply world_grows_trans; [exact Hg1|]. by split. }
      split; [done|]. intros port' vlans' [= <- <-].
      do 4 (split; [done|]). exists l. split; [done|].
      intros Hvalid.
      destruct (resolve_tagged_valid MIN_VID MAX_VID dp_id idents ([], vlans)
                  w w1 l vlans1 Hvalid) as (Hv1 & Hl1 & Hpre1); [|done|].
      { intros a Ha. by apply elem_of_nil in Ha. }
      split.
      { intros a Ha. rewrite Hlen2. by apply Hv1. }
      split; [done|]. intros a Ha. apply Hmem; [done|by apply Hl1].
    + destruct (update_all_ok
                  (VLAN_add_tagged (port_id (Port_set_tagged_vlans l port)))
                  l w1) as [w3 Hok].
      rewrite Hok in Htag. discriminate.
  - intros [= <- <-]. split; [|by intros port' vlans' [=]].
    revert Hfold. apply (foldM_invariant (world_grows w)).
    + intros acc v s res' s' _ Hs. unfold resolve_tagged, bind.
      destruct (get_vlan dp_id v acc.2 s) as [[r|e'] s1] eqn:Hget;
        intros [= _ <-]; (eapply world_grows_trans; [exact Hs|]);
        exact (get_vlan_grows _ _ _ _ _ _ _ _ Hget).
    + apply world_grows_refl.
Qed.

Lemma parse_port_grows dp_id p_identifier port_conf vlans (w w' : World E) res :
  parse_port dp_id p_identifier port_conf vlans w = (res, w') ->
  world_grows w w'.
Proof.
  unfold _dp_parse_port. unfold bind at 1.
  destruct (resolve_native _ _ _ _ _ _ w) as [[pv1|e] w1] eqn:Hnat;
    pose proof (resolve_native_spec _ _ _ _ _ _ Hnat) as [Hg1 _];
    [|by intros [= _ <-]].
  unfold bind at 1.
  destruct (resolve_tagged_vlans _ _ _ _ _ _ w1) as [[pv2|e] w2] eqn:Htag;
    pose proof (resolve_tagged_vlans_spec _ _ _ _ _ _ Htag) as [Hg2 _];
    [|intros [= _ <-]; by eapply world_grows_trans].
  unfold bind, assert_, ret, raise.
  destruct (has_vlan_or_stack pv2.1); intros [= _ <-];
    by eapply world_grows_trans.
Qed.

(** X9: port assembly never changes the id, the owner or the routing
    marker of a VLAN object, never detaches a port from one, and leaves
    [vid_dp] alone, whether it succeeds or fails. *)
Theorem parse_port_frame dp_id p_identifier port_conf vlans (w w' : World E) res :
  parse_port dp_id p_identifier port_conf vlans w = (res, w') ->
  world_grows w w'.
Proof. exact (parse_port_grows dp_id p_identifier port_conf vlans w w' res). Qed.

(** X10: a port that is assembled is registered with its VLANs.  On a
    switch whose VLAN mapping refers to objects of the store, a successful
    port assembly returns a port with the identifier it was declared with,
    whose references are all resolved to VLAN objects, which has a VLAN or
    is a stack port; the port is an untagged member of its native VLAN and
    a tagged member of each of its tagged VLANs; the mapping has only been
    extended. *)
Theorem parse_port_registers dp_id p_identifier port_conf vlans vlans' port
    (w w' : World E) :
  vlans_valid vlans w ->
  parse_port dp_id p_identifier port_conf vlans w = (Ok (port, vlans'), w') ->
  port_id port = p_identifier
  /\ has_vlan_or_stack port = true
  /\ (exists l, tagged_vlans port = Objs l
                /\ forall a, a ∈ l -> member_tagged p_identifier a (heap w'))
  /\ (native_vlan port = Ident (VAtom ANone)
      \/ exists a, native_vlan port = Obj a
                   /\ member_untagged p_identifier a (heap w'))
  /\ vlans_valid vlans' w' /\ vlans `prefix_of` vlans'.
Proof.
  intros Hvalid. unfold _dp_parse_port. unfold bind at 1.
  destruct (resolve_native _ _ _ _ _ _ w) as [[[port1 vlans1]|e] w1] eqn:Hnat;
    [|discriminate].
  destruct (resolve_native_spec _ _ _ _ _ _ Hnat) as [Hg1 Hok1].
  destruct (Hok1 _ _ eq_refl) as (Hid1 & _ & _ & _ & Hrest1).
  destruct (Hrest1 Hvalid) as (Hvalid1 & Hpre1 & Hnative).
  unfold bind at 1. cbn [fst snd].
  destruct (resolve_tagged_vlans _ _ _ _ _ _ w1) as [[[port2 vlans2]|e] w2] eqn:Htag;
    [|discriminate].
  destruct (resolve_tagged_vlans_spec _ _ _ _ _ _ Htag) as [Hg2 Hok2].
  destruct (Hok2 _ _ eq_refl) as (Hid2 & _ & Hnat2 & _ & l & Hl & Hrest2).
  destruct (Hrest2 Hvalid1) as (Hvalid2 & Hpre2 & Hmem).
  unfold bind, assert_, ret, raise. cbn [fst snd].
  destruct (has_vlan_or_stack port2) eqn:Hcheck; [|discriminate].
  intros [= <- <- <-].
  assert (Hid : port_id port2 = p_identifier) by (by rewrite Hid2, Hid1).
  split; [done|]. split; [done|].
  split.
  { exists l. split; [done|]. intros a Ha. rewrite <- Hid, Hid2. by apply Hmem. }
  split.
  { rewrite Hnat2. cbn [native_vlan Port_new] in Hnative.
    destruct (conf_get "native_vlan" port_conf) as [[| | |]| |];
      try (destruct Hnative as (a & Ha & Hm); right; exists a; split; [done|];
           by apply (member_untagged_grows _ _ _ _ (proj1 Hg2))).
    by left. }
  split; [done|]. by etrans.
Qed.
End PortRegistration.

(** ** The switch assembler *)

Section SwitchAssembler.
Context {E : Type}.
Variables MIN_VID MAX_VID : Z.
Variable set_iter : gset Z -> list Z.
Variable sanity_check : DP -> M (World E) unit.

Local Abbreviation add_ports := (_dp_add_ports E MIN_VID MAX_VID set_iter).
Local Abbreviation assemble :=
  (assemble_dp E MIN_VID MAX_VID set_iter sanity_check).

Lemma same_switch_refl dp : same_switch dp dp.
Proof. by repeat split. Qed.

Lemma same_switch_trans dp1 dp2 dp3 :
  same_switch dp1 dp2 -> same_switch dp2 dp3 -> same_switch dp1 dp3.
Proof.
  intros (H1 & H2 & H3 & H4 & H5 & H6) (G1 & G2 & G3 & G4 & G5 & G6).
  repeat split; congruence.
Qed.

(** One step of the loop of lines 151-153. *)
Lemma add_used_vlan_spec dp a (w w' : World E) res :
  add_used_vlan E dp a w = (res, w') ->
  heap w' = heap w /\ ext w' = ext w
  /\ forall dp', res = Ok dp' ->
       same_switch dp dp' /\ dp_ports dp' = dp_ports dp
       /\ ((dp_vlans dp' = dp_vlans dp
            /\ (a ∈ dp_vlans dp \/ (~ has_ports a (heap w))))
           \/ (dp_vlans dp' = dp_vlans dp ++ [a] /\ (a ∉ dp_vlans dp)
               /\ has_ports a (heap w))).
Proof.
  unfold add_used_vlan, bind, deref.
  destruct (heap w !! a) as [v|] eqn:Hv.
  2:{ intros [= <- <-]. do 2 (split; [done|]). by intros dp' [=]. }
  destruct (VLAN_get_ports v) as [|p ports] eqn:Hports.
  { intros [= <- <-]. do 2 (split; [done|]). intros dp' [= <-].
    split; [apply same_switch_refl|]. split; [done|]. left. split; [done|].
    right. intros (v' & Hv' & Hne). rewrite Hv in Hv'. injection Hv' as <-.
    by rewrite Hports in Hne. }
  assert (Hhas : has_ports a (heap w)).
  { exists v. split; [done|]. by rewrite Hports. }
  unfold _dp_add_vlan. destruct (decide (a ∈ dp_vlans dp)) as [Hin|Hnin].
  - rewrite bool_decide_eq_true_2 by done. intros [= <- <-].
    do 2 (split; [done|]). intros dp' [= <-].
    split; [apply same_switch_refl|]. split; [done|]. left. by split; [|left].
  - rewrite bool_decide_eq_false_2 by done.
    unfold bind, deref, modify, get, ret, assert_, raise. rewrite Hv.
    cbn [heap vid_dp set_vid_dp].
    destruct (1 <? size _)%nat; [destruct (negb _)|];
      intros [= <- <-]; (do 2 (split; [done|])); intros dp' [= <-];
      (split; [by repeat split|]); (split; [done|]); right; by repeat split.
Qed.

Lemma add_used_vlans_spec addrs : forall dp dp' (w w' : World E),
  foldM (add_used_vlan E) dp addrs w = (Ok dp', w') ->
  heap w' = heap w /\ ext w' = ext w
  /\ same_switch dp dp' /\ dp_ports dp' = dp_ports dp
  /\ dp_vlans dp `prefix_of` dp_vlans dp'
  /\ forall a, a ∈ dp_vlans dp' <->
               a ∈ dp_vlans dp \/ (a ∈ addrs /\ has_ports a (heap w)).
Proof.
  induction addrs as [|a addrs IH]; intros dp dp' w w'; simpl.
  - intros [= <- <-]. do 2 (split; [done|]). split; [apply same_switch_refl|].
    do 2 (split; [done|]). intros a. split; [by left|].
    intros [?|[Hin _]]; [done|]. by apply elem_of_nil in Hin.
  - unfold bind. destruct (add_used_vlan E dp a w) as [[dp1|e] w1] eqn:Hstep;
      [|discriminate].
    destruct (add_used_vlan_spec _ _ _ _ _ Hstep) as (Hh1 & He1 & Hok).
    destruct (Hok _ eq_refl) as (Hsame1 & Hports1 & Hcase).
    intros Hrest.
    apply IH in Hrest as (Hh & He & Hsame & Hports & Hpre & Hiff).
    split; [congruence|]. split; [congruence|].
    split; [by eapply same_switch_trans|]. split; [congruence|].
    rewrite Hh1 in Hiff.
    destruct Hcase as [[Hv Hwhy]|(Hv & Hnin & Hhas)]; rewrite Hv in *.
    + split; [done|]. intros a0. rewrite Hiff. split.
      * intros [?|[Hin Hp]]; [by left|right]. split; [by right|done].
      * intros [?|[[->|Hin]%elem_of_cons Hp]]; [by left| |by right].
        destruct Hwhy as [?|Hno]; [by left|]. by destruct Hno.
    + split; [etrans; [|exact Hpre]; by apply prefix_app_r|].
      intros a0. rewrite Hiff, elem_of_app, list_elem_of_singleton. split.
      * intros [[?| ->]|[Hin Hp]]; [by left|right|right].
        -- split; [left|done].
        -- split; [by right|done].
      * intros [?|[[->|Hin]%elem_of_cons Hp]];
          [left; by left|left; by right|by right].
Qed.

(** X11: after the ports, a switch gets exactly the VLANs of its mapping
    that have a port, each once and in the order of the mapping; VLANs
    without a port are left out.  The loop touches no VLAN object. *)
Theorem used_vlans_attached addrs : forall dp dp' (w w' : World E),
  foldM (add_used_vlan E) dp addrs w = (Ok dp', w') ->
  heap w' = heap w /\ ext w' = ext w
  /\ same_switch dp dp' /\ dp_ports dp' = dp_ports dp
  /\ dp_vlans dp `prefix_of` dp_vlans dp'
  /\ forall a, a ∈ dp_vlans dp' <->
               a ∈ dp_vlans dp \/ (a ∈ addrs /\ has_ports a (heap w)).
Proof. exact (add_used_vlans_spec addrs). Qed.

(** Body of the loop of lines 148-150 on the store and on the switch. *)
Lemma add_port_spec pcs dp_id acc e (w w' : World E) res :
  add_port E MIN_VID MAX_VID pcs dp_id acc e w = (res, w') ->
  world_grows w w'
  /\ forall acc', res = Ok acc' ->
       same_switch acc.1 acc'.1 /\ dp_vlans acc'.1 = dp_vlans acc.1
       /\ exists port, dp_ports acc'.1 = dp_ports acc.1 ++ [port]
                       /\ port_id port = e.1
                       /\ has_vlan_or_stack port = true.
Proof.
  unfold add_port. unfold bind at 1.
  destruct (confs pcs !! e.2) as [c|].
  2:{ intros [= <- <-]. split; [apply world_grows_refl|]. by intros acc' [=]. }
  unfold ret at 1. unfold bind at 1.
  destruct (_dp_parse_port E MIN_VID MAX_VID dp_id e.1 c acc.2 w)
    as [[[port vlans']|err] w1] eqn:Hparse;
    pose proof (parse_port_grows _ _ _ _ _ _ _ _ _ Hparse) as Hg.
  - unfold ret. intros [= <- <-]. split; [done|]. intros acc' [= <-].
    cbn [fst snd]. split; [by repeat split|]. split; [done|].
    exists port. split; [done|].
    (* the assertion of line 109 has passed *)
    unfold _dp_parse_port, bind in Hparse.
    destruct (resolve_native _ _ _ _ _ _ w) as [[[p1 v1]|?] w0] eqn:Hn;
      [|discriminate].
    destruct (resolve_native_spec _ _ _ _ _ _ _ _ Hn) as [_ Hok1].
    destruct (Hok1 _ _ eq_refl) as (Hid1 & _).
    cbn [fst snd] in Hparse.
    destruct (resolve_tagged_vlans _ _ _ _ _ _ w0) as [[[p2 v2]|?] w2] eqn:Ht;
      [|discriminate].
    destruct (resolve_tagged_vlans_spec _ _ _ _ _ _ _ _ Ht) as [_ Hok2].
    destruct (Hok2 _ _ eq_refl) as (Hid2 & _).
    unfold assert_, ret, raise in Hparse. cbn [fst snd] in Hparse.
    destruct (has_vlan_or_stack p2) eqn:Hcheck; [|discriminate].
    injection Hparse as <- _ _. split; [|done].
    by rewrite Hid2, Hid1.
  - intros [= <- <-]. split; [done|]. by intros acc' [=].
Qed.
End SwitchAssembler.

(** ** Dictionaries, continued *)

Section DictTheory.

Lemma atom_eqb_sym a b : atom_eqb a b = atom_eqb b a.
Proof.
  destruct a as [|x|x|x], b as [|y|y|y]; simpl; try reflexivity.
  - by destruct x, y.
  - apply Z.eqb_sym.
  - apply Z.eqb_sym.
  - apply Z.eqb_sym.
  - apply String.eqb_sym.
Qed.

Lemma atom_eqb_trans a b c :
  atom_eqb a b = true -> atom_eqb b c = true -> atom_eqb a c = true.
Proof.
  destruct a as [|x|x|x], b as [|y|y|y], c as [|z|z|z]; simpl;
    try discriminate; try done;
    rewrite ?Z.eqb_eq, ?String.eqb_eq, ?Bool.eqb_true_iff; try congruence.
  all: destruct x; try destruct y; try destruct z; simpl; try done; lia.
Qed.

(** Keys that are equal are looked up alike. *)
Lemma atom_eqb_congr a b c :
  atom_eqb a b = true -> atom_eqb c a = atom_eqb c b.
Proof.
  intros Hab. destruct (atom_eqb c a) eqn:Hca, (atom_eqb c b) eqn:Hcb; try done.
  - by rewrite (atom_eqb_trans c a b Hca Hab) in Hcb.
  - rewrite atom_eqb_sym in Hab.
    by rewrite (atom_eqb_trans c b a Hcb Hab) in Hca.
Qed.

(** [d[k'] = v] and then [d.get(k)]. *)
Lemma dict_get_set {V} k k' (v : V) d :
  dict_get k (dict_set k' v d) = if atom_eqb k k' then Some v else dict_get k d.
Proof.
  induction d as [|[k0 v0] d IH]; simpl; [done|].
  destruct (atom_eqb k' k0) eqn:H0; simpl.
  - rewrite (atom_eqb_congr k' k0 k H0). by destruct (atom_eqb k k0).
  - rewrite IH. destruct (atom_eqb k k0) eqn:Hk; [|done].
    destruct (atom_eqb k k') eqn:Hk'; [|done].
    rewrite atom_eqb_sym in Hk'.
    by rewrite (atom_eqb_trans k' k k0 Hk' Hk) in H0.
Qed.

(** The keys of a dictionary after an assignment: the same, in the same
    order, with the new key behind them when it is new. *)
Lemma dict_set_keys {V} k (v : V) d :
  (dict_set k v d).*1 = if dict_mem k d then d.*1 else d.*1 ++ [k].
Proof.
  unfold dict_mem. induction d as [|[k0 v0] d IH]; [done|].
  cbn [dict_set dict_get]. destruct (atom_eqb k k0); [done|].
  rewrite !fmap_cons, IH. by destruct (dict_get k d).
Qed.
End DictTheory.

(** ** The switch assembler, continued *)

Section SwitchAssembly.
Context {E : Type}.
Variables MIN_VID MAX_VID : Z.
Variable set_iter : gset Z -> list Z.
Variable sanity_check : DP -> M (World E) unit.
Variable finalize_config : DP -> list DP -> M (World E) unit.
Variable resolve_stack_topology : DP -> list DP -> M (World E) unit.

Local Abbreviation add_ports := (_dp_add_ports E MIN_VID MAX_VID set_iter).
Local Abbreviation assemble :=
  (assemble_dp E MIN_VID MAX_VID set_iter sanity_check).
Local Abbreviation parser_v2 :=
  (_dp_parser_v2 E MIN_VID MAX_VID set_iter sanity_check
     finalize_config resolve_stack_topology).
Local Abbreviation config_parser :=
  (_config_parser_v2 E MIN_VID MAX_VID set_iter sanity_check
     finalize_config resolve_stack_topology).
Local Abbreviation parser :=
  (dp_parser E MIN_VID MAX_VID set_iter sanity_check
     finalize_config resolve_stack_topology).

(** The loop of lines 148-150. *)
Lemma add_ports_loop pcs dp_id entries : forall acc acc' (w w' : World E),
  foldM (add_port E MIN_VID MAX_VID pcs dp_id) acc entries w = (Ok acc', w') ->
  world_grows w w' /\ same_switch acc.1 acc'.1
  /\ dp_vlans acc'.1 = dp_vlans acc.1
  /\ exists ports,
       dp_ports acc'.1 = dp_ports acc.1 ++ ports
       /\ port_id <$> ports = entries.*1
       /\ Forall (fun port => has_vlan_or_stack port = true) ports.
Proof.
  induction entries as [|e entries IH]; intros acc acc' w w'; simpl.
  - intros [= <- <-]. split; [apply world_grows_refl|].
    split; [apply same_switch_refl|]. split; [done|].
    exists []. by rewrite app_nil_r.
  - unfold bind.
    destruct (add_port _ _ _ _ _ acc e w) as [[acc1|err] w1] eqn:Hstep;
      [|discriminate].
    destruct (add_port_spec _ _ _ _ _ _ _ _ _ Hstep) as [Hg1 Hok].
    destruct (Hok _ eq_refl) as (Hsame1 & Hvl1 & port & Hp1 & Hid & Hcheck).
    intros Hrest.
    apply IH in Hrest as (Hg & Hsame & Hvl & ports & Hp & Hids & Hall).
    split; [by eapply world_grows_trans|].
    split; [by eapply same_switch_trans|]. split; [congruence|].
    exists (port :: ports). split; [|split].
    + rewrite Hp, Hp1, <- app_assoc. done.
    + rewrite !fmap_cons. by rewrite Hid, Hids.
    + by constructor.
Qed.

Lemma dp_add_ports_spec dp dp_conf dp_id vlans dp' (w w' : World E) :
  add_ports dp dp_conf dp_id vlans w = (Ok dp', w') ->
  same_switch dp dp'
  /\ heap_grows (heap w) (heap w') /\ ext w' = ext w
  /\ (exists pcs ports,
        expand_ports set_iter (default [] (interfaces dp_conf))
          (default [] (interface_ranges dp_conf)) = Ok pcs
        /\ dp_ports dp' = dp_ports dp ++ ports
        /\ port_id <$> ports = (dict_values (port_num_to_port_conf pcs)).*1
        /\ Forall (fun port => has_vlan_or_stack port = true) ports)
  /\ dp_vlans dp `prefix_of` dp_vlans dp'
  /\ (forall a, a ∈ dp_vlans dp' -> a ∈ dp_vlans dp \/ has_ports a (heap w'))
  /\ (forall name a, dict_get name vlans = Some a -> has_ports a (heap w') ->
        a ∈ dp_vlans dp').
Proof.
  unfold _dp_add_ports. unfold bind at 1. unfold lift_result.
  destruct (expand_ports set_iter _ _) as [pcs|err] eqn:Hexp; [|discriminate].
  unfold ret at 1. unfold bind at 1.
  destruct (foldM _ (dp, vlans) _ w) as [[[dp1 vlans1]|err] w1] eqn:Hloop;
    [|discriminate].
  pose proof Hloop as Hloop'.
  apply add_ports_loop in Hloop as (Hg1 & Hsame1 & Hvl1 & ports & Hp & Hids & Hall).
  cbn [fst snd] in *. intros Hattach.
  assert (Hpre1 : vlans `prefix_of` vlans1).
  { revert Hloop'.
    apply (foldM_result (fun acc (_ : World E) => vlans `prefix_of` acc.2));
      [|done].
    intros acc e s acc' s' _ Hacc. unfold add_port, bind.
    destruct (confs pcs !! e.2) as [c|]; [|discriminate].
    unfold ret at 1.
    destruct (_dp_parse_port E MIN_VID MAX_VID dp_id e.1 c acc.2 s)
      as [[[port vlans2]|?] s1] eqn:Hparse; [|discriminate].
    unfold ret. intros [= <- <-]. cbn [snd]. etrans; [exact Hacc|].
    unfold _dp_parse_port, bind in Hparse.
    destruct (resolve_native _ _ _ _ _ _ s) as [[[p1 v1]|?] s0] eqn:Hn;
      [|discriminate].
    cbn [fst snd] in Hparse.
    destruct (resolve_tagged_vlans _ _ _ _ _ _ s0) as [[[p2 v2]|?] s2] eqn:Ht;
      [|discriminate].
    unfold assert_, ret, raise in Hparse. cbn [fst snd] in Hparse.
    destruct (has_vlan_or_stack p2); [|discriminate].
    injection Hparse as _ <- _.
    assert (Hnat : acc.2 `prefix_of` v1).
    { (* the native VLAN *)
      unfold resolve_native in Hn.
      destruct (native_vlan (Port_new e.1 c)) as [[[| | |]| |]|];
        try (by injection Hn as _ <- _);
        (unfold bind in Hn;
         destruct (_get_vlan_by_identifier _ _ _ _ _ _ s) as [[[a0 va]|?] sx] eqn:Hget;
           [|discriminate];
         unfold update_vlan, modify, ret in Hn; injection Hn as _ <- _;
         by destruct (get_vlan_frame _ _ _ _ _ _ _ _ Hget)
           as (_ & _ & _ & _ & Hpre & _)). }
    etrans; [exact Hnat|].
    (* the tagged VLANs *)
    unfold resolve_tagged_vlans, bind in Ht.
    destruct ((match tagged_vlans p1 with
               | Idents v => iter v
               | Objs _ => ret []
               end) s0) as [[idents|?] sy]; [|discriminate].
    destruct (foldM _ ([], v1) idents sy) as [[[l v3]|?] sz] eqn:Hfold;
      [|discriminate].
    cbn [fst snd] in Ht.
    destruct (forM_ l _ sz) as [[[]|?] su]; [|discriminate].
    unfold ret in Ht. injection Ht as _ <- _.
    apply (foldM_result
             (fun acc0 (_ : World E) => v1 `prefix_of` acc0.2)
             (resolve_tagged E MIN_VID MAX_VID dp_id) idents)
      with (acc := ([], v1)) (s := sy) (acc' := (l, v3)) (s' := sz);
      [|done|exact Hfold].
    intros acc0 x t acc0' t' _ Hacc0. unfold resolve_tagged, bind.
    destruct (_get_vlan_by_identifier _ _ _ _ _ _ t) as [[[a0 va]|?] tx] eqn:Hget;
      [|discriminate].
    unfold ret. intros [= <- <-]. cbn [snd]. etrans; [exact Hacc0|].
    by destruct (get_vlan_frame _ _ _ _ _ _ _ _ Hget)
      as (_ & _ & _ & _ & Hpre & _). }
  apply add_used_vlans_spec in Hattach
    as (Hh & He & Hsame & Hports & Hpre & Hiff).
  destruct Hg1 as (Hheap & _ & Hext1).
  split; [by eapply same_switch_trans|].
  split; [by rewrite Hh|]. split; [congruence|].
  split.
  { exists pcs, ports. split; [done|]. split; [congruence|]. by split. }
  split; [by rewrite <- Hvl1|].
  split.
  - intros a [Hin|[_ Hhas]]%Hiff; [left; by rewrite <- Hvl1|right].
    by rewrite Hh.
  - intros name a Hname Hhas. apply Hiff. right. rewrite <- Hh. split; [|done].
    destruct Hpre1 as [more ->].
    apply (dict_get_elem_of name). by apply dict_get_app_Some.
Qed.

(** X12: [_dp_add_ports] gives the switch one port per entry of the
    expansion, in the order of the entries and with their identifiers, each
    with a VLAN or a stack marker; every VLAN it attaches has a port, and
    every VLAN of the switch's mapping that has a port is attached.  It
    changes nothing else of the switch, never changes the id or the routing
    marker of a VLAN object and never detaches a port. *)
Theorem dp_add_ports_result dp dp_conf dp_id vlans dp' (w w' : World E) :
  add_ports dp dp_conf dp_id vlans w = (Ok dp', w') ->
  same_switch dp dp'
  /\ heap_grows (heap w) (heap w') /\ ext w' = ext w
  /\ (exists pcs ports,
        expand_ports set_iter (default [] (interfaces dp_conf))
          (default [] (interface_ranges dp_conf)) = Ok pcs
        /\ dp_ports dp' = dp_ports dp ++ ports
        /\ port_id <$> ports = (dict_values (port_num_to_port_conf pcs)).*1
        /\ Forall (fun port => has_vlan_or_stack port = true) ports)
  /\ dp_vlans dp `prefix_of` dp_vlans dp'
  /\ (forall a, a ∈ dp_vlans dp' -> a ∈ dp_vlans dp \/ has_ports a (heap w'))
  /\ (forall name a, dict_get name vlans = Some a -> has_ports a (heap w') ->
        a ∈ dp_vlans dp').
Proof. exact (dp_add_ports_spec dp dp_conf dp_id vlans dp' w w'). Qed.

(** What the assembly of one switch collects besides ports and VLANs. *)
Lemma foldl_add_router (l : dict conf) : forall dp,
  let dp' := foldl (fun dp ic =>
               DP_add_router ic.1 {| router_id := ic.1; router_conf := ic.2 |} dp)
               dp l in
  dp_ident dp' = dp_ident dp /\ dp_name dp' = dp_name dp /\ dp_id dp' = dp_id dp
  /\ dp_ports dp' = dp_ports dp /\ dp_vlans dp' = dp_vlans dp
  /\ dp_acls dp' = dp_acls dp /\ dp_meters dp' = dp_meters dp
  /\ (dp_routers dp').*1 = (dp_routers dp).*1 ++ l.*1.
Proof.
  induction l as [|ic l IH]; intros dp; simpl.
  - repeat split; try done. by rewrite app_nil_r.
  - destruct (IH (DP_add_router ic.1 {| router_id := ic.1; router_conf := ic.2 |} dp))
      as (H1 & H2 & H3 & H4 & H5 & H6 & H7 & H8).
    repeat split; try done.
    rewrite H8. simpl. by rewrite fmap_app, <- app_assoc.
Qed.

Lemma foldl_set_meter (l : dict conf) : forall dp,
  let dp' := foldl (fun dp ic =>
               DP_set_meter ic.1 {| meter_id := ic.1; meter_conf := ic.2 |} dp)
               dp l in
  dp_ident dp' = dp_ident dp /\ dp_name dp' = dp_name dp /\ dp_id dp' = dp_id dp
  /\ dp_ports dp' = dp_ports dp /\ dp_vlans dp' = dp_vlans dp
  /\ dp_acls dp' = dp_acls dp /\ dp_routers dp' = dp_routers dp
  /\ forall k, is_Some (dict_get k (dp_meters dp'))
               <-> is_Some (dict_get k (dp_meters dp)) \/ is_Some (dict_get k l).
Proof.
  induction l as [|ic l IH]; intros dp; simpl.
  - repeat split; try done; [by left|]. intros [?|[? ?]]; done.
  - destruct (IH (DP_set_meter ic.1 {| meter_id := ic.1; meter_conf := ic.2 |} dp))
      as (H1 & H2 & H3 & H4 & H5 & H6 & H7 & H8).
    repeat split; try done.
    + intros Hk. apply H8 in Hk. simpl in Hk. rewrite dict_get_set in Hk.
      destruct ic as [k0 c0]. simpl in *.
      destruct (atom_eqb k k0); [right; by eexists|]. done.
    + intros Hk. apply H8. simpl. rewrite dict_get_set.
      destruct ic as [k0 c0]. simpl in *.
      destruct (atom_eqb k k0); [left; by eexists|]. done.
Qed.

Lemma foldl_add_acl (l : list (atom * ACL)) : forall dp,
  let dp' := foldl (fun dp ia => DP_add_acl ia.1 ia.2 dp) dp l in
  dp_ident dp' = dp_ident dp /\ dp_name dp' = dp_name dp /\ dp_id dp' = dp_id dp
  /\ dp_ports dp' = dp_ports dp /\ dp_vlans dp' = dp_vlans dp
  /\ dp_routers dp' = dp_routers dp /\ dp_meters dp' = dp_meters dp
  /\ (dp_acls dp').*1 = (dp_acls dp).*1 ++ l.*1.
Proof.
  induction l as [|ia l IH]; intros dp; simpl.
  - repeat split; try done. by rewrite app_nil_r.
  - destruct (IH (DP_add_acl ia.1 ia.2 dp))
      as (H1 & H2 & H3 & H4 & H5 & H6 & H7 & H8).
    repeat split; try done.
    rewrite H8. simpl. by rewrite fmap_app, <- app_assoc.
Qed.

(** Body of the loop of lines 155-174. *)
Lemma assemble_dp_spec acls_conf meters_conf routers_conf vlans_conf dps x dps'
    (w w' : World E) :
  assemble acls_conf meters_conf routers_conf vlans_conf dps x w = (Ok dps', w') ->
  exists dp, dps' = dps ++ [dp] /\ switch_of acls_conf meters_conf routers_conf x dp.
Proof.
  unfold assemble_dp. unfold bind at 1.
  destruct (sanity_check _ w) as [[[]|?] w1]; [|discriminate].
  unfold bind at 1.
  destruct (foldM _ [] (dict_items vlans_conf) w1) as [[vlans|?] w2];
    [|discriminate].
  unfold bind at 1.
  destruct (add_ports _ _ _ vlans w2) as [[dp1|?] w3] eqn:Hports;
    [|discriminate].
  apply dp_add_ports_spec in Hports
    as ((S1 & S2 & S3 & S4 & S5 & S6) & _).
  unfold ret. intros [= <- <-]. eexists. split; [reflexivity|].
  set (dp0 := DP_new x.1 x.2) in *.
  destruct (foldl_add_router (dict_items routers_conf) dp0)
    as (R1 & R2 & R3 & _ & _ & R6 & R7 & R8).
  cbv zeta in *.
  set (dpr := foldl _ dp0 (dict_items routers_conf)) in *.
  destruct (foldl_set_meter (dict_items meters_conf) dpr)
    as (M1 & M2 & M3 & _ & _ & M6 & M7 & M8).
  cbv zeta in *.
  set (dpm := foldl _ dpr (dict_items meters_conf)) in *.
  destruct (foldl_add_acl
              ((fun ic => (ic.1, {| acl_id := ic.1; acl_conf := ic.2 |}))
                 <$> dict_items acls_conf) dp1)
    as (A1 & A2 & A3 & _ & _ & A6 & A7 & A8).
  cbv zeta in *.
  unfold switch_of. split; [by rewrite A1, S1, M1, R1|].
  split; [by rewrite A2, S2, M2, R2|]. split; [by rewrite A3, S3, M3, R3|].
  split.
  { rewrite A8, S4, M6, R6. simpl. rewrite <- list_fmap_compose.
    by apply list_fmap_ext. }
  split.
  { rewrite A6, S5, M7, R8. done. }
  intros k. rewrite A7, S6, M8, R7. simpl. split; [|by right].
  intros [[? ?]|?]; done.
Qed.

Lemma assemble_all acls_conf meters_conf routers_conf vlans_conf l :
  forall dps dps' (w w' : World E),
  foldM (assemble acls_conf meters_conf routers_conf vlans_conf) dps l w
    = (Ok dps', w') ->
  exists new, dps' = dps ++ new
              /\ Forall2 (switch_of acls_conf meters_conf routers_conf) l new.
Proof.
  induction l as [|x l IH]; intros dps dps' w w'; simpl.
  - intros [= <- <-]. exists []. by rewrite app_nil_r.
  - unfold bind.
    destruct (assemble _ _ _ _ dps x w) as [[dps1|?] w1] eqn:Hstep;
      [|discriminate].
    apply assemble_dp_spec in Hstep as (dp & -> & Hdp).
    intros Hrest. apply IH in Hrest as (new & -> & Hnew).
    exists (dp :: new). split; [by rewrite <- app_assoc|]. by constructor.
Qed.

Lemma parser_v2_switches acls_conf dps_conf meters_conf routers_conf
    vlans_conf dps (r r' : Run E) :
  parser_v2 acls_conf dps_conf meters_conf routers_conf vlans_conf r = (Ok dps, r') ->
  Forall2 (switch_of acls_conf meters_conf routers_conf) dps_conf dps.
Proof.
  unfold _dp_parser_v2.
  unfold bind at 1. unfold in_world at 1, zoom at 1, modify at 1.
  unfold bind at 1. unfold in_world at 1, zoom at 1. cbn [world calls].
  destruct (foldM _ [] (dict_items dps_conf) _) as [[dps0|?] w1] eqn:Hasm;
    [|discriminate].
  apply assemble_all in Hasm as (new & -> & Hnew). simpl.
  unfold bind at 1. destruct (forM_ new _ _) as [[[]|?] r1]; [|discriminate].
  unfold bind at 1. destruct (forM_ new _ r1) as [[[]|?] r2]; [|discriminate].
  unfold ret. by intros [= <- <-].
Qed.

(** X13: a resolution run that succeeds returns one switch per declared
    datapath, in the order of the declarations: the switch of a
    declaration has its identifier, the name and the switch id its
    configuration gives it, and a router, a meter and an ACL for every
    top-level declaration of one. *)
Theorem one_switch_per_declaration acls_conf dps_conf meters_conf routers_conf
    vlans_conf dps (r r' : Run E) :
  parser_v2 acls_conf dps_conf meters_conf routers_conf vlans_conf r = (Ok dps, r') ->
  Forall2 (switch_of acls_conf meters_conf routers_conf) dps_conf dps.
Proof. exact (parser_v2_switches acls_conf dps_conf meters_conf routers_conf vlans_conf dps r r'). Qed.

(** X14: [dp_parser] returns exactly when the document is a mapping whose
    version, if declared, is 2, the loader succeeds and declares a switch,
    and the resolution run returns; it then returns the loader's hashes and
    the switches of the run, one per declared datapath, at least one. *)
Theorem dp_parser_returns (cf : ConfigFile) hashes dps (r r' : Run E) :
  parser cf r = (Ok (hashes, dps), r')
  <-> (exists d, read_config cf = VDict d
                 /\ default true (is_version_2 <$> dict_get (AStr "version") d) = true)
      /\ dp_include cf = true
      /\ tc_dps (included_confs cf) <> []
      /\ hashes = included_hashes cf
      /\ dps <> []
      /\ parser_v2 (tc_acls (included_confs cf)) (tc_dps (included_confs cf))
           (tc_meters (included_confs cf)) (tc_routers (included_confs cf))
           (tc_vlans (included_confs cf)) r = (Ok dps, r').
Proof.
  assert (Hafter : after_version_check E MIN_VID MAX_VID set_iter sanity_check
                     finalize_config resolve_stack_topology cf r
                   = (Ok (hashes, dps), r')
            <-> dp_include cf = true
                /\ tc_dps (included_confs cf) <> []
                /\ hashes = included_hashes cf
                /\ parser_v2 (tc_acls (included_confs cf)) (tc_dps (included_confs cf))
                     (tc_meters (included_confs cf)) (tc_routers (included_confs cf))
                     (tc_vlans (included_confs cf)) r = (Ok dps, r')).
  { unfold after_version_check, except_AssertionError, bind, _config_parser_v2.
    destruct (dp_include cf); simpl.
    2:{ split; [discriminate|]. by intros [? _]. }
    destruct (tc_dps (included_confs cf)) as [|x l] eqn:Hdps.
    { split; [discriminate|]. by intros (_ & ? & _). }
    unfold bind.
    destruct (parser_v2 _ _ _ _ _ r) as [[dps0|e] r0].
    - unfold ret. simpl. split.
      + intros [= <- <- <-]. by repeat split.
      + intros (_ & _ & -> & [= <- <-]). done.
    - split.
      + destruct e; discriminate.
      + intros (_ & _ & _ & [=]). }
  assert (Hne : parser_v2 (tc_acls (included_confs cf)) (tc_dps (included_confs cf))
                  (tc_meters (included_confs cf)) (tc_routers (included_confs cf))
                  (tc_vlans (included_confs cf)) r = (Ok dps, r') ->
                tc_dps (included_confs cf) <> [] -> dps <> []).
  { intros Hrun Hdps. apply parser_v2_switches in Hrun.
    intros ->. apply Forall2_nil_inv_r in Hrun. done. }
  destruct (read_config cf) as [a|l|d] eqn:Hd.
  - split.
    + unfold dp_parser, except_AssertionError. rewrite Hd.
      destruct a; simpl; discriminate.
    + by intros [(d & [=] & _) _].
  - split.
    + unfold dp_parser, except_AssertionError. rewrite Hd. simpl. discriminate.
    + by intros [(d & [=] & _) _].
  - rewrite (dp_parser_dict MIN_VID MAX_VID set_iter sanity_check finalize_config
               resolve_stack_topology cf d r Hd).
    destruct (dict_get (AStr "version") d) as [v|] eqn:Hv.
    + destruct (is_version_2 v) eqn:H2.
      * rewrite Hafter. split.
        -- intros (Hi & Hdps & Hh & Hrun). split.
           { exists d. split; [done|]. by rewrite Hv; simpl; rewrite H2. }
           repeat split; try done. by apply Hne.
        -- intros (_ & Hi & Hdps & Hh & _ & Hrun). by repeat split.
      * split; [discriminate|].
        intros [(d' & [= <-] & Hver) _]. rewrite Hv in Hver. simpl in Hver.
        by rewrite H2 in Hver.
    + rewrite Hafter. split.
      * intros (Hi & Hdps & Hh & Hrun). split.
        { exists d. split; [done|]. by rewrite Hv. }
        repeat split; try done. by apply Hne.
      * intros (_ & Hi & Hdps & Hh & _ & Hrun). by repeat split.
Qed.

(** X15: the structural errors of [dp_parser], in the order it checks:
    an empty document, a document that is no mapping, and a mapping of
    an accepted version whose loading fails each raise [InvalidConfigError]
    with the message of their own assertion, before any switch is
    assembled: the state of the run is untouched. *)
Theorem dp_parser_structural_errors (cf : ConfigFile) (r : Run E) :
  (read_config cf = VAtom ANone ->
   parser cf r = (Raise (InvalidConfigError MsgConfigEmpty), r))
  /\ ((forall d, read_config cf <> VDict d) -> read_config cf <> VAtom ANone ->
      parser cf r = (Raise (InvalidConfigError MsgConfigSyntax), r))
  /\ (forall d, read_config cf = VDict d ->
        default true (is_version_2 <$> dict_get (AStr "version") d) = true ->
        dp_include cf = false ->
        parser cf r =
          (Raise (InvalidConfigError (MsgLoadError (dp_config_path cf))), r)).
Proof.
  split; [|split].
  - intros Hd. unfold dp_parser, except_AssertionError. by rewrite Hd.
  - intros Hnd Hnn. unfold dp_parser, except_AssertionError.
    destruct (read_config cf) as [[| | |]|l|d]; try done.
    by destruct (Hnd d).
  - intros d Hd Hv Hinc.
    rewrite (dp_parser_dict MIN_VID MAX_VID set_iter sanity_check finalize_config
               resolve_stack_topology cf d r Hd).
    assert (Hafter : after_version_check E MIN_VID MAX_VID set_iter sanity_check
                       finalize_config resolve_stack_topology cf r
                     = (Raise (InvalidConfigError (MsgLoadError (dp_config_path cf))), r)).
    { unfold after_version_check, except_AssertionError, bind, _config_parser_v2.
      by rewrite Hinc. }
    destruct (dict_get (AStr "version") d) as [v|]; simpl in Hv;
      [rewrite Hv|]; exact Hafter.
Qed.
End SwitchAssembly.

(** ** Closed runs of the further properties *)

Section FurtherClosedRuns.
Import Closed.

Local Abbreviation sw1_b_sw2_a :=
  [(AStr "sw1", one_port_switch "b"); (AStr "sw2", one_port_switch "a")].
Local Abbreviation one_vlan_100 :=
  (set_heap E [VLAN_new (AInt 100) (AInt 1) []] world0).
Local Abbreviation native_100 :=
  ([(AStr "native_vlan", VAtom (AStr "100"))] : conf).

(** "100" resolved on a fresh switch, and again. *)
Lemma resolve_again_witness :
  get_vlan (AInt 1) (VAtom (AStr "100")) [] world0 =
    (Ok (0%nat, [(AStr "100", 0%nat)]), one_vlan_100)
  /\ get_vlan (AInt 1) (VAtom (AStr "100")) [(AStr "100", 0%nat)] one_vlan_100 =
       (Ok (0%nat, [(AStr "100", 0%nat)]), one_vlan_100).
Proof.
  split; [reflexivity|].
  apply (resolve_again MIN_VID MAX_VID (AInt 1) (VAtom (AStr "100")) []
           [(AStr "100", 0%nat)] 0%nat world0 one_vlan_100).
  reflexivity.
Defined.

(** Two VLANs of id 100 under the names [a] and [b]: "100" is the first. *)
Lemma resolve_by_id_witness :
  get_vlan (AInt 1) (VAtom (AStr "100"))
    ([] ++ (AStr "a", 0%nat) :: [(AStr "b", 1%nat)]) plain_and_speaker =
    (Ok (0%nat, [] ++ (AStr "a", 0%nat) :: [(AStr "b", 1%nat)]), plain_and_speaker).
Proof.
  apply (resolve_by_id MIN_VID MAX_VID (AInt 1) "100" [] [(AStr "b", 1%nat)]
           (AStr "a") 0%nat
           (VLAN_new (AStr "a") (AInt 1) [(AStr "vid", VAtom (AInt 100))])
           plain_and_speaker).
  - reflexivity.
  - intros a0 v0 Hin. by apply elem_of_nil in Hin.
  - reflexivity.
  - reflexivity.
Defined.

(** "100" on a fresh switch: one object more. *)
Lemma resolution_frame_witness :
  heap world0 `prefix_of` heap one_vlan_100
  /\ (length (heap one_vlan_100) <= S (length (heap world0)))%nat
  /\ vid_dp one_vlan_100 = vid_dp world0.
Proof.
  destruct (resolution_frame MIN_VID MAX_VID (AInt 1) (VAtom (AStr "100")) []
              world0 one_vlan_100 (Ok (0%nat, [(AStr "100", 0%nat)])) eq_refl)
    as (H1 & H2 & H3 & _).
  split; [exact H1|]. split; [exact H2|exact H3].
Defined.

(** The speaker VLAN attached to the first switch of a run. *)
Lemma add_vlan_outcome_witness :
  let sw1 := DP_new (AStr "sw1") (one_port_switch "b") in
  exists w',
    _dp_add_vlan E sw1 1%nat plain_and_speaker = (Ok (DP_add_vlan 1%nat sw1), w')
    /\ vid_dp_get (AInt 100) (vid_dp w') = ∅ ∪ {["sw1"%string]}.
Proof.
  intros sw1. eexists.
  apply (proj2 (add_vlan_outcome sw1 1%nat
                  (VLAN_new (AStr "b") (AInt 2)
                     [(AStr "vid", VAtom (AInt 100));
                      (AStr "bgp_routerid", VAtom (AStr "1.1.1.1"))])
                  plain_and_speaker
                  ltac:(by intros ?%elem_of_nil) eq_refl)).
  right. apply empty_subseteq.
Defined.

(** 8 is a number of "1-3,7-9". *)
Lemma expand_port_range_covers_witness :
  exists nums, expand_port_range "1-3,7-9" = Ok nums /\ 8 ∈ nums.
Proof.
  destruct (expand_port_range "1-3,7-9") as [nums|e] eqn:He;
    [|vm_compute in He; discriminate].
  exists nums. split; [reflexivity|].
  apply (expand_port_range_covers "1-3,7-9" nums "7-9" 7 9 8 He).
  - apply list_elem_of_further, list_elem_of_here.
  - reflexivity.
  - lia.
Defined.

(** Port 5 and the range "1-9". *)
Lemma expansion_sound_witness :
  length (confs port_5_resolved) = (length port_5 + length range_1_9)%nat
  /\ forall e, e ∈ port_num_to_port_conf port_5_resolved ->
       declared_entry port_5 e \/ range_entry port_5 range_1_9 e.
Proof.
  apply (expansion_sound set_iter port_5 range_1_9 port_5_resolved).
  - intros s n. apply elem_of_elements.
  - by vm_compute.
Defined.

Lemma expansion_complete_witness :
  exists port_ident a,
    dict_get (AInt 7) (port_num_to_port_conf port_5_resolved) = Some (port_ident, a).
Proof.
  destruct (expand_port_range "1-9") as [nums|e] eqn:He;
    [|vm_compute in He; discriminate].
  apply (expansion_complete set_iter port_5 range_1_9 port_5_resolved 0%nat
           "1-9" [(AStr "F", VAtom (AInt 2)); (AStr "G", VAtom (AInt 3))] nums 7).
  - intros s n. apply elem_of_elements.
  - by vm_compute.
  - reflexivity.
  - exact He.
  - assert (Hn : Ok nums = Ok (list_to_set (seqZ 1 9) : gset Z))
      by (rewrite <- He; by vm_compute).
    injection Hn as ->. set_unfold. lia.
Defined.

(** Port 3 with native VLAN "100" on a fresh switch. *)
Lemma parse_port_frame_witness :
  world_grows world0 (parse_port (AInt 1) (AInt 3) native_100 [] world0).2.
Proof.
  apply (parse_port_frame MIN_VID MAX_VID (AInt 1) (AInt 3) native_100 []
           world0 _ (parse_port (AInt 1) (AInt 3) native_100 [] world0).1).
  apply surjective_pairing.
Defined.

Lemma parse_port_registers_witness :
  exists port vlans' w',
    parse_port (AInt 1) (AInt 3) native_100 [] world0 = (Ok (port, vlans'), w')
    /\ port_id port = AInt 3
    /\ has_vlan_or_stack port = true
    /\ vlans_valid vlans' w'.
Proof.
  destruct (parse_port (AInt 1) (AInt 3) native_100 [] world0)
    as [[[port vlans']|e] w'] eqn:Hrun; [|vm_compute in Hrun; discriminate].
  exists port, vlans', w'. split; [reflexivity|].
  destruct (parse_port_registers MIN_VID MAX_VID (AInt 1) (AInt 3) native_100 []
              vlans' port world0 w') as (H1 & H2 & _ & _ & H5 & _).
  - intros a Hin. by apply elem_of_nil in Hin.
  - exact Hrun.
  - split; [exact H1|]. split; [exact H2|exact H5].
Defined.

(** A VLAN with a port and a VLAN without: the first is attached. *)
Lemma used_vlans_attached_witness :
  let sw1 := DP_new (AStr "sw1") (one_port_switch "100") in
  let w := set_heap E [VLAN_add_untagged (AInt 1) (VLAN_new (AInt 100) (AInt 1) []);
                       VLAN_new (AInt 200) (AInt 1) []] world0 in
  exists dp' w',
    foldM (add_used_vlan E) sw1 [0%nat; 1%nat] w = (Ok dp', w')
    /\ dp_ports dp' = dp_ports sw1
    /\ (0%nat ∈ dp_vlans dp' <->
        0%nat ∈ dp_vlans sw1 \/ (0%nat ∈ [0%nat; 1%nat] /\ has_ports 0%nat (heap w)))
    /\ (1%nat ∈ dp_vlans dp' <->
        1%nat ∈ dp_vlans sw1 \/ (1%nat ∈ [0%nat; 1%nat] /\ has_ports 1%nat (heap w))).
Proof.
  intros sw1 w.
  destruct (foldM (add_used_vlan E) sw1 [0%nat; 1%nat] w)
    as [[dp'|e] w'] eqn:Hrun; [|vm_compute in Hrun; discriminate].
  exists dp', w'. split; [reflexivity|].
  destruct (used_vlans_attached [0%nat; 1%nat] sw1 dp' w w' Hrun)
    as (_ & _ & _ & H4 & _ & H6).
  split; [exact H4|]. split; apply H6.
Defined.

(** The port of a one-port switch. *)
Lemma dp_add_ports_result_witness :
  let sw1 := DP_new (AStr "sw1") (one_port_switch "100") in
  exists dp' w',
    _dp_add_ports E MIN_VID MAX_VID set_iter sw1 (one_port_switch "100")
      (AInt 1) [] world0 = (Ok dp', w')
    /\ same_switch sw1 dp'
    /\ ext w' = ext world0
    /\ forall a, a ∈ dp_vlans dp' -> a ∈ dp_vlans sw1 \/ has_ports a (heap w').
Proof.
  intros sw1.
  destruct (_dp_add_ports E MIN_VID MAX_VID set_iter sw1 (one_port_switch "100")
              (AInt 1) [] world0) as [[dp'|e] w'] eqn:Hrun;
    [|vm_compute in Hrun; discriminate].
  exists dp', w'. split; [reflexivity|].
  destruct (dp_add_ports_result MIN_VID MAX_VID set_iter sw1
              (one_port_switch "100") (AInt 1) [] dp' world0 w' Hrun)
    as (H1 & _ & H3 & _ & _ & H6 & _).
  split; [exact H1|]. split; [exact H3|exact H6].
Defined.

(** Two switches sharing two VLAN names. *)
Lemma one_switch_per_declaration_witness :
  exists dps r',
    dp_parser_v2 [] sw1_b_sw2_a [] [] two_names run0 = (Ok dps, r')
    /\ Forall2 (switch_of [] [] []) sw1_b_sw2_a dps.
Proof.
  destruct (dp_parser_v2 [] sw1_b_sw2_a [] [] two_names run0)
    as [[dps|e] r'] eqn:Hrun; [|vm_compute in Hrun; discriminate].
  exists dps, r'. split; [reflexivity|].
  exact (one_switch_per_declaration MIN_VID MAX_VID set_iter sanity_check
           finalize_config resolve_stack_topology
           [] sw1_b_sw2_a [] [] two_names dps run0 r' Hrun).
Defined.

(** A document without a version that declares two switches. *)
Lemma dp_parser_returns_witness :
  exists hashes dps r',
    parser (document [] sw1_b_sw2_a) run0 = (Ok (hashes, dps), r')
    /\ hashes = included_hashes (document [] sw1_b_sw2_a)
    /\ dps <> [].
Proof.
  destruct (parser (document [] sw1_b_sw2_a) run0)
    as [[[hashes dps]|e] r'] eqn:Hrun; [|vm_compute in Hrun; discriminate].
  exists hashes, dps, r'. split; [reflexivity|].
  destruct (proj1 (dp_parser_returns MIN_VID MAX_VID set_iter sanity_check
                     finalize_config resolve_stack_topology
                     (document [] sw1_b_sw2_a) hashes dps run0 r') Hrun)
    as (_ & _ & _ & H4 & H5 & _).
  split; [exact H4|exact H5].
Defined.

(** An empty document. *)
Lemma dp_parser_structural_errors_witness :
  let cf := {| read_config := VAtom ANone; dp_config_path := "faucet.yaml";
               dp_include := true; included_hashes := [];
               included_confs := {| tc_acls := []; tc_dps := sw1_b_sw2_a;
                                    tc_meters := []; tc_routers := [];
                                    tc_vlans := two_names |} |} in
  parser cf run0 = (Raise (InvalidConfigError MsgConfigEmpty), run0).
Proof.
  intros cf.
  exact (proj1 (dp_parser_structural_errors MIN_VID MAX_VID set_iter sanity_check
                  finalize_config resolve_stack_topology cf run0) eq_refl).
Defined.
End FurtherClosedRuns.

(** ** The aggregation API *)

Section ApiMerge.
Context {Valve : Type}.
Variable get_config_dict : Valve -> conf.

Local Abbreviation api := (get_config_for_api Valve get_config_dict).
Local Abbreviation exported := (exports get_config_dict).

Lemma fold_outcome_invariant {A B} (I : A -> Prop) (body : A -> B -> outcome A) l :
  (forall acc x acc', x ∈ l -> I acc -> body acc x = Returns acc' -> I acc') ->
  forall acc acc', I acc -> fold_outcome body acc l = Returns acc' -> I acc'.
Proof.
  induction l as [|x l IH]; intros Hbody acc acc' Hacc; simpl.
  - by intros [= <-].
  - destruct (body acc x) as [acc1|e] eqn:Hx; [|done].
    apply IH.
    + intros acc0 y acc0' Hy. apply Hbody. by right.
    + eapply Hbody; [left|done|done].
Qed.

Lemma dict_get_key {V} k (d : dict V) : k ∈ d.*1 -> is_Some (dict_get k d).
Proof.
  induction d as [|[k0 v0] d IH]; simpl.
  - by intros ?%elem_of_nil.
  - intros [->|Hin]%elem_of_cons.
    + rewrite atom_eqb_refl. by eexists.
    + destruct (atom_eqb k k0); [by eexists|by apply IH].
Qed.

Lemma dict_set_present {V} k (v x : V) d :
  dict_get k d = Some x -> (dict_set k v d).*1 = d.*1.
Proof.
  intros Hk. rewrite dict_set_keys. unfold dict_mem. by rewrite Hk.
Qed.

Lemma dict_get_congr {V} a b (d : dict V) :
  atom_eqb a b = true -> dict_get a d = dict_get b d.
Proof.
  intros Hab. induction d as [|[k v] d IH]; simpl; [done|].
  rewrite (atom_eqb_sym a k), (atom_eqb_sym b k), (atom_eqb_congr a b k Hab).
  by rewrite IH.
Qed.

(** [update] with a mapping: its entries win. *)
Lemma update_from_get {V} k (o : dict V) : forall d,
  dict_wf o ->
  dict_get k (update_from o d) =
    match dict_get k o with
    | Some v => Some v
    | None => dict_get k d
    end.
Proof.
  unfold update_from.
  induction o as [|[k0 v0] o IH]; intros d Hwf; simpl; [done|].
  destruct Hwf as [Hk0 Hwf]. simpl in Hk0.
  rewrite IH by done. rewrite dict_get_set.
  destruct (atom_eqb k k0) eqn:Hk; [|done].
  by rewrite (dict_get_congr k k0 o Hk), Hk0.
Qed.

Lemma merge_section_keys valve_conf config i config' :
  merge_section valve_conf config i = Returns config' ->
  config'.*1 = config.*1.
Proof.
  unfold merge_section.
  destruct (dict_get (AStr i) valve_conf) as [other|]; [|by intros [= <-]].
  destruct (dict_get (AStr i) config) as [section|] eqn:Hi; [|done].
  destruct (dict_update other section) as [section'|e]; [|done].
  intros [= <-]. by eapply dict_set_present.
Qed.

(** X16: whatever the valves export, a configuration returned by
    [get_config_for_api] has exactly the five top-level sections, in the
    order of [V2_TOP_CONFS]; keys a valve exports besides them are
    dropped. *)
Theorem api_sections valves config :
  api valves = Returns config ->
  config.*1 = AStr <$> V2_TOP_CONFS.
Proof.
  unfold get_config_for_api.
  apply (fold_outcome_invariant (fun config => config.*1 = AStr <$> V2_TOP_CONFS));
    [|reflexivity].
  intros acc valve acc' _ Hacc.
  apply (fold_outcome_invariant (fun config => config.*1 = AStr <$> V2_TOP_CONFS));
    [|exact Hacc].
  intros acc0 i acc0' _ Hacc0 Hstep.
  by rewrite (merge_section_keys _ _ _ _ Hstep).
Qed.

(** One valve whose sections are mappings: every section it exports is
    merged into the section of its name. *)
Lemma merge_sections valve_conf names : forall config,
  NoDup names ->
  (forall i, i ∈ names -> is_Some (dict_get (AStr i) config)) ->
  (forall i x, i ∈ names -> dict_get (AStr i) valve_conf = Some x ->
     exists o, x = VDict o) ->
  exists config',
    fold_outcome (merge_section valve_conf) config names = Returns config'
    /\ config'.*1 = config.*1
    /\ forall j section, dict_get (AStr j) config = Some section ->
         dict_get (AStr j) config' =
           Some (match dict_get (AStr j) valve_conf with
                 | Some (VDict o) =>
                     if bool_decide (j ∈ names) then update_from o section
                     else section
                 | _ => section
                 end).
Proof.
  induction names as [|i names IH]; intros config Hnd Hkeys Hmaps; simpl.
  - exists config. split; [done|]. split; [done|].
    intros j section ->. destruct (dict_get (AStr j) valve_conf) as [[| |o]|]; try done.
  - apply NoDup_cons in Hnd as [Hi Hnd].
    unfold merge_section at 1.
    destruct (dict_get (AStr i) valve_conf) as [other|] eqn:Hother.
    + destruct (Hmaps i other) as [o ->]; [by left|done|].
      destruct (Hkeys i) as [section Hsec]; [by left|]. rewrite Hsec. simpl.
      destruct (IH (dict_set (AStr i) (update_from o section) config)) as
        (config' & Hrun & Hk & Hget); [done| | |].
      * intros j Hj. rewrite dict_get_set.
        destruct (atom_eqb _ _); [by eexists|]. apply Hkeys. by right.
      * intros j x Hj. apply Hmaps. by right.
      * exists config'. split; [done|].
        split; [by rewrite Hk; eapply dict_set_present|].
        intros j sec Hj.
        destruct (decide (j = i)) as [->|Hne].
        -- rewrite Hsec in Hj. injection Hj as <-.
           rewrite (Hget i (update_from o section)).
           2:{ rewrite dict_get_set. by rewrite atom_eqb_refl. }
           rewrite Hother. rewrite (bool_decide_eq_false_2 _ Hi).
           rewrite bool_decide_eq_true_2 by left. done.
        -- rewrite (Hget j sec).
           2:{ rewrite dict_get_set. simpl.
               destruct (String.eqb_spec j i); [done|exact Hj]. }
           destruct (dict_get (AStr j) valve_conf) as [[| |o']|]; try done.
           rewrite (bool_decide_ext (j ∈ i :: names) (j ∈ names)); [done|].
           rewrite elem_of_cons. split; [by intros [?|?]|by right].
    + destruct (IH config) as (config' & Hrun & Hk & Hget); [done| | |].
      * intros j Hj. apply Hkeys. by right.
      * intros j x Hj. apply Hmaps. by right.
      * exists config'. split; [done|]. split; [done|].
        intros j sec Hj. rewrite (Hget j sec Hj).
        destruct (decide (j = i)) as [->|Hne]; [by rewrite Hother|].
        destruct (dict_get (AStr j) valve_conf) as [[| |o']|]; try done.
        rewrite (bool_decide_ext (j ∈ i :: names) (j ∈ names)); [done|].
           rewrite elem_of_cons. split; [by intros [?|?]|by right].
Qed.

(** The entry under [k] of section [i] after the valves [l], from the
    entry [acc] before them. *)
Lemma last_export_fold i k (l : list Valve) : forall acc v,
  foldl (fun acc valve => match exported i k valve with
                          | Some v => Some v
                          | None => acc
                          end) acc l = Some v
  <-> last_export get_config_dict i k l v
      \/ (acc = Some v /\ Forall (fun valve => exported i k valve = None) l).
Proof.
  induction l as [|valve l IH]; intros acc v; simpl.
  - split.
    + intros ->. right. by split.
    + intros [(before & valve & after & Hl & _)|[-> _]]; [|done].
      by destruct before.
  - rewrite IH. split.
    + intros [(before & valve' & after & -> & Hv & Hafter)|[Hacc Hall]].
      * left. exists (valve :: before), valve', after. by repeat split.
      * destruct (exported i k valve) as [v'|] eqn:Hx.
        -- left. exists [], valve, l. split; [done|]. by split; [congruence|].
        -- right. split; [done|]. by constructor.
    + intros [(before & valve' & after & Hl & Hv & Hafter)|[-> Hall]].
      * destruct before as [|b before]; simpl in Hl; injection Hl as -> ->.
        -- right. rewrite Hv. by split.
        -- left. by exists before, valve', after.
      * apply Forall_cons in Hall as [Hx Hall]. right. rewrite Hx. by split.
Qed.

Lemma api_fold (rest : list Valve) : forall seen config,
  config.*1 = AStr <$> V2_TOP_CONFS ->
  (forall i section k, i ∈ V2_TOP_CONFS ->
     dict_get (AStr i) config = Some section ->
     dict_get k section =
       foldl (fun acc valve => match exported i k valve with
                               | Some v => Some v
                               | None => acc
                               end) None seen) ->
  (forall valve, valve ∈ rest -> exports_mappings get_config_dict valve) ->
  exists config',
    fold_outcome (fun config valve =>
                    fold_outcome (merge_section (get_config_dict valve)) config
                                 V2_TOP_CONFS) config rest = Returns config'
    /\ config'.*1 = AStr <$> V2_TOP_CONFS
    /\ forall i section k, i ∈ V2_TOP_CONFS ->
         dict_get (AStr i) config' = Some section ->
         dict_get k section =
           foldl (fun acc valve => match exported i k valve with
                                   | Some v => Some v
                                   | None => acc
                                   end) None (seen ++ rest).
Proof.
  induction rest as [|valve rest IH]; intros seen config Hkeys Hget Hmaps.
  - exists config. rewrite app_nil_r. by repeat split.
  - cbn [fold_outcome].
    assert (Hsome : forall i, i ∈ V2_TOP_CONFS -> is_Some (dict_get (AStr i) config)).
    { intros i Hi. apply dict_get_key. rewrite Hkeys.
      by apply list_elem_of_fmap_2. }
    destruct (merge_sections (get_config_dict valve) V2_TOP_CONFS config)
      as (config1 & Hrun & Hk1 & Hget1); [| done | |].
    { apply (bool_decide_unpack _). by vm_compute. }
    { intros i x Hi Hx. destruct (Hmaps valve (list_elem_of_here _ _) i x Hi Hx)
        as (o & -> & _). by exists o. }
    rewrite Hrun.
    destruct (IH (seen ++ [valve]) config1) as (config' & Hrest & Hk' & Hget');
      [congruence| |by intros v Hv; apply Hmaps; right|].
    + intros i section k Hi Hsec.
      destruct (Hsome i Hi) as [section0 Hsec0].
      rewrite (Hget1 i section0 Hsec0) in Hsec. injection Hsec as <-.
      rewrite foldl_app. simpl. rewrite <- (Hget i section0 k Hi Hsec0).
      unfold exports.
      destruct (dict_get (AStr i) (get_config_dict valve)) as [x|] eqn:Hx; [|done].
      destruct (Hmaps valve (list_elem_of_here _ _) i x Hi Hx) as (o & -> & Hwf).
      rewrite bool_decide_eq_true_2 by done.
      by rewrite update_from_get.
    + exists config'. split; [done|]. split; [done|].
      intros i section k Hi Hsec. rewrite (Hget' i section k Hi Hsec).
      by rewrite <- app_assoc.
Qed.

(** X17: when the sections the valves export are mappings,
    [get_config_for_api] returns, and an entry of a section of the result
    is the entry of the last valve, in the order of [valves], that exports
    its key in that section. *)
Theorem api_last_export_wins valves :
  (forall valve, valve ∈ dict_values valves ->
     exports_mappings get_config_dict valve) ->
  exists config,
    api valves = Returns config
    /\ forall i, i ∈ V2_TOP_CONFS ->
         exists section,
           dict_get (AStr i) config = Some section
           /\ forall k v, dict_get k section = Some v
                          <-> last_export get_config_dict i k (dict_values valves) v.
Proof.
  intros Hmaps. unfold get_config_for_api.
  destruct (api_fold (dict_values valves) []
              (foldl (fun config i => dict_set (AStr i) [] config) [] V2_TOP_CONFS))
    as (config & Hrun & Hkeys & Hget); [reflexivity| |done|].
  { intros i section k Hi. simpl.
    unfold V2_TOP_CONFS in Hi. rewrite !elem_of_cons, elem_of_nil in Hi.
    destruct Hi as [->|[->|[->|[->|[->|[]]]]]]; by intros [= <-]. }
  exists config. split; [exact Hrun|].
  intros i Hi.
  destruct (dict_get_key (AStr i) config) as [section Hsec].
  { rewrite Hkeys. by apply list_elem_of_fmap_2. }
  exists section. split; [done|]. intros k v.
  rewrite (Hget i section k Hi Hsec). simpl.
  rewrite last_export_fold. split; [|by left].
  by intros [?|[? _]].
Qed.
End ApiMerge.

(** ** The watcher parser *)

Section WatcherParser.
Context {E : Type}.
Variables MIN_VID MAX_VID : Z.
Variable set_iter : gset Z -> list Z.
Variable sanity_check : DP -> M (World E) unit.
Variable finalize_config : DP -> list DP -> M (World E) unit.
Variable resolve_stack_topology : DP -> list DP -> M (World E) unit.
Variable load : pyval -> ConfigFile.

Local Abbreviation parse :=
  (fun file => dp_parser E MIN_VID MAX_VID set_iter sanity_check
                 finalize_config resolve_stack_topology (load file)).
Local Abbreviation load_files :=
  (load_dps E MIN_VID MAX_VID set_iter sanity_check finalize_config
     resolve_stack_topology load).
Local Abbreviation watcher_parser_v2 :=
  (_watcher_parser_v2 E MIN_VID MAX_VID set_iter sanity_check finalize_config
     resolve_stack_topology load).
Local Abbreviation by_name :=
  (foldl (fun (dps : dict DP) dp => dict_set (AStr (dp_name dp)) dp dps)).
Local Abbreviation with_run :=
  (fun (r : Run E) (s : WatcherRun E) =>
     {| parser_run := r; error_log := error_log s |}).

Lemma atom_eqb_str k s : atom_eqb k (AStr s) = true <-> k = AStr s.
Proof.
  destruct k as [|b|z|t]; simpl; try (split; [discriminate|done]).
  rewrite String.eqb_eq. split; congruence.
Qed.

Lemma dict_get_del_other {V} k k' (d : dict V) :
  atom_eqb k k' = false -> dict_get k (dict_del k' d) = dict_get k d.
Proof.
  intros Hne. induction d as [|[k0 v0] d IH]; simpl; [done|].
  destruct (atom_eqb k' k0) eqn:H0.
  - destruct (atom_eqb k k0) eqn:Hk; [|done].
    rewrite atom_eqb_sym in H0.
    rewrite (atom_eqb_congr k0 k' k H0) in Hk. congruence.
  - simpl. by rewrite IH.
Qed.

(** The switches by name after one more switch. *)
Lemma last_named_snoc all dp dp' :
  last_named dp' (all ++ [dp])
  <-> dp' = dp \/ (dp_name dp <> dp_name dp' /\ last_named dp' all).
Proof.
  split.
  - intros (before & after & Hl & Hafter).
    destruct after as [|x after _] using rev_ind.
    + apply app_inj_tail in Hl as [_ ->]. by left.
    + rewrite app_comm_cons, app_assoc in Hl.
      apply app_inj_tail in Hl as [-> ->].
      rewrite Forall_app, Forall_singleton in Hafter. destruct Hafter as [Hafter Hx].
      right. split; [done|]. by exists before, after.
  - intros [->|[Hne (before & after & -> & Hafter)]].
    + exists all, []. by split.
    + exists before, (after ++ [dp]). split; [by rewrite <- app_assoc|].
      apply Forall_app. split; [done|]. by apply Forall_singleton.
Qed.

Lemma last_named_exists all dp :
  dp ∈ all -> exists dp', dp_name dp' = dp_name dp /\ last_named dp' all.
Proof.
  induction all as [|x all IH] using rev_ind; [by intros ?%elem_of_nil|].
  intros Hin. destruct (decide (dp_name x = dp_name dp)) as [Hx|Hx].
  - exists x. split; [done|]. apply last_named_snoc. by left.
  - apply elem_of_app in Hin as [Hin|Hin].
    + destruct (IH Hin) as (dp' & Hname & Hlast). exists dp'. split; [done|].
      apply last_named_snoc. right. split; [congruence|done].
    + apply list_elem_of_singleton in Hin. by subst.
Qed.

Lemma by_name_lookup l : forall dps all,
  (forall k dp, dict_get k dps = Some dp
                <-> k = AStr (dp_name dp) /\ last_named dp all) ->
  forall k dp, dict_get k (by_name dps l) = Some dp
               <-> k = AStr (dp_name dp) /\ last_named dp (all ++ l).
Proof.
  induction l as [|x l IH]; intros dps all Hdps; simpl.
  - by rewrite app_nil_r.
  - intros k dp.
    rewrite (IH (dict_set (AStr (dp_name x)) x dps) (all ++ [x])).
    { by rewrite <- app_assoc. }
    clear k dp. intros k dp. rewrite dict_get_set, last_named_snoc.
    destruct (atom_eqb k (AStr (dp_name x))) eqn:Hk.
    + apply atom_eqb_str in Hk as ->. split.
      * intros [= <-]. split; [done|by left].
      * intros [[= Hname] [->|[Hne _]]]; [done|]. by destruct Hne.
    + rewrite Hdps. split.
      * intros [-> Hlast]. split; [done|]. right. split; [|done].
        intros Hname. rewrite Hname, atom_eqb_refl in Hk. discriminate.
      * intros [-> [->|[_ Hlast]]]; [|done].
        rewrite atom_eqb_refl in Hk. discriminate.
Qed.

(** The loop of lines 232-236. *)
Lemma load_dps_loop files : forall dps0 (s s' : WatcherRun E) res,
  wfoldM load_files dps0 files s = (res, s') ->
  error_log s' = error_log s
  /\ match res with
     | Returns dps =>
         exists all, parsed parse files (parser_run s) all (parser_run s')
                     /\ dps = by_name dps0 all
     | Raises e =>
         exists good bad rest all r1 e0,
           files = good ++ bad :: rest
           /\ parsed parse good (parser_run s) all r1
           /\ parse bad r1 = (Raise e0, parser_run s')
           /\ e = Exn e0
     end.
Proof.
  induction files as [|file files IH]; intros dps0 s s' res; simpl.
  - intros [= <- <-]. split; [done|]. exists []. split; [constructor|done].
  - unfold wbind at 1. unfold load_dps at 1. unfold wbind at 1.
    unfold in_parser at 1.
    destruct (parse file (parser_run s)) as [[[hashes dp_list]|e0] r1] eqn:Hfile.
    + assert (Hstep : (match dp_list with
                       | [] => wret dps0
                       | _ => wret (by_name dps0 dp_list)
                       end : W (WatcherRun E) _) (with_run r1 s)
                      = (Returns (by_name dps0 dp_list), with_run r1 s)).
      { by destruct dp_list. }
      cbn [snd]. rewrite Hstep. intros Hrest.
      apply IH in Hrest as [Hlog Hres]. cbn [error_log parser_run] in *.
      split; [done|]. destruct res as [dps|e].
      * destruct Hres as (all & Hall & ->). exists (dp_list ++ all).
        split; [by econstructor|]. by rewrite foldl_app.
      * destruct Hres as (good & bad & rest & all & r2 & e1 & -> & Hgood & Hbad & ->).
        exists (file :: good), bad, rest, (dp_list ++ all), r2, e1.
        split; [done|]. split; [by econstructor|]. by split.
    + intros [= <- <-]. split; [done|].
      exists [], file, files, [], (parser_run s), e0.
      split; [done|]. split; [constructor|]. by split.
Qed.

(** The loop of lines 241-249 for one declaration. *)
Lemma watch_dp_loop name dictionary dbs (dps : dict DP) names :
  forall result result' (s s' : WatcherRun E),
  wfoldM (watch_dp E name dictionary dbs dps) result names s = (Returns result', s') ->
  parser_run s' = parser_run s
  /\ exists new skipped,
       result' = result ++ new
       /\ error_log s' = error_log s ++ skipped
       /\ (length new + length skipped = length names)%nat
       /\ Forall (fun k => VAtom k ∈ names /\ dict_get k dps = None) skipped
       /\ Forall (fun w => exists k dp db,
                    VAtom k ∈ names /\ dict_get k dps = Some dp
                    /\ subscript dbs (watcher_db (WatcherConf_new name dictionary))
                       = Returns db
                    /\ w = watcher_of name dictionary dp db) new.
Proof.
  induction names as [|x names IH]; intros result result' s s'; simpl.
  - intros [= <- <-]. split; [done|]. exists [], [].
    rewrite !app_nil_r. by repeat split.
  - unfold wbind at 1. unfold watch_dp at 1. unfold wbind at 1.
    unfold lift_outcome at 1.
    destruct x as [k| |]; [|discriminate..].
    destruct (dict_get k dps) as [dp|] eqn:Hk.
    + unfold wbind at 1, lift_outcome at 1.
      destruct (subscript dbs _) as [db|e] eqn:Hdb; [|discriminate].
      unfold wret at 1. intros Hrest.
      apply IH in Hrest as (Hrun & new & skipped & -> & Hlog & Hlen & Hsk & Hnew).
      split; [done|].
      exists (watcher_of name dictionary dp db :: new), skipped.
      split; [by rewrite <- app_assoc|]. split; [done|].
      split; [simpl; lia|]. split.
      * eapply Forall_impl; [exact Hsk|]. intros k0 [? ?]. split; [by right|done].
      * constructor.
        -- exists k, dp, db. split; [by left|]. by repeat split.
        -- eapply Forall_impl; [exact Hnew|].
           intros w (k0 & dp0 & db0 & ? & ?). exists k0, dp0, db0.
           split; [by right|done].
    + unfold wbind at 1, log_error at 1, wret at 1. intros Hrest.
      apply IH in Hrest as (Hrun & new & skipped & -> & Hlog & Hlen & Hsk & Hnew).
      cbn [parser_run error_log] in *. split; [done|].
      exists new, (k :: skipped). split; [done|].
      split; [by rewrite Hlog, <- app_assoc|]. split; [simpl; lia|]. split.
      * constructor; [split; [by left|done]|].
        eapply Forall_impl; [exact Hsk|]. intros k0 [? ?]. split; [by right|done].
      * eapply Forall_impl; [exact Hnew|].
        intros w (k0 & dp0 & db0 & ? & ?). exists k0, dp0, db0.
        split; [by right|done].
Qed.

(** The loop of lines 240-249. *)
Lemma watch_loop dbs (dps : dict DP) watchers :
  forall result result' (s s' : WatcherRun E),
  wfoldM (watch E dbs dps) result watchers s = (Returns result', s') ->
  parser_run s' = parser_run s
  /\ exists new skipped,
       result' = result ++ new
       /\ error_log s' = error_log s ++ skipped
       /\ (length new + length skipped =
           sum_list (length <$> (listed_names <$> watchers.*2)))%nat
       /\ Forall (fun k => dict_get k dps = None) skipped
       /\ Forall (fun w => exists name dictionary k dp db,
                    (name, dictionary) ∈ watchers
                    /\ VAtom k ∈ listed_names dictionary
                    /\ dict_get k dps = Some dp
                    /\ subscript dbs (watcher_db (WatcherConf_new name dictionary))
                       = Returns db
                    /\ w = watcher_of name dictionary dp db) new.
Proof.
  induction watchers as [|[name dictionary] watchers IH];
    intros result result' s s'; cbn [wfoldM].
  - intros [= <- <-]. split; [done|]. exists [], [].
    rewrite !app_nil_r. by repeat split.
  - unfold wbind at 1. unfold watch at 1. cbn [fst snd].
    unfold wbind at 1, lift_outcome at 1.
    destruct (subscript dictionary (VAtom (AStr "dps"))) as [listed|e] eqn:Hl;
      [|discriminate].
    unfold wbind at 1, lift_outcome at 1. unfold iterate.
    destruct (iter_list listed) as [names|] eqn:Hn; [|discriminate].
    destruct (wfoldM (watch_dp E name dictionary dbs dps) result names s)
      as [[result1|e] s1] eqn:Hone; [|discriminate].
    apply watch_dp_loop in Hone
      as (Hrun1 & new1 & skipped1 & -> & Hlog1 & Hlen1 & Hsk1 & Hnew1).
    intros Hrest.
    apply IH in Hrest as (Hrun & new & skipped & -> & Hlog & Hlen & Hsk & Hnew).
    split; [congruence|].
    assert (Hnames : listed_names dictionary = names).
    { unfold listed_names. by rewrite Hl, Hn. }
    exists (new1 ++ new), (skipped1 ++ skipped).
    split; [by rewrite <- app_assoc|].
    split; [by rewrite Hlog, Hlog1, <- app_assoc|].
    split.
    { rewrite !length_app, !fmap_cons. cbn [sum_list_with snd].
      rewrite Hnames. unfold id at 1. lia. }
    split.
    + apply Forall_app. split; [|done].
      eapply Forall_impl; [exact Hsk1|]. by intros k [_ ?].
    + apply Forall_app. split.
      * eapply Forall_impl; [exact Hnew1|].
        intros w (k & dp & db & Hin & Hk & Hdb & ->).
        exists name, dictionary, k, dp, db. split; [by left|].
        rewrite Hnames. by repeat split.
      * eapply Forall_impl; [exact Hnew|].
        intros w (name0 & dictionary0 & k & dp & db & Hin & Hrest).
        exists name0, dictionary0, k, dp, db. split; [by right|done].
Qed.

(** What a call of [_watcher_parser_v2] that returns has done. *)
Lemma watcher_parser_returns conf result (s s' : WatcherRun E) :
  watcher_parser_v2 conf s = (Returns result, s') ->
  exists d faucet_configs files all dbs watchers skipped,
    conf = VDict d
    /\ dict_get (AStr "faucet_configs") d = Some faucet_configs
    /\ iter_list faucet_configs = Some files
    /\ parsed parse files (parser_run s) all (parser_run s')
    /\ dict_get (AStr "dbs") d = Some dbs
    /\ dict_get (AStr "watchers") d = Some (VDict watchers)
    /\ error_log s' = error_log s ++ skipped
    /\ (length result + length skipped =
        sum_list (length <$> (listed_names <$> watchers.*2)))%nat
    /\ Forall (fun k => forall dp, dp ∈ all -> k <> AStr (dp_name dp)) skipped
    /\ Forall (fun w => exists name dictionary dp db,
                 (name, dictionary) ∈ watchers
                 /\ VAtom (AStr (dp_name dp)) ∈ listed_names dictionary
                 /\ last_named dp all
                 /\ subscript dbs (watcher_db (WatcherConf_new name dictionary))
                    = Returns db
                 /\ w = watcher_of name dictionary dp db) result.
Proof.
  unfold _watcher_parser_v2. unfold wbind at 1, lift_outcome at 1.
  destruct (subscript conf (VAtom (AStr "faucet_configs"))) as [fc|e] eqn:Hfc;
    [|discriminate].
  assert (exists d, conf = VDict d /\ dict_get (AStr "faucet_configs") d = Some fc)
    as (d & -> & Hfcd).
  { destruct conf as [[| | |str]|l|d]; simpl in Hfc; try discriminate.
    exists d. split; [done|].
    by destruct (dict_get (AStr "faucet_configs") d); [injection Hfc as ->|]. }
  unfold wbind at 1, lift_outcome at 1. unfold iterate.
  destruct (iter_list fc) as [files|] eqn:Hfiles; [|discriminate].
  unfold wbind at 1.
  destruct (wfoldM load_files [] files s) as [[dps|e] s1] eqn:Hload; [|discriminate].
  apply load_dps_loop in Hload as (Hlog1 & all & Hall & ->).
  unfold wbind at 1, lift_outcome at 1. cbn [pop].
  destruct (dict_get (AStr "dbs") d) as [dbs|] eqn:Hdbs; [|discriminate].
  cbn [fst snd]. unfold wbind at 1, lift_outcome at 1. cbn [subscript].
  rewrite dict_get_del_other by done.
  destruct (dict_get (AStr "watchers") d) as [watchers|] eqn:Hw; [|discriminate].
  unfold wbind at 1, lift_outcome at 1.
  destruct watchers as [a|l|watchers]; [discriminate..|]. cbn [items].
  intros Hloop.
  apply watch_loop in Hloop
    as (Hrun & new & skipped & -> & Hlog & Hlen & Hsk & Hnew).
  assert (Hdps : forall k dp, dict_get k (by_name [] all) = Some dp
                   <-> k = AStr (dp_name dp) /\ last_named dp all).
  { apply (by_name_lookup all [] []). intros k dp. simpl. split; [done|].
    intros [_ (before & after & Hnil & _)]. by destruct before. }
  exists d, fc, files, all, dbs, watchers, skipped.
  do 3 (split; [done|]). split; [by rewrite Hrun|].
  do 2 (split; [done|]). split; [by rewrite Hlog, Hlog1|].
  split; [done|]. split.
  - eapply Forall_impl; [exact Hsk|]. intros k Hk dp Hin ->.
    destruct (last_named_exists all dp Hin) as (dp' & Hname & Hlast).
    assert (Hsome : dict_get (AStr (dp_name dp)) (by_name [] all) = Some dp').
    { apply Hdps. split; [by rewrite Hname|done]. }
    congruence.
  - eapply Forall_impl; [exact Hnew|].
    intros w (name & dictionary & k & dp & db & Hin & Hk & Hget & Hdb & ->).
    apply Hdps in Hget as [-> Hlast].
    by exists name, dictionary, dp, db.
Qed.
(** X18: every watcher that [_watcher_parser_v2] returns is made for a
    declaration of the [watchers] section and bound to a switch whose name
    that declaration lists: the last switch of that name among those
    [dp_parser] returned for the files of [faucet_configs], parsed in
    order; and to the sink configuration found in [dbs] under the
    watcher's [db]. *)
Theorem watchers_bound conf result (s s' : WatcherRun E) :
  watcher_parser_v2 conf s = (Returns result, s') ->
  exists d faucet_configs files all dbs watchers,
    conf = VDict d
    /\ dict_get (AStr "faucet_configs") d = Some faucet_configs
    /\ iter_list faucet_configs = Some files
    /\ parsed parse files (parser_run s) all (parser_run s')
    /\ dict_get (AStr "dbs") d = Some dbs
    /\ dict_get (AStr "watchers") d = Some (VDict watchers)
    /\ Forall (fun w => exists name dictionary dp db,
                 (name, dictionary) ∈ watchers
                 /\ VAtom (AStr (dp_name dp)) ∈ listed_names dictionary
                 /\ last_named dp all
                 /\ subscript dbs (watcher_db (WatcherConf_new name dictionary))
                    = Returns db
                 /\ w = watcher_of name dictionary dp db) result.
Proof.
  intros Hrun. apply watcher_parser_returns in Hrun
    as (d & fc & files & all & dbs & watchers & skipped & H1 & H2 & H3 & H4
        & H5 & H6 & _ & _ & _ & H10).
  by exists d, fc, files, all, dbs, watchers.
Qed.

(** X19: a listed switch name that no parsed file configures is logged and
    skipped, it does not fail the call: when [_watcher_parser_v2] returns,
    the error log has grown by names that are the name of no parsed switch,
    and the watchers returned and the names logged together are as many as
    the names the declarations list. *)
Theorem unconfigured_switches_skipped conf result (s s' : WatcherRun E) :
  watcher_parser_v2 conf s = (Returns result, s') ->
  exists d faucet_configs files all watchers skipped,
    conf = VDict d
    /\ dict_get (AStr "faucet_configs") d = Some faucet_configs
    /\ iter_list faucet_configs = Some files
    /\ parsed parse files (parser_run s) all (parser_run s')
    /\ dict_get (AStr "watchers") d = Some (VDict watchers)
    /\ error_log s' = error_log s ++ skipped
    /\ (length result + length skipped =
        sum_list (length <$> (listed_names <$> watchers.*2)))%nat
    /\ Forall (fun k => forall dp, dp ∈ all -> k <> AStr (dp_name dp)) skipped.
Proof.
  intros Hrun. apply watcher_parser_returns in Hrun
    as (d & fc & files & all & dbs & watchers & skipped & H1 & H2 & H3 & H4
        & H5 & H6 & H7 & H8 & H9 & _).
  by exists d, fc, files, all, watchers, skipped.
Qed.

(** The first loop on files that all parse, and on files of which one is
    rejected. *)
Lemma load_dps_parsed files all (r r' : Run E) :
  parsed parse files r all r' ->
  forall dps0 log,
    wfoldM load_files dps0 files {| parser_run := r; error_log := log |} =
      (Returns (by_name dps0 all), {| parser_run := r'; error_log := log |}).
Proof.
  induction 1 as [r|file files r hashes dp_list r1 dps r2 Hfile _ IH];
    intros dps0 log; [done|].
  cbn [wfoldM]. unfold wbind at 1. unfold load_dps at 1. unfold wbind at 1.
  unfold in_parser at 1. cbn [parser_run error_log]. rewrite Hfile. cbn [snd].
  rewrite foldl_app.
  destruct dp_list as [|dp dp_list]; [exact (IH dps0 log)|].
  exact (IH (by_name dps0 (dp :: dp_list)) log).
Qed.

Lemma load_dps_rejected good all (r r1 : Run E) :
  parsed parse good r all r1 ->
  forall bad e r2 rest dps0 log,
    parse bad r1 = (Raise e, r2) ->
    wfoldM load_files dps0 (good ++ bad :: rest)
      {| parser_run := r; error_log := log |} =
      (Raises (Exn e), {| parser_run := r2; error_log := log |}).
Proof.
  induction 1 as [r|file files r hashes dp_list r1 dps r2 Hfile _ IH];
    intros bad e r3 rest dps0 log Hbad.
  - cbn [app wfoldM]. unfold wbind at 1. unfold load_dps at 1. unfold wbind at 1.
    unfold in_parser at 1. cbn [parser_run error_log]. by rewrite Hbad.
  - cbn [app wfoldM]. unfold wbind at 1. unfold load_dps at 1. unfold wbind at 1.
    unfold in_parser at 1. cbn [parser_run error_log]. rewrite Hfile. cbn [snd].
    destruct dp_list as [|dp dp_list]; by apply IH.
Qed.

(** X20: a listed file that [dp_parser] rejects fails the whole call with
    the exception of [dp_parser]: the files before it have been parsed, no
    file after it is, nothing is logged and no watcher is returned, whatever
    the [dbs] and [watchers] sections hold. *)
Theorem rejected_file_fails d faucet_configs good bad rest all e r1 r2
    (s : WatcherRun E) :
  dict_get (AStr "faucet_configs") d = Some faucet_configs ->
  iter_list faucet_configs = Some (good ++ bad :: rest) ->
  parsed parse good (parser_run s) all r1 ->
  parse bad r1 = (Raise e, r2) ->
  watcher_parser_v2 (VDict d) s =
    (Raises (Exn e), {| parser_run := r2; error_log := error_log s |}).
Proof.
  intros Hfc Hfiles Hgood Hbad. destruct s as [r log]. cbn [parser_run error_log] in *.
  unfold _watcher_parser_v2. unfold wbind at 1, lift_outcome at 1.
  cbn [subscript]. rewrite Hfc.
  unfold wbind at 1, lift_outcome at 1. unfold iterate. rewrite Hfiles.
  unfold wbind at 1.
  by rewrite (load_dps_rejected good all r r1 Hgood bad e r2 rest [] log Hbad).
Qed.

(** X21: the lookups the watcher parser does not guard.  A source that
    reads as an empty document makes [watcher_parser] raise [TypeError]; a mapping without [faucet_configs] raises
    [KeyError] before any file is parsed; a mapping without [dbs] raises
    [KeyError] once all the listed files have been parsed, also when it
    declares no watcher. *)
Theorem unguarded_lookups (s : WatcherRun E) :
  (forall config_file, read_config (load config_file) = VAtom ANone ->
     watcher_parser E MIN_VID MAX_VID set_iter sanity_check finalize_config
       resolve_stack_topology load config_file s =
       (Raises (Exn (TypeError "object is not subscriptable")), s))
  /\ (forall d, dict_get (AStr "faucet_configs") d = None ->
        watcher_parser_v2 (VDict d) s =
          (Raises (KeyError (AStr "faucet_configs")), s))
  /\ (forall d faucet_configs files all r',
        dict_get (AStr "faucet_configs") d = Some faucet_configs ->
        iter_list faucet_configs = Some files ->
        parsed parse files (parser_run s) all r' ->
        dict_get (AStr "dbs") d = None ->
        watcher_parser_v2 (VDict d) s =
          (Raises (KeyError (AStr "dbs")),
           {| parser_run := r'; error_log := error_log s |})).
Proof.
  split; [|split].
  - intros config_file Hempty. unfold watcher_parser. by rewrite Hempty.
  - intros d Hfc. unfold _watcher_parser_v2. unfold wbind at 1, lift_outcome at 1.
    cbn [subscript]. by rewrite Hfc.
  - intros d fc files all r' Hfc Hfiles Hall Hdbs. destruct s as [r log].
    cbn [parser_run error_log] in *.
    unfold _watcher_parser_v2. unfold wbind at 1, lift_outcome at 1.
    cbn [subscript]. rewrite Hfc.
    unfold wbind at 1, lift_outcome at 1. unfold iterate. rewrite Hfiles.
    unfold wbind at 1.
    rewrite (load_dps_parsed files all r r' Hall [] log).
    unfold wbind at 1, lift_outcome at 1. cbn [pop]. by rewrite Hdbs.
Qed.
End WatcherParser.

(** ** Closed runs of the API and of the watcher parser *)

Section ClosedWatcherRuns.
Import Closed ClosedWatcher.

Local Abbreviation faucet_yaml := (VAtom (AStr "faucet.yaml")).
Local Abbreviation missing_yaml := (VAtom (AStr "missing.yaml")).
Local Abbreviation parse :=
  (fun file => dp_parser E MIN_VID MAX_VID set_iter sanity_check
                 finalize_config resolve_stack_topology (load file)).

(** Two valves, of which the second also exports a [version]. *)
Lemma api_sections_witness :
  exists config,
    get_config_for_api Valve get_config_dict valves = Returns config
    /\ config.*1 = AStr <$> V2_TOP_CONFS.
Proof.
  destruct (get_config_for_api Valve get_config_dict valves) as [config|e] eqn:Hrun;
    [|vm_compute in Hrun; discriminate].
  exists config. split; [reflexivity|].
  exact (api_sections get_config_dict valves config Hrun).
Defined.

(** Both valves export the VLAN [office]: that of the second is kept. *)
Lemma api_last_export_wins_witness :
  exists config section,
    get_config_for_api Valve get_config_dict valves = Returns config
    /\ dict_get (AStr "vlans") config = Some section
    /\ dict_get (AStr "office") section =
         Some (VDict [(AStr "vid", VAtom (AInt 200))]).
Proof.
  destruct (api_last_export_wins get_config_dict valves)
    as (config & Hrun & Hget).
  - intros valve Hin. cbn in Hin.
    rewrite !elem_of_cons, elem_of_nil in Hin.
    destruct Hin as [->|[->|[]]]; intros i x Hi;
      unfold V2_TOP_CONFS in Hi; rewrite !elem_of_cons, elem_of_nil in Hi;
      destruct Hi as [->|[->|[->|[->|[->|[]]]]]]; cbn;
      intros [= <-]; eexists; (split; [reflexivity|by cbn]).
  - destruct (Hget "vlans"%string) as (section & Hsec & Hk).
    { unfold V2_TOP_CONFS. rewrite !elem_of_cons. tauto. }
    exists config, section. split; [exact Hrun|]. split; [exact Hsec|].
    apply Hk. exists [valve_1], valve_2, []. split; [reflexivity|].
    split; [reflexivity|constructor].
Defined.

(** One file, one watcher on [sw1] and on the unknown [sw9]. *)
Lemma watchers_bound_witness :
  exists result s' files all,
    watcher_parser_v2 (VDict (gauge [faucet_yaml])) watch0 = (Returns result, s')
    /\ parsed parse files (parser_run watch0) all (parser_run s')
    /\ length result = 1%nat.
Proof.
  destruct (watcher_parser_v2 (VDict (gauge [faucet_yaml])) watch0)
    as [[result|e] s'] eqn:Hrun; [|vm_compute in Hrun; discriminate].
  destruct (watchers_bound MIN_VID MAX_VID set_iter sanity_check finalize_config
              resolve_stack_topology load _ result watch0 s' Hrun)
    as (d & fc & files & all & dbs & watchers & _ & _ & _ & Hall & _).
  exists result, s', files, all. split; [reflexivity|]. split; [exact Hall|].
  vm_compute in Hrun. by injection Hrun as <- _.
Defined.

Lemma unconfigured_switches_skipped_witness :
  exists result s' skipped,
    watcher_parser_v2 (VDict (gauge [faucet_yaml])) watch0 = (Returns result, s')
    /\ error_log s' = error_log watch0 ++ skipped
    /\ error_log s' = [AStr "sw9"].
Proof.
  destruct (watcher_parser_v2 (VDict (gauge [faucet_yaml])) watch0)
    as [[result|e] s'] eqn:Hrun; [|vm_compute in Hrun; discriminate].
  destruct (unconfigured_switches_skipped MIN_VID MAX_VID set_iter sanity_check
              finalize_config resolve_stack_topology load _ result watch0 s' Hrun)
    as (d & fc & files & all & watchers & skipped & _ & _ & _ & _ & _ & Hlog & _).
  exists result, s', skipped. split; [reflexivity|]. split; [exact Hlog|].
  vm_compute in Hrun. by injection Hrun as _ <-.
Defined.

(** A second file that cannot be read. *)
Lemma rejected_file_fails_witness :
  exists r2,
    watcher_parser_v2 (VDict (gauge [faucet_yaml; missing_yaml; faucet_yaml])) watch0
    = (Raises (Exn (InvalidConfigError MsgConfigEmpty)),
       {| parser_run := r2; error_log := [] |}).
Proof.
  destruct (parse faucet_yaml run0) as [[[hashes dp_list]|e] r1] eqn:Hfirst;
    [|vm_compute in Hfirst; discriminate].
  exists r1.
  apply (rejected_file_fails MIN_VID MAX_VID set_iter sanity_check finalize_config
           resolve_stack_topology load
           (gauge [faucet_yaml; missing_yaml; faucet_yaml])
           (VList [faucet_yaml; missing_yaml; faucet_yaml])
           [faucet_yaml] missing_yaml [faucet_yaml] (dp_list ++ [])
           (InvalidConfigError MsgConfigEmpty) r1 r1 watch0).
  - reflexivity.
  - reflexivity.
  - eapply parsed_cons; [exact Hfirst|constructor].
  - reflexivity.
Defined.
End ClosedWatcherRuns.

(** ** Integer references *)

Section IntegerReferences.
Context {E : Type}.
Variables MIN_VID MAX_VID : Z.

Local Abbreviation get_vlan := (_get_vlan_by_identifier E MIN_VID MAX_VID).

Lemma all_digits_uint u : all_digits (NilEmpty.string_of_uint u) = true.
Proof. induction u; simpl; try done. Qed.

(** The digits of a decimal numeral, read after the digits [acc]. *)
Lemma digits_acc_uint u : forall acc,
  digits_acc 10 false (Z.pos acc) (NilEmpty.string_of_uint u)
  = Some (Z.pos (Pos.of_uint_acc u acc)).
Proof.
  induction u as [|u IH|u IH|u IH|u IH|u IH|u IH|u IH|u IH|u IH|u IH];
    intros acc; [done|..];
    cbn [NilEmpty.string_of_uint digits_acc Pos.of_uint_acc];
    match goal with
    | |- context [Ascii.eqb ?a ?b] => change (Ascii.eqb a b) with false
    end;
    match goal with
    | |- context [digit_val ?c] =>
        let v := eval vm_compute in (digit_val c) in change (digit_val c) with v
    end;
    cbv iota beta;
    match goal with
    | |- context [?d <? 10] => change (d <? 10) with true
    end;
    cbv iota; rewrite <- IH; f_equal; lia.
Qed.

Lemma unorm_zero_head u l : Decimal.unorm u = Decimal.D0 l -> l = Decimal.Nil.
Proof.
  induction u; simpl; try discriminate; try done.
  by intros [= <-].
Qed.

(** [int(str(p), 0)] for a positive [p]. *)
Lemma int0_str_pos p :
  unsigned_literal0 (NilZero.string_of_uint (Pos.to_uint p)) = Some (Z.pos p)
  /\ all_digits (NilZero.string_of_uint (Pos.to_uint p)) = true
  /\ exists c s, NilZero.string_of_uint (Pos.to_uint p) = String c s
                 /\ is_digit c = true.
Proof.
  pose proof (DecimalPos.Unsigned.of_to p) as Hof.
  pose proof (DecimalPos.Unsigned.to_of (Pos.to_uint p)) as Hnorm.
  rewrite Hof in Hnorm. cbn [N.to_uint] in Hnorm.
  pose proof (DecimalPos.Unsigned.to_uint_nonzero p) as Hnz.
  destruct (Pos.to_uint p) as [|u|u|u|u|u|u|u|u|u|u] eqn:Hp.
  - by destruct (DecimalPos.Unsigned.to_uint_nonnil p).
  - symmetry in Hnorm. pose proof (unorm_zero_head _ _ Hnorm). by subst.
  - cbn [Pos.of_uint] in Hof. injection Hof as <-.
    split; [|split; [apply (all_digits_uint (Decimal.D1 u))|by eexists _, _]].
    apply (digits_acc_uint u 1).
  - cbn [Pos.of_uint] in Hof. injection Hof as <-.
    split; [|split; [apply (all_digits_uint (Decimal.D2 u))|by eexists _, _]].
    apply (digits_acc_uint u 2).
  - cbn [Pos.of_uint] in Hof. injection Hof as <-.
    split; [|split; [apply (all_digits_uint (Decimal.D3 u))|by eexists _, _]].
    apply (digits_acc_uint u 3).
  - cbn [Pos.of_uint] in Hof. injection Hof as <-.
    split; [|split; [apply (all_digits_uint (Decimal.D4 u))|by eexists _, _]].
    apply (digits_acc_uint u 4).
  - cbn [Pos.of_uint] in Hof. injection Hof as <-.
    split; [|split; [apply (all_digits_uint (Decimal.D5 u))|by eexists _, _]].
    apply (digits_acc_uint u 5).
  - cbn [Pos.of_uint] in Hof. injection Hof as <-.
    split; [|split; [apply (all_digits_uint (Decimal.D6 u))|by eexists _, _]].
    apply (digits_acc_uint u 6).
  - cbn [Pos.of_uint] in Hof. injection Hof as <-.
    split; [|split; [apply (all_digits_uint (Decimal.D7 u))|by eexists _, _]].
    apply (digits_acc_uint u 7).
  - cbn [Pos.of_uint] in Hof. injection Hof as <-.
    split; [|split; [apply (all_digits_uint (Decimal.D8 u))|by eexists _, _]].
    apply (digits_acc_uint u 8).
  - cbn [Pos.of_uint] in Hof. injection Hof as <-.
    split; [|split; [apply (all_digits_uint (Decimal.D9 u))|by eexists _, _]].
    apply (digits_acc_uint u 9).
Qed.

(** [int(str(z), 0) == z] *)
Lemma int0_str z : int0 (atom_str (AInt z)) = Some z.
Proof.
  destruct z as [|p|p]; [reflexivity|..];
    destruct (int0_str_pos p) as (Hval & Hdigits & c & s & Hs & Hc);
    unfold int0, signed, strip; cbn [atom_str Z.to_int NilZero.string_of_int].
  - rewrite Hs in *.
    assert (Hl : lstrip (String c s) = String c s).
    { cbn [lstrip]. by destruct (digit_char c Hc) as (_ & _ & -> & _). }
    rewrite Hl, (rstrip_digits _ Hdigits).
    destruct (digit_char c Hc) as (_ & Hminus & _ & _).
    destruct c as [[] [] [] [] [] [] [] []]; try discriminate Hc;
      try discriminate Hminus; exact Hval.
  - assert (Hl : lstrip (String "-" (NilZero.string_of_uint (Pos.to_uint p)))
                 = String "-" (NilZero.string_of_uint (Pos.to_uint p))) by done.
    rewrite Hl. cbn [rstrip]. rewrite (rstrip_digits _ Hdigits).
    rewrite Hs. rewrite <- Hs, Hval. done.
Qed.

(** X22: an integer reference is never matched against the ids of the
    VLANs of the switch.  When it is no key of the mapping, it gets a new
    VLAN object of that id, registered under the integer, if it is in the
    valid range, and the range error otherwise: also when the mapping
    already has a VLAN of that id under another key. *)
Theorem integer_reference dp_id z (vlans : dict addr) (w : World E) :
  dict_get (AInt z) vlans = None ->
  get_vlan dp_id (VAtom (AInt z)) vlans w =
    if (MIN_VID <=? z) && (z <=? MAX_VID)
    then (Ok (length (heap w), vlans ++ [(AInt z, length (heap w))]),
          set_heap E (heap w ++ [VLAN_new (AInt z) dp_id []]) w)
    else (Raise (AssertionError (MsgVidRange (AInt z) z)), w).
Proof.
  intros Hk.
  destruct ((MIN_VID <=? z) && (z <=? MAX_VID)) eqn:Hr.
  - apply andb_true_iff in Hr as [Hlo%Z.leb_le Hhi%Z.leb_le].
    apply (get_vlan_fresh MIN_VID MAX_VID dp_id (AInt z) z vlans w);
      [done|done|apply int0_str|done].
  - unfold _get_vlan_by_identifier, bind, hashable, ret, get. cbv beta iota.
    rewrite Hk, (find_vid_matches_None (heap w) (AInt z) (dict_values vlans))
      by done.
    rewrite int0_str. unfold assert_. by rewrite Hr.
Qed.
End IntegerReferences.

Section IntegerReferenceRuns.
Import Closed.

(** Two VLANs of id 100 under the names [a] and [b]: the integer 100 gets a
    third one. *)
Lemma integer_reference_witness :
  get_vlan (AInt 1) (VAtom (AInt 100)) [(AStr "a", 0%nat); (AStr "b", 1%nat)]
    plain_and_speaker =
    (Ok (2%nat, [(AStr "a", 0%nat); (AStr "b", 1%nat); (AInt 100, 2%nat)]),
     set_heap E (heap plain_and_speaker ++ [VLAN_new (AInt 100) (AInt 1) []])
       plain_and_speaker).
Proof.
  exact (integer_reference MIN_VID MAX_VID (AInt 1) 100
           [(AStr "a", 0%nat); (AStr "b", 1%nat)] plain_and_speaker eq_refl).
Defined.
End IntegerReferenceRuns.

(** ** The VLAN objects of a switch *)

Section OwnVlans.
Context {E : Type}.
Variables MIN_VID MAX_VID : Z.
Variable set_iter : gset Z -> list Z.
Variable sanity_check : DP -> M (World E) unit.
Variable finalize_config : DP -> list DP -> M (World E) unit.
Variable resolve_stack_topology : DP -> list DP -> M (World E) unit.

Local Abbreviation get_vlan := (_get_vlan_by_identifier E MIN_VID MAX_VID).
Local Abbreviation parse_port := (_dp_parse_port E MIN_VID MAX_VID).
Local Abbreviation add_ports := (_dp_add_ports E MIN_VID MAX_VID set_iter).
Local Abbreviation assemble :=
  (assemble_dp E MIN_VID MAX_VID set_iter sanity_check).
Local Abbreviation parser_v2 :=
  (_dp_parser_v2 E MIN_VID MAX_VID set_iter sanity_check
     finalize_config resolve_stack_topology).

Lemma get_vlan_from n0 dp_id v vlans vlans' a (w w' : World E) :
  (n0 <= length (heap w))%nat -> vlans_from n0 vlans ->
  get_vlan dp_id v vlans w = (Ok (a, vlans'), w') ->
  vlans_from n0 vlans' /\ (n0 <= length (heap w'))%nat.
Proof.
  intros Hn Hfrom Hrun.
  destruct (get_vlan_outcome _ _ _ _ _ _ _ _ Hrun)
    as [_ [[-> ->]|(k & n & _ & _ & _ & _ & -> & -> & ->)]]; [done|].
  cbn [heap set_heap]. rewrite length_app. split; [|lia].
  intros a. unfold dict_values. rewrite fmap_app.
  intros [Hin|Hin]%elem_of_app; [by apply Hfrom|].
  apply list_elem_of_singleton in Hin. by subst.
Qed.

Lemma parse_port_from n0 dp_id p_identifier port_conf vlans vlans' port
    (w w' : World E) :
  (n0 <= length (heap w))%nat -> vlans_from n0 vlans ->
  parse_port dp_id p_identifier port_conf vlans w = (Ok (port, vlans'), w') ->
  vlans_from n0 vlans'.
Proof.
  intros Hn Hfrom Hparse. unfold _dp_parse_port, bind in Hparse.
  destruct (resolve_native _ _ _ _ _ _ w) as [[[p1 v1]|?] s0] eqn:Hnat;
    [|discriminate].
  cbn [fst snd] in Hparse.
  destruct (resolve_tagged_vlans _ _ _ _ _ _ s0) as [[[p2 v2]|?] s2] eqn:Htag;
    [|discriminate].
  unfold assert_, ret, raise in Hparse. cbn [fst snd] in Hparse.
  destruct (has_vlan_or_stack p2); [|discriminate].
  injection Hparse as _ <- _.
  destruct (resolve_native_spec _ _ _ _ _ _ _ _ Hnat) as [[[Hlen0 _] _] _].
  assert (Hv1 : vlans_from n0 v1).
  { unfold resolve_native in Hnat.
    destruct (native_vlan (Port_new p_identifier port_conf)) as [[[| | |]| |]|];
      try (by injection Hnat as _ <- _);
      (unfold bind in Hnat;
       destruct (_get_vlan_by_identifier _ _ _ _ _ _ w) as [[[a0 va]|?] sx] eqn:Hget;
         [|discriminate];
       unfold update_vlan, modify, ret in Hnat; injection Hnat as _ <- _;
       by destruct (get_vlan_from n0 _ _ _ _ _ _ _ Hn Hfrom Hget)). }
  unfold resolve_tagged_vlans, bind in Htag.
  destruct ((match tagged_vlans p1 with
             | Idents v => iter v
             | Objs _ => ret []
             end) s0) as [[idents|?] sy] eqn:Hiter; [|discriminate].
  assert (sy = s0) as ->.
  { destruct (tagged_vlans p1) as [v|]; [|by injection Hiter as _ <-].
    unfold iter in Hiter. destruct (iter_list v); [|discriminate].
    by injection Hiter as _ <-. }
  destruct (foldM _ ([], v1) idents s0) as [[[l v3]|?] sz] eqn:Hfold;
    [|discriminate].
  cbn [fst snd] in Htag.
  destruct (forM_ l _ sz) as [[[]|?] su]; [|discriminate].
  unfold ret in Htag. injection Htag as _ <- _.
  refine (proj1 (foldM_result
           (fun acc0 (t : World E) =>
              vlans_from n0 acc0.2 /\ (n0 <= length (heap t))%nat)
           (resolve_tagged E MIN_VID MAX_VID dp_id) idents
           _ ([], v1) s0 (l, v3) sz _ Hfold)); [|split; [done|lia]].
  intros acc0 x t acc0' t' _ [Hacc0 Ht]. unfold resolve_tagged, bind.
  destruct (_get_vlan_by_identifier _ _ _ _ _ _ t) as [[[a0 va]|?] tx] eqn:Hget;
    [|discriminate].
  unfold ret. intros [= <- <-]. cbn [snd].
  exact (get_vlan_from n0 _ _ _ _ _ _ _ Ht Hacc0 Hget).
Qed.

Lemma dp_add_ports_from n0 dp dp_conf dp_id vlans dp' (w w' : World E) :
  (n0 <= length (heap w))%nat -> vlans_from n0 vlans ->
  add_ports dp dp_conf dp_id vlans w = (Ok dp', w') ->
  forall a, a ∈ dp_vlans dp' -> a ∈ dp_vlans dp \/ (n0 <= a)%nat.
Proof.
  intros Hn Hfrom. unfold _dp_add_ports. unfold bind at 1. unfold lift_result.
  destruct (expand_ports set_iter _ _) as [pcs|err]; [|discriminate].
  unfold ret at 1. unfold bind at 1.
  destruct (foldM _ (dp, vlans) _ w) as [[[dp1 vlans1]|err] w1] eqn:Hloop;
    [|discriminate].
  pose proof Hloop as Hloop'.
  apply add_ports_loop in Hloop as (_ & _ & Hvl1 & _).
  cbn [fst snd] in *. intros Hattach a Ha.
  assert (Hfrom1 : vlans_from n0 vlans1).
  { refine (proj1 (foldM_result
             (fun acc (s : World E) =>
                vlans_from n0 acc.2 /\ (n0 <= length (heap s))%nat)
             _ _ _ (dp, vlans) w (dp1, vlans1) w1 _ Hloop')); [|by split].
    clear. intros acc e s acc' s' _ [Hacc Hs] Hstep.
    destruct (add_port_spec _ _ _ _ _ _ _ _ _ Hstep) as [[[Hlen _] _] _].
    split; [|lia].
    unfold add_port, bind in Hstep.
    destruct (confs pcs !! e.2) as [c|]; [|discriminate].
    unfold ret at 1 in Hstep.
    destruct (_dp_parse_port E MIN_VID MAX_VID dp_id e.1 c acc.2 s)
      as [[[port vlans2]|?] s1] eqn:Hparse; [|discriminate].
    unfold ret in Hstep. injection Hstep as <- _. cbn [snd].
    exact (parse_port_from n0 _ _ _ _ _ _ _ _ Hs Hacc Hparse). }
  apply add_used_vlans_spec in Hattach as (_ & _ & _ & _ & _ & Hiff).
  apply Hiff in Ha as [Ha|[Ha _]].
  - left. by rewrite <- Hvl1.
  - right. by apply Hfrom1.
Qed.

Lemma declare_vlans_from dp_id l : forall vlans vlans' (w w' : World E) n0,
  (n0 <= length (heap w))%nat -> vlans_from n0 vlans ->
  foldM (declare_vlan E dp_id) vlans l w = (Ok vlans', w') ->
  vlans_from n0 vlans' /\ (n0 <= length (heap w'))%nat.
Proof.
  induction l as [|x l IH]; intros vlans vlans' w w' n0 Hn Hfrom; simpl.
  - by intros [= <- <-].
  - unfold bind at 1. unfold declare_vlan at 1, bind, new_vlan, ret.
    apply IH.
    + cbn [heap set_heap]. rewrite length_app. lia.
    + intros a [y [-> Hy]]%list_elem_of_fmap.
      apply elem_of_dict_set in Hy as [->|Hy]; [done|].
      apply Hfrom. by apply list_elem_of_fmap_2.
Qed.

Section Assembly.
Hypothesis sanity_check_keeps : forall dp (w w' : World E) res,
  sanity_check dp w = (res, w') -> (length (heap w) <= length (heap w'))%nat.

Lemma assemble_dp_own acls_conf meters_conf routers_conf vlans_conf dps x dps'
    (w w' : World E) :
  assemble acls_conf meters_conf routers_conf vlans_conf dps x w = (Ok dps', w') ->
  (length (heap w) <= length (heap w'))%nat
  /\ exists dp, dps' = dps ++ [dp]
       /\ forall a, a ∈ dp_vlans dp ->
            (length (heap w) <= a < length (heap w'))%nat.
Proof.
  unfold assemble_dp. unfold bind at 1.
  destruct (sanity_check _ w) as [[[]|?] w1] eqn:Hsc; [|discriminate].
  apply sanity_check_keeps in Hsc.
  unfold bind at 1.
  destruct (foldM _ [] (dict_items vlans_conf) w1) as [[vlans|?] w2] eqn:Hdecl;
    [|discriminate].
  assert (Hnone : vlans_from (length (heap w)) []) by (intros a Ha; inversion Ha).
  destruct (declare_vlans_from _ _ _ _ _ _ (length (heap w)) Hsc Hnone Hdecl)
    as [Hfrom Hw2].
  unfold bind at 1.
  destruct (add_ports _ _ _ vlans w2) as [[dp1|?] w3] eqn:Hports;
    [|discriminate].
  pose proof (dp_add_ports_from _ _ _ _ _ _ _ _ Hw2 Hfrom Hports) as Hlow.
  apply dp_add_ports_spec in Hports as (_ & [Hlen _] & _ & _ & _ & Hhigh & _).
  unfold ret. intros [= <- <-]. split; [lia|].
  eexists. split; [reflexivity|]. intros a Ha.
  set (dp0 := DP_new x.1 x.2) in *.
  destruct (foldl_add_router (dict_items routers_conf) dp0)
    as (_ & _ & _ & _ & R5 & _).
  cbv zeta in R5.
  set (dpr := foldl _ dp0 (dict_items routers_conf)) in *.
  destruct (foldl_set_meter (dict_items meters_conf) dpr)
    as (_ & _ & _ & _ & M5 & _).
  cbv zeta in M5.
  set (dpm := foldl _ dpr (dict_items meters_conf)) in *.
  destruct (foldl_add_acl
              ((fun ic => (ic.1, {| acl_id := ic.1; acl_conf := ic.2 |}))
                 <$> dict_items acls_conf) dp1)
    as (_ & _ & _ & _ & A5 & _).
  cbv zeta in A5. rewrite A5 in Ha.
  assert (Hempty : dp_vlans dpm = []) by (by rewrite M5, R5).
  split.
  - destruct (Hlow a Ha) as [Hin|?]; [|done].
    rewrite Hempty in Hin. by apply elem_of_nil in Hin.
  - destruct (Hhigh a Ha) as [Hin|(v & Hv & _)].
    + rewrite Hempty in Hin. by apply elem_of_nil in Hin.
    + by apply lookup_lt_Some in Hv.
Qed.

Lemma assemble_all_own acls_conf meters_conf routers_conf vlans_conf l :
  forall dps dps' (w w' : World E),
  (forall dp a, dp ∈ dps -> a ∈ dp_vlans dp -> (a < length (heap w))%nat) ->
  no_shared_vlan dps ->
  foldM (assemble acls_conf meters_conf routers_conf vlans_conf) dps l w
    = (Ok dps', w') ->
  no_shared_vlan dps'.
Proof.
  induction l as [|x l IH]; intros dps dps' w w' Hold Hdisj; simpl.
  - by intros [= <- <-].
  - unfold bind.
    destruct (assemble _ _ _ _ dps x w) as [[dps1|?] w1] eqn:Hstep;
      [|discriminate].
    apply assemble_dp_own in Hstep as (Hlen & dp & -> & Hnew).
    apply IH.
    + intros dp0 a [Hin|Hin]%elem_of_app Ha.
      * pose proof (Hold dp0 a Hin Ha). lia.
      * apply list_elem_of_singleton in Hin as ->. by apply Hnew.
    + intros i j dp_i dp_j a Hij Hi Hj Hai Haj.
      apply lookup_snoc_Some in Hi as [[Hil Hi]|[-> <-]];
        apply lookup_snoc_Some in Hj as [[Hjl Hj]|[-> <-]].
      * by apply (Hdisj i j dp_i dp_j a).
      * apply list_elem_of_lookup_2 in Hi.
        pose proof (Hold _ _ Hi Hai). pose proof (Hnew a Haj). lia.
      * apply list_elem_of_lookup_2 in Hj.
        pose proof (Hold _ _ Hj Haj). pose proof (Hnew a Hai). lia.
      * done.
Qed.

(** X23: the switches of a resolution run share no VLAN object.  Each
    switch gets VLAN objects of its own for the top-level declarations and
    for the references it resolves, so that a VLAN attached to one switch
    is attached to no other switch of the result (provided the
    self-consistency check of a switch removes no object from the store). *)
Theorem vlan_objects_not_shared acls_conf dps_conf meters_conf routers_conf
    vlans_conf dps (r r' : Run E) :
  parser_v2 acls_conf dps_conf meters_conf routers_conf vlans_conf r = (Ok dps, r') ->
  no_shared_vlan dps.
Proof.
  unfold _dp_parser_v2.
  unfold bind at 1. unfold in_world at 1, zoom at 1, modify at 1.
  unfold bind at 1. unfold in_world at 1, zoom at 1. cbn [world calls].
  destruct (foldM _ [] (dict_items dps_conf) _) as [[dps0|?] w1] eqn:Hasm;
    [|discriminate].
  apply assemble_all_own in Hasm.
  - unfold bind at 1. destruct (forM_ dps0 _ _) as [[[]|?] r1]; [|discriminate].
    unfold bind at 1. destruct (forM_ dps0 _ r1) as [[[]|?] r2]; [|discriminate].
    unfold ret. by intros [= <- <-].
  - by intros dp a ?%elem_of_nil.
  - by intros i j dp_i dp_j a _ [=].
Qed.
End Assembly.
End OwnVlans.

Section OwnVlansRun.
Import Closed.

(** Two switches that use the VLANs [a] and [b]. *)
Lemma vlan_objects_not_shared_witness :
  exists dps r',
    dp_parser_v2 [] [(AStr "sw1", one_port_switch "b");
                     (AStr "sw2", one_port_switch "a")] [] [] two_names run0
      = (Ok dps, r')
    /\ no_shared_vlan dps.
Proof.
  destruct (dp_parser_v2 [] [(AStr "sw1", one_port_switch "b");
                             (AStr "sw2", one_port_switch "a")] [] []
              two_names run0) as [[dps|e] r'] eqn:Hrun;
    [|vm_compute in Hrun; discriminate].
  exists dps, r'. split; [reflexivity|].
  refine (vlan_objects_not_shared MIN_VID MAX_VID set_iter sanity_check
            finalize_config resolve_stack_topology _ [] _ [] [] two_names
            dps run0 r' Hrun).
  by intros dp w w' res [= _ <-].
Defined.
End OwnVlansRun.
